(** * Monochromatic sound-field sources ([sfs.mono.source])

    A shallow embedding of [src/sfs/mono/source.py] over exact real and
    complex arithmetic, with NumPy arrays modelled as a shape together
    with an element function, and NumPy's broadcasting and [np.tile]
    written out.  Python exceptions (shape mismatch, index out of range,
    failed assertion) are the [None] of the option monad.

    Real and complex numbers are exact: floating-point rounding is not
    modelled.  Division is the total division of [R], which agrees with
    the quotient wherever the divisor is non-zero; what the source makes
    of a zero divisor there is outside the model (NumPy's non-finite
    elements at r = 0; a zero room dimension, speed of sound or
    impedance).  The one exception is the coefficient
    [8 / (ksquared - km)] of the modal series: it is a division of Python
    scalars, which raises [ZeroDivisionError] at an exact resonance, and
    is modelled as such. *)

From Stdlib Require Import Reals Lra Lia ZArith List.
From stdpp Require Import base option list.

Open Scope R_scope.

(** ** Complex numbers as pairs of reals *)

Module Cplx.

Definition C : Type := (R * R)%type.

Definition Re (z : C) : R := fst z.
Definition Im (z : C) : R := snd z.

Definition RtoC (x : R) : C := (x, 0).
Definition Ci : C := (0, 1).
Definition C0 : C := (0, 0).

Definition Cadd (z w : C) : C := (Re z + Re w, Im z + Im w).
Definition Copp (z : C) : C := (- Re z, - Im z).
Definition Csub (z w : C) : C := (Re z - Re w, Im z - Im w).
Definition Cmul (z w : C) : C :=
  (Re z * Re w - Im z * Im w, Re z * Im w + Im z * Re w).
Definition Cdiv (z w : C) : C :=
  let d := Re w * Re w + Im w * Im w in
  ((Re z * Re w + Im z * Im w) / d, (Im z * Re w - Re z * Im w) / d).

(** [z ** 2] *)
Definition Csqr (z : C) : C := Cmul z z.

(** [np.exp] on a complex argument *)
Definition Cexp (z : C) : C := (exp (Re z) * cos (Im z), exp (Re z) * sin (Im z)).

(** [abs] of a complex number *)
Definition Cmod (z : C) : R := sqrt (Re z * Re z + Im z * Im z).

(** Sum of a list of complex numbers. *)
Definition Csum (l : list C) : C := foldr Cadd C0 l.

(** Equality of real and of complex numbers is decidable. *)
#[global] Instance R_eq_dec : EqDecision R := Req_dec_T.
#[global] Instance C_eq_dec : EqDecision C := prod_eq_dec.

(** The division [z / w] of Python scalars: [ZeroDivisionError] when the
    divisor is zero. *)
Definition py_div (z w : C) : option C :=
  if decide (w = C0) then None else Some (Cdiv z w).

End Cplx.

Import Cplx.

(** ** NumPy arrays, broadcasting and tiling *)

Module NumPy.

(** An n-dimensional array: its shape and the element at each multi-index.
    A Python or NumPy scalar is the array of shape [[]]. *)
Record ndarray (A : Type) : Type := NdArray {
  shape : list nat;
  item : list nat -> A
}.
Arguments NdArray {A} _ _.
Arguments shape {A} _.
Arguments item {A} _ _.

Definition scalar {A} (v : A) : ndarray A := NdArray [] (fun _ => v).

(** [idx] is a valid multi-index of an array of shape [s]. *)
Definition in_bounds (s idx : list nat) : Prop := Forall2 lt idx s.

(** Broadcasting of one pair of axis lengths: equal, or one of them 1. *)
Definition broadcast_dim (a b : nat) : option nat :=
  if (a =? b)%nat then Some a
  else if (a =? 1)%nat then Some b
  else if (b =? 1)%nat then Some a
  else None.

(** Broadcasting of two shapes given last axis first. *)
Fixpoint rbroadcast (s t : list nat) : option (list nat) :=
  match s, t with
  | [], _ => Some t
  | _, [] => Some s
  | a :: s', b :: t' =>
      d ← broadcast_dim a b; r ← rbroadcast s' t'; Some (d :: r)
  end.

(** NumPy aligns shapes at their last axis. *)
Definition broadcast_shapes (s t : list nat) : option (list nat) :=
  @rev nat <$> rbroadcast (rev s) (rev t).

(** The index (last axis first) at which an operand of shape [s] is read
    for the result index [idx]: extra leading axes are dropped and an axis
    of length 1 is always read at 0. *)
Fixpoint rbidx (s idx : list nat) : list nat :=
  match s, idx with
  | d :: s', i :: idx' => (if (d =? 1)%nat then 0%nat else i) :: rbidx s' idx'
  | _, _ => []
  end.

Definition bidx (s idx : list nat) : list nat := rev (rbidx (rev s) (rev idx)).

(** The element of [a] that broadcasting pairs with result index [idx]. *)
Definition bget {A} (a : ndarray A) (idx : list nat) : A :=
  item a (bidx (shape a) idx).

(** Elementwise function of one array, and of an array and a scalar. *)
Definition amap {A B} (f : A -> B) (a : ndarray A) : ndarray B :=
  NdArray (shape a) (fun idx => f (item a idx)).

(** Elementwise binary operation of two arrays with broadcasting;
    incompatible shapes raise [ValueError]. *)
Definition bop {A B D} (f : A -> B -> D) (a : ndarray A) (b : ndarray B)
  : option (ndarray D) :=
  s ← broadcast_shapes (shape a) (shape b);
  Some (NdArray s (fun idx => f (bget a idx) (bget b idx))).

(** The [shape] of [np.broadcast] applied to the arrays. *)
Definition np_broadcast_shape (shapes : list (list nat)) : option (list nat) :=
  foldl (fun acc s => acc ≫= fun g => broadcast_shapes g s) (Some []) shapes.

(** [np.zeros_like] *)
Definition np_zeros_like (a : ndarray C) : ndarray C :=
  NdArray (shape a) (fun _ => C0).

(** Prepend axes of length 1 up to [d] axes ([ndmin=d]). *)
Definition pad_shape (d : nat) (s : list nat) : list nat :=
  replicate (d - length s) 1%nat ++ s.

(** [np.tile(a, reps)]: [a] gets leading axes of length 1 up to
    [len(reps)] axes, [reps] gets leading 1s up to [a.ndim]; the result
    repeats [a] [reps[i]] times along axis [i]. *)
Definition tile_shape (s reps : list nat) : list nat :=
  zip_with Nat.mul (pad_shape (length reps) s) (pad_shape (length s) reps).

Definition tile_src (s reps idx : list nat) : list nat :=
  drop (length idx - length s)
       (zip_with Nat.modulo idx (pad_shape (length reps) s)).

Definition np_tile {A} (a : ndarray A) (reps : list nat) : ndarray A :=
  NdArray (tile_shape (shape a) reps)
          (fun idx => item a (tile_src (shape a) reps idx)).

End NumPy.

Import NumPy.

(** ** Monadic folds over Python loops *)

Fixpoint foldlM {A B} (f : A -> B -> option A) (a : A) (l : list B) : option A :=
  match l with
  | [] => Some a
  | x :: l' => a' ← f a x; foldlM f a' l'
  end.

(** [itertools.product(l0, l1, l2)]: the last list varies fastest. *)
Definition product3 {A B D} (l0 : list A) (l1 : list B) (l2 : list D)
  : list (A * B * D) :=
  flat_map (fun a => flat_map (fun b => map (fun d => (a, b, d)) l2) l1) l0.

(** [range(n)] *)
Definition range (n : Z) : list Z := map Z.of_nat (seq 0 (Z.to_nat n)).

(** [int(np.ceil(x))] *)
Definition ceil (x : R) : Z := (1 - up (- x))%Z.

(** ** The helpers of [sfs.util] and the constants of [sfs.defs] *)

Module Util.

(** Modelled from the spec: [util.asarray_1d] is not among the sources.
    The spec has it return "a fixed-length real vector" for a position or
    direction input with no check of its length; a vector is a list of
    reals here, so the coercion is the identity. *)
Definition asarray_1d (a : list R) : list R := a.

(** Modelled from the spec: [util.XyzComponents] is not among the sources.
    The spec has it coerce the grid into "a canonical 3-component
    structure" of broadcast-compatible coordinate arrays; the source also
    asks for [len(grid)], so the components are kept as a list. *)
Definition XyzComponents {A} (components : list (ndarray A)) : list (ndarray A) :=
  components.

(** Modelled from the spec: "elementwise subtraction with a 3-vector
    (broadcast)".  Component [i] of the grid has [x0[i]] subtracted from
    every element; as for any two one-dimensional NumPy arrays the
    lengths must agree unless one of them is 1. *)
Definition xyz_sub (grid : list (ndarray R)) (x0 : list R)
  : option (list (ndarray R)) :=
  match x0, grid with
  | [a], _ => Some (map (amap (fun v => v - a)) grid)
  | _, [g] => Some (map (fun a => amap (fun v => v - a) g) x0)
  | _, _ =>
      if (length grid =? length x0)%nat
      then Some (zip_with (fun g a => amap (fun v => v - a) g) grid x0)
      else None
  end.

(** Left-to-right sum of arrays with broadcasting, starting from the
    first one (the sum of no array is the scalar 0). *)
Definition sum_arrays (l : list (ndarray R)) : option (ndarray R) :=
  match l with
  | [] => Some (scalar 0)
  | a :: l' => foldlM (bop Rplus) a l'
  end.

(** Modelled from the spec: "elementwise Euclidean norm across the 3 axes
    collapsing to the broadcast shape", which is what [np.linalg.norm]
    computes on a sequence of component arrays: the square root of the
    sum of the squared components. *)
Definition norm (comps : list (ndarray R)) : option (ndarray R) :=
  sq ← mapM (fun c => bop Rmult c c) comps;
  s ← sum_arrays sq;
  Some (amap sqrt s).

(** [np.inner] of a sequence of component arrays with a vector: the
    lengths must agree, and the result is the sum of the components
    scaled by the entries of the vector. *)
Definition inner (comps : list (ndarray R)) (n : list R) : option (ndarray R) :=
  if (length comps =? length n)%nat
  then sum_arrays (zip_with (fun c a => amap (fun v => v * a) c) comps n)
  else None.

End Util.

Import Util.

(** ** [sfs.mono.source] *)

(** The modal order [N]: an integer or a sequence of integers
    ([None] when not given). *)
Inductive modal_order : Type :=
  | NScalar (n : Z)
  | NSeq (l : list Z).

Section Source.

(** [scipy.special.hankel2(v, x)], an external primitive. *)
Variable hankel2 : Z -> R -> C.

(** [defs.c] and [defs.rho0], the process-wide medium constants. *)
Variable defs_c : R.
Variable defs_rho0 : R.

(** Modelled from the spec: [util.wavenumber] is not among the sources;
    "k = ω / c; c defaults to a process-wide constant if not supplied". *)
Definition wavenumber (omega : R) (c : option R) : R :=
  omega / default defs_c c.

(** Array times real array, array over real array (complex on the left). *)
Definition mulCR (a : ndarray C) (b : ndarray R) : option (ndarray C) :=
  bop (fun u v => Cmul u (RtoC v)) a b.
Definition divCR (a : ndarray C) (b : ndarray R) : option (ndarray C) :=
  bop (fun u v => Cdiv u (RtoC v)) a b.

Definition point (omega : R) (x0 n0 : list R) (grid : list (ndarray R))
    (c : option R) : option (ndarray C) :=
  let k := wavenumber omega c in
  let x0 := asarray_1d x0 in
  let grid := XyzComponents grid in
  d ← xyz_sub grid x0;
  r ← norm d;
  (* 1 / (4*np.pi) * np.exp(-1j * k * r) / r *)
  let e := amap (fun rv => Cexp (Cmul (Cmul (Copp Ci) (RtoC k)) (RtoC rv))) r in
  divCR (amap (Cmul (RtoC (1 / (4 * PI)))) e) r.

Definition point_velocity (omega : R) (x0 n0 : list R)
    (grid : list (ndarray R)) (c : option R) : option (list (ndarray C)) :=
  let k := wavenumber omega c in
  let x0 := asarray_1d x0 in
  let grid := XyzComponents grid in
  offset ← xyz_sub grid x0;
  r ← norm offset;
  v ← point omega x0 n0 grid c;
  (* v *= (1+1j*k*r) / (defs.rho0 * defs.c * 1j*k*r) *)
  let num := amap (fun rv => Cadd (RtoC 1) (Cmul (Cmul Ci (RtoC k)) (RtoC rv))) r in
  let den := amap (fun rv =>
      Cmul (Cmul (Cmul (RtoC (defs_rho0 * defs_c)) Ci) (RtoC k)) (RtoC rv)) r in
  f ← bop Cdiv num den;
  v ← bop Cmul v f;
  (* [v * o / r for o in offset] *)
  mapM (fun o => vo ← mulCR v o; divCR vo r) offset.

(** The selection of the mode indices per axis, lines 120-137 and,
    identically, 192-209. *)
Definition mode_ranges (k : R) (L : list R) (N : option modal_order)
  : option (list Z * list Z * list Z) :=
  match N with
  | None =>
      L0 ← L !! 0%nat; let Nx := ceil (L0 / PI * k) in
      L1 ← L !! 1%nat; let Ny := ceil (L1 / PI * k) in
      L2 ← L !! 2%nat; let Nz := ceil (L2 / PI * k) in
      Some (range Nx, range Ny, range Nz)
  | Some (NScalar n) => Some (range n, range n, range n)
  | Some (NSeq l) =>
      n0 ← l !! 0%nat; n1 ← l !! 1%nat; n2 ← l !! 2%nat;
      Some ([n0], [n1], [n2])
  end.

(** One of the comprehensions [kmp0], [kmp1], [kmp2] for axis [i]:
    [[((kx + 1j * deltan)**2, trig(kx * x) * np.cos(kx * x0[i]))
      for kx in [m * np.pi / L[i] for m in mm]]]
    with [trig] the cosine for the pressure and the sine for the velocity. *)
Definition modal_basis (trig : R -> R) (deltan : R) (i : nat) (L x0 : list R)
    (coord : ndarray R) (mm : list Z) : option (list (C * ndarray R)) :=
  ks ← mapM (fun m => Li ← L !! i; Some (IZR m * PI / Li)) mm;
  mapM (fun kx =>
          x0i ← x0 !! i;
          Some (Csqr (Cadd (RtoC kx) (Cmul Ci (RtoC deltan))),
                amap (fun v => trig (kx * v) * cos (kx * x0i)) coord)) ks.

(** The body of the loop of [point_modal]. *)
Definition point_modal_step (ksquared : R) (p : ndarray C)
    (t : (C * ndarray R) * (C * ndarray R) * (C * ndarray R))
  : option (ndarray C) :=
  let '((km0, p0), (km1, p1), (km2, p2)) := t in
  let km := Cadd (Cadd km0 km1) km2 in
  (* p + 8 / (ksquared - km) * p0 * p1 * p2 *)
  a ← py_div (RtoC 8) (Csub (RtoC ksquared) km);
  t1 ← mulCR (amap (fun v => Cmul a (RtoC v)) p0) p1;
  t2 ← mulCR t1 p2;
  bop Cadd p t2.

Definition point_modal (omega : R) (x0 n0 : list R) (grid : list (ndarray R))
    (L : list R) (N : option modal_order) (deltan : R) (c : option R)
  : option (ndarray C) :=
  let k := wavenumber omega c in
  let x0 := asarray_1d x0 in
  match XyzComponents grid with
  | [x; y; z] =>
      '(mm, nn, ll) ← mode_ranges k L N;
      kmp0 ← modal_basis cos deltan 0 L x0 x mm;
      kmp1 ← modal_basis cos deltan 1 L x0 y nn;
      kmp2 ← modal_basis cos deltan 2 L x0 z ll;
      let ksquared := k * k in
      foldlM (point_modal_step ksquared) (scalar C0) (product3 kmp0 kmp1 kmp2)
  | _ => None
  end.

(** The body of the loop of [point_modal_velocity]. *)
Definition point_modal_velocity_step (ksquared : R)
    (v : ndarray C * ndarray C * ndarray C)
    (t : (C * ndarray R) * (C * ndarray R) * (C * ndarray R))
  : option (ndarray C * ndarray C * ndarray C) :=
  let '(vx, vy, vz) := v in
  let '((km0, p0), (km1, p1), (km2, p2)) := t in
  let km := Cadd (Cadd km0 km1) km2 in
  (* vx - 8*1j / (ksquared - km) * p0, and likewise for vy and vz *)
  a ← py_div (Cmul (RtoC 8) Ci) (Csub (RtoC ksquared) km);
  vx ← bop Csub vx (amap (fun v => Cmul a (RtoC v)) p0);
  a ← py_div (Cmul (RtoC 8) Ci) (Csub (RtoC ksquared) km);
  vy ← bop Csub vy (amap (fun v => Cmul a (RtoC v)) p1);
  a ← py_div (Cmul (RtoC 8) Ci) (Csub (RtoC ksquared) km);
  vz ← bop Csub vz (amap (fun v => Cmul a (RtoC v)) p2);
  Some (vx, vy, vz).

Definition point_modal_velocity (omega : R) (x0 n0 : list R)
    (grid : list (ndarray R)) (L : list R) (N : option modal_order)
    (deltan : R) (c : option R) : option (list (ndarray C)) :=
  let k := wavenumber omega c in
  let x0 := asarray_1d x0 in
  match XyzComponents grid with
  | [x; y; z] =>
      '(mm, nn, ll) ← mode_ranges k L N;
      kmp0 ← modal_basis sin deltan 0 L x0 x mm;
      kmp1 ← modal_basis sin deltan 1 L x0 y nn;
      kmp2 ← modal_basis sin deltan 2 L x0 z ll;
      let ksquared := k * k in
      '(vx, vy, vz) ← foldlM (point_modal_velocity_step ksquared)
                         (scalar C0, scalar C0, scalar C0)
                         (product3 kmp0 kmp1 kmp2);
      Some (XyzComponents [vx; vy; vz])
  | _ => None
  end.

(** If necessary, duplicate field in z-direction. *)
Definition _duplicate_zdirection {A B} (p : ndarray A) (grid : list (ndarray B))
  : option (ndarray A) :=
  gridshape ← np_broadcast_shape (map shape grid);
  if (2 <? length gridshape)%nat
  then g2 ← gridshape !! 2%nat; Some (np_tile p [1; 1; g2]%nat)
  else Some p.

Definition line (omega : R) (x0 n0 : list R) (grid : list (ndarray R))
    (c : option R) : option (ndarray C) :=
  let k := wavenumber omega c in
  let x0 := asarray_1d x0 in
  let x0 := take 2 x0 in
  let grid := XyzComponents grid in
  d ← xyz_sub (take 2 grid) x0;
  r ← norm d;
  (* -1j/4 * special.hankel2(0, k * r) *)
  let p := amap (fun rv => Cmul (Cdiv (Copp Ci) (RtoC 4)) (hankel2 0 (k * rv))) r in
  _duplicate_zdirection p grid.

Definition line_velocity (omega : R) (x0 n0 : list R)
    (grid : list (ndarray R)) (c : option R) : option (list (ndarray C)) :=
  let k := wavenumber omega c in
  let x0 := asarray_1d x0 in
  let x0 := take 2 x0 in
  let grid := XyzComponents grid in
  offset ← xyz_sub (take 2 grid) x0;
  r ← norm offset;
  (* -1/(4*defs.c*defs.rho0) * special.hankel2(1, k * r) *)
  let v := amap (fun rv =>
      Cmul (RtoC (-1 / (4 * defs_c * defs_rho0))) (hankel2 1 (k * rv))) r in
  v ← mapM (fun o => vo ← mulCR v o; divCR vo r) offset;
  v0 ← v !! 0%nat;
  v1 ← v !! 1%nat;
  (* assert v[0].shape == v[1].shape *)
  if decide (shape v0 = shape v1) then
    let v := if (2 <? length grid)%nat then v ++ [np_zeros_like v0] else v in
    mapM (fun vi => _duplicate_zdirection vi grid) v
  else None.

Definition line_dipole (omega : R) (x0 n0 : list R)
    (grid : list (ndarray R)) (c : option R) : option (ndarray C) :=
  let k := wavenumber omega c in
  let x0 := asarray_1d x0 in
  let x0 := take 2 x0 in
  let n0 := take 2 n0 in
  let grid := XyzComponents grid in
  dx ← xyz_sub (take 2 grid) x0;
  r ← norm dx;
  (* 1j*k/4 * special.hankel2(1, k * r) * np.inner(dx, n0) / r *)
  let h := amap (fun rv =>
      Cmul (Cdiv (Cmul Ci (RtoC k)) (RtoC 4)) (hankel2 1 (k * rv))) r in
  i ← inner dx n0;
  t ← mulCR h i;
  p ← divCR t r;
  _duplicate_zdirection p grid.

Definition plane (omega : R) (x0 n0 : list R) (grid : list (ndarray R))
    (c : option R) : option (ndarray C) :=
  let k := wavenumber omega c in
  let x0 := asarray_1d x0 in
  let n0 := asarray_1d n0 in
  let grid := XyzComponents grid in
  d ← xyz_sub grid x0;
  i ← inner d n0;
  (* np.exp(-1j * k * np.inner(grid - x0, n0)) *)
  Some (amap (fun t => Cexp (Cmul (Cmul (Copp Ci) (RtoC k)) (RtoC t))) i).

Definition plane_velocity (omega : R) (x0 n0 : list R)
    (grid : list (ndarray R)) (c : option R) : option (list (ndarray C)) :=
  p ← plane omega x0 n0 grid c;
  let v := amap (fun z => Cdiv z (RtoC (defs_rho0 * defs_c))) p in
  Some (XyzComponents (map (fun n => amap (fun z => Cmul z (RtoC n)) v) n0)).

(** ** Reference formulas

    The closed forms the evaluators are compared with, at one grid point. *)

(** Axial mode wavenumber [m·π/L_i]. *)
Definition k_mode (m : Z) (Li : R) : R := IZR m * PI / Li.

(** The absorption-shifted squared mode wavenumbers of a mode triple,
    summed: [(k_mx + j·deltan)² + (k_my + j·deltan)² + (k_mz + j·deltan)²]. *)
Definition km_sum (deltan kx ky kz : R) : C :=
  Cadd (Cadd (Csqr (Cadd (RtoC kx) (Cmul Ci (RtoC deltan))))
             (Csqr (Cadd (RtoC ky) (Cmul Ci (RtoC deltan)))))
       (Csqr (Cadd (RtoC kz) (Cmul Ci (RtoC deltan)))).

(** One term of the pressure series at the point with coordinates
    [(xv, yv, zv)] for the mode triple [(m, n, l)]:
    [8 / (k² − km_sum) · p_x·p_y·p_z] with [p_i = cos(k_mi·coord_i)·cos(k_mi·x0_i)]. *)
Definition pressure_term (k deltan L0 L1 L2 a0 a1 a2 xv yv zv : R)
    (t : Z * Z * Z) : C :=
  let '(m, n, l) := t in
  let kx := k_mode m L0 in
  let ky := k_mode n L1 in
  let kz := k_mode l L2 in
  Cmul (Cmul (Cmul (Cdiv (RtoC 8) (Csub (RtoC (k * k)) (km_sum deltan kx ky kz)))
                   (RtoC (cos (kx * xv) * cos (kx * a0))))
             (RtoC (cos (ky * yv) * cos (ky * a1))))
       (RtoC (cos (kz * zv) * cos (kz * a2))).

(** The divisor [k² − km] of the coefficient of the mode triple [t], and
    the absence of a singular term: no divisor of the sum is zero, so that
    no coefficient [8 / (ksquared - km)] raises [ZeroDivisionError]. *)
Definition term_denominator (k deltan L0 L1 L2 : R) (t : Z * Z * Z) : C :=
  let '(m, n, l) := t in
  Csub (RtoC (k * k)) (km_sum deltan (k_mode m L0) (k_mode n L1) (k_mode l L2)).

Definition no_singular_term (k deltan L0 L1 L2 : R) (ts : list (Z * Z * Z)) : Prop :=
  forall t, In t ts -> term_denominator k deltan L0 L1 L2 t <> C0.

(** The mode wavenumber of axis [axis] in the mode triple [t]. *)
Definition k_axis (L0 L1 L2 : R) (axis : nat) (t : Z * Z * Z) : R :=
  let '(m, n, l) := t in
  match axis with
  | O => k_mode m L0
  | S O => k_mode n L1
  | _ => k_mode l L2
  end.

(** One term of the velocity series of axis [axis] at a point whose
    coordinate along that axis is [v]: [−8j / (k² − km_sum)] times the
    axis's own basis [sin(k_mi·coord_i)·cos(k_mi·x0_i)], and nothing else. *)
Definition velocity_term (k deltan L0 L1 L2 : R) (axis : nat) (ai v : R)
    (t : Z * Z * Z) : C :=
  let '(m, n, l) := t in
  let ki := k_axis L0 L1 L2 axis t in
  Cmul (Cdiv (Cmul (RtoC (- 8)) Ci)
             (Csub (RtoC (k * k))
                   (km_sum deltan (k_mode m L0) (k_mode n L1) (k_mode l L2))))
       (RtoC (sin (ki * v) * cos (ki * ai))).

(** The distance of the point [(xv, yv, zv)] from [(a0, a1, a2)], and its
    in-plane counterpart. *)
Definition dist3 (a0 a1 a2 xv yv zv : R) : R :=
  sqrt ((xv - a0) * (xv - a0) + (yv - a1) * (yv - a1) + (zv - a2) * (zv - a2)).
Definition dist2 (a0 a1 xv yv : R) : R :=
  sqrt ((xv - a0) * (xv - a0) + (yv - a1) * (yv - a1)).

(** Point-source pressure [exp(−jkr)/(4πr)]. *)
Definition point_pressure (k r : R) : C :=
  Cdiv (Cexp (Cmul (Cmul (Copp Ci) (RtoC k)) (RtoC r))) (RtoC (4 * PI * r)).

(** Point-source velocity along one axis with offset [o] for the medium
    impedance [rho·cc]: the pressure times [(1 + jkr)/(j·k·r·ρ·c)] times [o/r]. *)
Definition point_velocity_value (rho cc k r o : R) : C :=
  Cmul (Cmul (point_pressure k r)
             (Cdiv (Cadd (RtoC 1) (Cmul (Cmul Ci (RtoC k)) (RtoC r)))
                   (Cmul (Cmul (Cmul (Cmul Ci (RtoC k)) (RtoC r)) (RtoC rho)) (RtoC cc))))
       (RtoC (o / r)).

(** The inner product [⟨grid − x0, n0⟩] at one grid point. *)
Definition inner3 (a0 a1 a2 b0 b1 b2 xv yv zv : R) : R :=
  (xv - a0) * b0 + (yv - a1) * b1 + (zv - a2) * b2.

(** Plane-wave pressure [exp(−j·k·t)] for the real inner product [t]. *)
Definition plane_pressure (k t : R) : C :=
  Cexp (Cmul (Cmul (Copp Ci) (RtoC k)) (RtoC t)).

(** The point-source pressure and velocity in the order in which the
    source evaluates them: [1/(4π)·exp(−jkr)/r], and
    [p·((1 + jkr)/(ρ·c·j·k·r))·o/r]. *)
Definition point_pressure_eval (k r : R) : C :=
  Cdiv (Cmul (RtoC (1 / (4 * PI))) (Cexp (Cmul (Cmul (Copp Ci) (RtoC k)) (RtoC r))))
       (RtoC r).

Definition point_velocity_eval (rho cc k r o : R) : C :=
  Cdiv (Cmul (Cmul (point_pressure_eval k r)
                   (Cdiv (Cadd (RtoC 1) (Cmul (Cmul Ci (RtoC k)) (RtoC r)))
                         (Cmul (Cmul (Cmul (RtoC (rho * cc)) Ci) (RtoC k)) (RtoC r))))
             (RtoC o))
       (RtoC r).

(** Line-source pressure [−(j/4)·H0(k·r)]. *)
Definition line_pressure (k r : R) : C :=
  Cmul (Cdiv (Copp Ci) (RtoC 4)) (hankel2 0 (k * r)).

(** Line-source velocity along one in-plane axis with offset [o] for the
    medium impedance [rho·cc]: [−1/(4·ρ·c)·H1(k·r)·o/r]. *)
Definition line_velocity_value (rho cc k r o : R) : C :=
  Cmul (Cmul (RtoC (-1 / (4 * rho * cc))) (hankel2 1 (k * r))) (RtoC (o / r)).

(** The line-source velocity in the order in which the source evaluates
    it, with the coefficient [coef] in front of the Hankel function. *)
Definition line_velocity_eval (coef k r o : R) : C :=
  Cdiv (Cmul (Cmul (RtoC coef) (hankel2 1 (k * r))) (RtoC o)) (RtoC r).

(** The z-duplication of a 2D result [p] for a grid of broadcast shape
    [g], and the index of [p] that an index of the result is read from. *)
Definition z_duplicated {A} (g : list nat) (p : ndarray A) : ndarray A :=
  if (2 <? length g)%nat then np_tile p [1; 1; nth 2 g 0]%nat else p.

Definition z_source (g s idx : list nat) : list nat :=
  if (2 <? length g)%nat then tile_src s [1; 1; nth 2 g 0]%nat idx else idx.

(** The z-duplication restores the grid's broadcast shape [g] from the
    shape [sxy] of a 2D result when the x and y components carry no
    extent along the third axis and z adds nothing else: [sxy] is
    [(a, b, 1)] and [g] is [(a, b, n)], or [g] has at most two dimensions
    and is [sxy] already. *)
Definition duplication_fits (sxy g : list nat) : Prop :=
  ((length g <= 2)%nat /\ sxy = g) \/
  exists a b n : nat, sxy = [a; b; 1%nat] /\ g = [a; b; n].

(** Every array of a returned triple has shape [s]. *)
Definition three_of_shape (s : list nat) (v : option (list (ndarray C))) : Prop :=
  exists vx vy vz, v = Some [vx; vy; vz] /\ shape vx = s /\ shape vy = s /\ shape vz = s.

Definition one_of_shape (s : list nat) (p : option (ndarray C)) : Prop :=
  exists a, p = Some a /\ shape a = s.

(** The speed of sound in force for a call: the argument, or [defs.c]. *)
Definition sound_speed (c : option R) : R := default defs_c c.

(** The entry of the list [kmp_i] for the mode index [m], as a function of [m]. *)
Definition basis_entry (trig : R -> R) (deltan Li ai : R) (coord : ndarray R)
    (m : Z) : C * ndarray R :=
  (Csqr (Cadd (RtoC (k_mode m Li)) (Cmul Ci (RtoC deltan))),
   amap (fun v => trig (k_mode m Li * v) * cos (k_mode m Li * ai)) coord).

(** The triple of basis entries that the loops receive from
    [itertools.product] for a mode triple. *)
Definition mode_entries (trig : R -> R) (deltan L0 L1 L2 a0 a1 a2 : R)
    (x y z : ndarray R) (t : Z * Z * Z)
  : (C * ndarray R) * (C * ndarray R) * (C * ndarray R) :=
  let '(m, n, l) := t in
  (basis_entry trig deltan L0 a0 x m,
   basis_entry trig deltan L1 a1 y n,
   basis_entry trig deltan L2 a2 z l).

(** [point_modal] and [point_modal_velocity] run their loops over exactly
    the product of the mode-index lists [mm], [nn], [ll]. *)
Definition loops_over_modes (omega : R) (x0 n0 : list R) (x y z : ndarray R)
    (L0 L1 L2 : R) (N : option modal_order) (deltan : R) (c : option R)
    (mm nn ll : list Z) : Prop :=
  let k := omega / sound_speed c in
  let a0 := nth 0 x0 0 in
  let a1 := nth 1 x0 0 in
  let a2 := nth 2 x0 0 in
  point_modal omega x0 n0 [x; y; z] [L0; L1; L2] N deltan c
  = foldlM (point_modal_step (k * k)) (scalar C0)
      (map (mode_entries cos deltan L0 L1 L2 a0 a1 a2 x y z) (product3 mm nn ll))
  /\
  point_modal_velocity omega x0 n0 [x; y; z] [L0; L1; L2] N deltan c
  = '(vx, vy, vz) ← foldlM (point_modal_velocity_step (k * k))
        (scalar C0, scalar C0, scalar C0)
        (map (mode_entries sin deltan L0 L1 L2 a0 a1 a2 x y z) (product3 mm nn ll));
    Some [vx; vy; vz].

(** The real eigenvalue [k_mx² + k_my² + k_mz²] of a mode triple, and the
    absence of an exact resonance: [k²] differs from the eigenvalue of
    every mode triple of the sum. *)
Definition mode_eigenvalue (L0 L1 L2 : R) (t : Z * Z * Z) : R :=
  let '(m, n, l) := t in
  k_mode m L0 * k_mode m L0 + k_mode n L1 * k_mode n L1 + k_mode l L2 * k_mode l L2.

Definition no_resonance (k L0 L1 L2 : R) (ts : list (Z * Z * Z)) : Prop :=
  forall t, In t ts -> k * k <> mode_eigenvalue L0 L1 L2 t.

(** The series term for rigid walls ([deltan = 0]), computed in the reals. *)
Definition pressure_term_real (k L0 L1 L2 a0 a1 a2 xv yv zv : R)
    (t : Z * Z * Z) : R :=
  let '(m, n, l) := t in
  8 / (k * k - mode_eigenvalue L0 L1 L2 t)
  * (cos (k_mode m L0 * xv) * cos (k_mode m L0 * a0))
  * (cos (k_mode n L1 * yv) * cos (k_mode n L1 * a1))
  * (cos (k_mode l L2 * zv) * cos (k_mode l L2 * a2)).

Definition Rsum (l : list R) : R := foldr Rplus 0 l.

(** ** Sample inputs *)

(** An array of shape [s] holding the same value everywhere, and a
    one-dimensional array from a list. *)
Definition full {A} (s : list nat) (v : A) : ndarray A := NdArray s (fun _ => v).
Definition array1 (l : list R) : ndarray R :=
  NdArray [length l] (fun idx => nth (nth 0 idx 0%nat) l 0).
(** An array of shape [(1, 1, len l)] running along the third axis. *)
Definition along_z (l : list R) : ndarray R :=
  NdArray [1; 1; length l]%nat (fun idx => nth (nth 2 idx 0%nat) l 0).

(** Arrays of shape [(1, len l, 1)] and [(len l, 1, 1)] running along the
    second and the first axis, as [np.meshgrid(..., sparse=True)] lays out
    the x and the y coordinates. *)
Definition along_x (l : list R) : ndarray R :=
  NdArray [1; length l; 1]%nat (fun idx => nth (nth 1 idx 0%nat) l 0).
Definition along_y (l : list R) : ndarray R :=
  NdArray [length l; 1; 1]%nat (fun idx => nth (nth 0 idx 0%nat) l 0).

(** The sparse 2 x 2 x 2 grid of the points with x in {1, 2}, y in {1, 3}
    and z in {1, 2}. *)
Definition room_grid : list (ndarray R) :=
  [along_x [1; 2]; along_y [1; 3]; along_z [1; 2]].
(** The sparse 2 x 2 x 1 grid of the corners of the floor of a 4 x 3 room. *)
Definition wall_grid : list (ndarray R) :=
  [along_x [0; 4]; along_y [0; 3]; along_z [1]].

(** A sparse 2 x 2 x 2 grid as built by [np.meshgrid(..., sparse=True)]. *)
Definition sparse_grid : list (ndarray R) :=
  [full [1; 2; 1]%nat 0; full [2; 1; 1]%nat 0; full [1; 1; 2]%nat 0].
(** A dense 2 x 2 x 2 grid: every component has the full shape. *)
Definition dense_grid : list (ndarray R) :=
  [full [2; 2; 2]%nat 0; full [2; 2; 2]%nat 0; full [2; 2; 2]%nat 0].
(** Two points at x = 1 and x = 2 on the x-axis, stored along the third axis. *)
Definition z_stored_points : list (ndarray R) :=
  [along_z [1; 2]; along_z [0; 0]; along_z [0; 0]].
(** The single point (1, 0, 0). *)
Definition one_point : list (ndarray R) :=
  [array1 [1]; array1 [0]; array1 [0]].

(** ** Further notions used in the properties of the evaluators *)

(** Complex conjugate. *)
Definition Cconj (z : C) : C := (Re z, - Im z).

(** The number of elements of an array of shape [s]. *)
Definition size_of (s : list nat) : nat := foldr Nat.mul 1%nat s.

(** The grid component [a] with every coordinate shifted by [t], and
    mirrored at the origin. *)
Definition shifted (t : R) (a : ndarray R) : ndarray R := amap (fun v => v + t) a.
Definition mirrored (a : ndarray R) : ndarray R := amap Ropp a.

(** The grid component [a], mirrored when [b] holds. *)
Definition mirror_if (b : bool) (a : ndarray R) : ndarray R :=
  if b then mirrored a else a.

(** Line-dipole pressure at a point with in-plane offset [(ox, oy)] at
    distance [r], for the in-plane orientation [(b0, b1)], in the order in
    which the source evaluates it: [jk/4 · H1(k·r) · ⟨offset, n0⟩ / r]. *)
Definition line_dipole_eval (k r ox oy b0 b1 : R) : C :=
  Cdiv (Cmul (Cmul (Cdiv (Cmul Ci (RtoC k)) (RtoC 4)) (hankel2 1 (k * r)))
             (RtoC (ox * b0 + oy * b1)))
       (RtoC r).

(** Three components whose shapes (2), (3) and (1) cannot be broadcast
    together. *)
Definition incompatible_grid : list (ndarray R) :=
  [full [2]%nat 0; full [3]%nat 0; full [1]%nat 0].

(** * Properties *)

(** ** Complex arithmetic *)

Ltac cplx :=
  repeat match goal with z : C |- _ => destruct z end;
  unfold Csqr, Cdiv, Cmul, Csub, Cadd, Copp, RtoC, Ci, C0, Re, Im in *; simpl in *.

Lemma Cadd_comm (z w : C) : Cadd z w = Cadd w z.
Proof. cplx. f_equal; ring. Qed.

Lemma Cadd_assoc (z w u : C) : Cadd z (Cadd w u) = Cadd (Cadd z w) u.
Proof. cplx. f_equal; ring. Qed.

Lemma Cadd_0_l (z : C) : Cadd C0 z = z.
Proof. cplx. f_equal; ring. Qed.

Lemma Cadd_0_r (z : C) : Cadd z C0 = z.
Proof. cplx. f_equal; ring. Qed.

Lemma foldl_Cadd_Csum (f : Z * Z * Z -> C) (ts : list (Z * Z * Z)) (z : C) :
  foldl (fun s t => Cadd s (f t)) z ts = Cadd z (Csum (map f ts)).
Proof.
  revert z. induction ts as [|t ts IH]; intros z; simpl.
  - now rewrite Cadd_0_r.
  - rewrite IH. now rewrite Cadd_assoc.
Qed.

Lemma Cmul_negi (k t : R) :
  Cmul (Cmul (Copp Ci) (RtoC k)) (RtoC t) = (0, - (k * t)).
Proof. cplx. f_equal; ring. Qed.

(** [exp] of a purely imaginary number lies on the unit circle. *)
Lemma Cmod_Cexp_imag (k t : R) :
  Cmod (Cexp (Cmul (Cmul (Copp Ci) (RtoC k)) (RtoC t))) = 1.
Proof.
  rewrite Cmul_negi. unfold Cmod, Cexp, Re, Im. simpl. rewrite exp_0.
  set (u := - (k * t)).
  replace (1 * cos u * (1 * cos u) + 1 * sin u * (1 * sin u))
    with ((sin u)² + (cos u)²) by (unfold Rsqr; ring).
  rewrite sin2_cos2. apply sqrt_1.
Qed.

(** ** Broadcasting *)

Lemma broadcast_dim_refl (a : nat) : broadcast_dim a a = Some a.
Proof. unfold broadcast_dim. now rewrite Nat.eqb_refl. Qed.

Lemma rbroadcast_nil_r (s : list nat) : rbroadcast s [] = Some s.
Proof. now destruct s. Qed.

Lemma rbroadcast_refl (s : list nat) : rbroadcast s s = Some s.
Proof.
  induction s as [|a s IH]; simpl; [done|].
  now rewrite broadcast_dim_refl, IH.
Qed.

Lemma broadcast_shapes_nil_l (s : list nat) : broadcast_shapes [] s = Some s.
Proof. unfold broadcast_shapes. simpl. now rewrite rev_involutive. Qed.

Lemma broadcast_shapes_nil_r (s : list nat) : broadcast_shapes s [] = Some s.
Proof.
  unfold broadcast_shapes. simpl. rewrite rbroadcast_nil_r. simpl.
  now rewrite rev_involutive.
Qed.

Lemma broadcast_shapes_refl (s : list nat) : broadcast_shapes s s = Some s.
Proof.
  unfold broadcast_shapes. rewrite rbroadcast_refl. simpl.
  now rewrite rev_involutive.
Qed.

Lemma broadcast_shapes_rev (s t u : list nat) :
  broadcast_shapes s t = Some u -> rbroadcast (rev s) (rev t) = Some (rev u).
Proof.
  unfold broadcast_shapes. destruct (rbroadcast (rev s) (rev t)) as [r|]; simpl; [|done].
  intros [= <-]. now rewrite rev_involutive.
Qed.

Lemma broadcast_dim_1_l (a b : nat) :
  broadcast_dim a b = Some 1%nat -> a = 1%nat.
Proof.
  unfold broadcast_dim.
  destruct (Nat.eqb_spec a b); [congruence|].
  destruct (Nat.eqb_spec a 1); [done|].
  destruct (Nat.eqb_spec b 1); congruence.
Qed.

Lemma broadcast_dim_1_r (a b : nat) :
  broadcast_dim a b = Some 1%nat -> b = 1%nat.
Proof.
  unfold broadcast_dim.
  destruct (Nat.eqb_spec a b); [congruence|].
  destruct (Nat.eqb_spec a 1); [congruence|].
  destruct (Nat.eqb_spec b 1); congruence.
Qed.

Lemma rbidx_idem (s i : list nat) : rbidx s (rbidx s i) = rbidx s i.
Proof.
  revert i. induction s as [|d s IH]; intros [|j i]; simpl; try done.
  rewrite IH. now destruct (d =? 1)%nat.
Qed.

(** An operand is read at the same place whether the result index is
    first projected onto the broadcast shape or not. *)
Lemma rbidx_rbroadcast_l (s t u i : list nat) :
  rbroadcast s t = Some u -> rbidx s (rbidx u i) = rbidx s i.
Proof.
  revert t u i. induction s as [|a s IH]; intros t u i H; [done|].
  destruct t as [|b t].
  - simpl in H. injection H as <-. apply rbidx_idem.
  - simpl in H. destruct (broadcast_dim a b) as [d|] eqn:Hd; simpl in H; [|done].
    destruct (rbroadcast s t) as [r|] eqn:Hr; simpl in H; [|done].
    injection H as <-. destruct i as [|j i]; simpl; [done|].
    rewrite (IH _ _ _ Hr). f_equal.
    destruct (Nat.eqb_spec a 1); [done|].
    destruct (Nat.eqb_spec d 1) as [->|]; [|done].
    apply broadcast_dim_1_l in Hd. done.
Qed.

Lemma rbidx_rbroadcast_r (s t u i : list nat) :
  rbroadcast s t = Some u -> rbidx t (rbidx u i) = rbidx t i.
Proof.
  revert s u i. induction t as [|b t IH]; intros s u i H; [done|].
  destruct s as [|a s].
  - simpl in H. injection H as <-. apply rbidx_idem.
  - simpl in H. destruct (broadcast_dim a b) as [d|] eqn:Hd; simpl in H; [|done].
    destruct (rbroadcast s t) as [r|] eqn:Hr; simpl in H; [|done].
    injection H as <-. destruct i as [|j i]; simpl; [done|].
    rewrite (IH _ _ _ Hr). f_equal.
    destruct (Nat.eqb_spec b 1); [done|].
    destruct (Nat.eqb_spec d 1) as [->|]; [|done].
    apply broadcast_dim_1_r in Hd. done.
Qed.

Lemma bidx_broadcast_l (s t u idx : list nat) :
  broadcast_shapes s t = Some u -> bidx s (bidx u idx) = bidx s idx.
Proof.
  intros H%broadcast_shapes_rev. unfold bidx. rewrite rev_involutive.
  now rewrite (rbidx_rbroadcast_l _ _ _ _ H).
Qed.

Lemma bidx_broadcast_r (s t u idx : list nat) :
  broadcast_shapes s t = Some u -> bidx t (bidx u idx) = bidx t idx.
Proof.
  intros H%broadcast_shapes_rev. unfold bidx. rewrite rev_involutive.
  now rewrite (rbidx_rbroadcast_r _ _ _ _ H).
Qed.

Lemma rbidx_in_bounds (s idx : list nat) : Forall2 lt idx s -> rbidx s idx = idx.
Proof.
  induction 1 as [|i d idx s Hlt _ IH]; [done|]. simpl. rewrite IH. f_equal.
  destruct (Nat.eqb_spec d 1); [lia|done].
Qed.

Lemma Forall2_lt_rev (l k : list nat) : Forall2 lt l k -> Forall2 lt (rev l) (rev k).
Proof.
  induction 1 as [|i d l k Hlt _ IH]; simpl; [constructor|].
  apply Forall2_app; [done|]. now repeat constructor.
Qed.

(** A valid index of an array is read as it is. *)
Lemma bidx_in_bounds (s idx : list nat) : in_bounds s idx -> bidx s idx = idx.
Proof.
  intros H. unfold bidx. rewrite rbidx_in_bounds.
  - apply rev_involutive.
  - now apply Forall2_lt_rev.
Qed.

Lemma bget_in_bounds {A} (a : ndarray A) (idx : list nat) :
  in_bounds (shape a) idx -> bget a idx = item a idx.
Proof. intros H. unfold bget. now rewrite bidx_in_bounds. Qed.

Lemma bget_scalar {A} (v : A) (idx : list nat) : bget (scalar v) idx = v.
Proof. done. Qed.

Lemma bget_amap {A B} (f : A -> B) (a : ndarray A) (idx : list nat) :
  bget (amap f a) idx = f (bget a idx).
Proof. done. Qed.

Lemma bop_Some {A B D} (f : A -> B -> D) (a : ndarray A) (b : ndarray B) s :
  broadcast_shapes (shape a) (shape b) = Some s ->
  bop f a b = Some (NdArray s (fun idx => f (bget a idx) (bget b idx))).
Proof. intros H. unfold bop. now rewrite H. Qed.

(** The result of a broadcasting operation, read at any index, is the
    operation applied to the operands read at that index. *)
Lemma bop_spec {A B D} (f : A -> B -> D) (a : ndarray A) (b : ndarray B) r :
  bop f a b = Some r ->
  broadcast_shapes (shape a) (shape b) = Some (shape r) /\
  forall idx, bget r idx = f (bget a idx) (bget b idx).
Proof.
  unfold bop. destruct (broadcast_shapes (shape a) (shape b)) as [s|] eqn:Hs; [|done].
  simpl. intros [= <-]. split; [done|]. intros idx. unfold bget at 1. simpl.
  unfold bget. now rewrite (bidx_broadcast_l _ _ _ _ Hs), (bidx_broadcast_r _ _ _ _ Hs).
Qed.

Lemma bop_ok {A B D} (f : A -> B -> D) (a : ndarray A) (b : ndarray B) s :
  broadcast_shapes (shape a) (shape b) = Some s ->
  exists r, bop f a b = Some r /\ shape r = s /\
            forall idx, bget r idx = f (bget a idx) (bget b idx).
Proof.
  intros H. eexists. split; [apply (bop_Some _ _ _ _ H)|]. split; [done|].
  apply (bop_spec f a b). apply (bop_Some _ _ _ _ H).
Qed.

(** The same with the element read at an arbitrary index, valid or not. *)
Lemma bop_ok_item {A B D} (f : A -> B -> D) (a : ndarray A) (b : ndarray B) s :
  broadcast_shapes (shape a) (shape b) = Some s ->
  exists r, bop f a b = Some r /\ shape r = s /\
            (forall idx, item r idx = f (bget a idx) (bget b idx)) /\
            (forall idx, bget r idx = f (bget a idx) (bget b idx)).
Proof.
  intros H. eexists. split; [apply (bop_Some _ _ _ _ H)|]. split; [done|].
  split; [done|]. apply (bop_spec f a b). apply (bop_Some _ _ _ _ H).
Qed.

Lemma broadcast_dim_into (d a : nat) :
  broadcast_dim d a = Some d <-> a = d \/ a = 1%nat.
Proof.
  unfold broadcast_dim.
  destruct (Nat.eqb_spec d a); [split; [auto|done]|].
  destruct (Nat.eqb_spec d 1); [split; [congruence|intros [|]; congruence]|].
  destruct (Nat.eqb_spec a 1); [split; [auto|done]|].
  split; [done|intros [|]; congruence].
Qed.

Lemma broadcast_dim_absorb (a b d : nat) :
  broadcast_dim a b = Some d ->
  broadcast_dim d a = Some d /\ broadcast_dim d b = Some d.
Proof.
  rewrite !broadcast_dim_into. unfold broadcast_dim.
  destruct (Nat.eqb_spec a b); [naive_solver|].
  destruct (Nat.eqb_spec a 1); [naive_solver|].
  destruct (Nat.eqb_spec b 1); naive_solver.
Qed.

Lemma rbroadcast_absorb (s t u : list nat) :
  rbroadcast s t = Some u -> rbroadcast u s = Some u /\ rbroadcast u t = Some u.
Proof.
  revert t u. induction s as [|a s IH]; intros t u H.
  - simpl in H. injection H as <-. split; [apply rbroadcast_nil_r|apply rbroadcast_refl].
  - destruct t as [|b t].
    + simpl in H. injection H as <-. split; [apply rbroadcast_refl|apply rbroadcast_nil_r].
    + simpl in H. destruct (broadcast_dim a b) as [d|] eqn:Hd; simpl in H; [|done].
      destruct (rbroadcast s t) as [r|] eqn:Hr; simpl in H; [|done].
      injection H as <-. destruct (IH _ _ Hr) as [H1 H2].
      destruct (broadcast_dim_absorb _ _ _ Hd) as [D1 D2].
      simpl. now rewrite D1, D2, H1, H2.
Qed.

Lemma rbroadcast_trans (s u g : list nat) :
  rbroadcast u s = Some u -> rbroadcast g u = Some g -> rbroadcast g s = Some g.
Proof.
  revert u g. induction s as [|a s IH]; intros u g Hu Hg.
  - apply rbroadcast_nil_r.
  - destruct u as [|d u]; [done|]. destruct g as [|e g]; [done|].
    simpl in Hu, Hg.
    destruct (broadcast_dim d a) as [d'|] eqn:Hd; simpl in Hu; [|done].
    destruct (rbroadcast u s) as [r|] eqn:Hr; simpl in Hu; [|done].
    injection Hu as -> ->.
    destruct (broadcast_dim e d) as [e'|] eqn:He; simpl in Hg; [|done].
    destruct (rbroadcast g u) as [r'|] eqn:Hr'; simpl in Hg; [|done].
    injection Hg as -> ->.
    simpl. rewrite (IH _ _ Hr Hr').
    apply broadcast_dim_into in Hd, He.
    assert (Hea : broadcast_dim e a = Some e) by (apply broadcast_dim_into; lia).
    now rewrite Hea.
Qed.

Lemma broadcast_shapes_absorb (s t u : list nat) :
  broadcast_shapes s t = Some u ->
  broadcast_shapes u s = Some u /\ broadcast_shapes u t = Some u.
Proof.
  intros H%broadcast_shapes_rev. destruct (rbroadcast_absorb _ _ _ H) as [H1 H2].
  unfold broadcast_shapes. rewrite H1, H2. simpl. now rewrite rev_involutive.
Qed.

Lemma broadcast_shapes_trans (s u g : list nat) :
  broadcast_shapes u s = Some u -> broadcast_shapes g u = Some g ->
  broadcast_shapes g s = Some g.
Proof.
  intros H1%broadcast_shapes_rev H2%broadcast_shapes_rev.
  unfold broadcast_shapes. rewrite (rbroadcast_trans _ _ _ H1 H2). simpl.
  now rewrite rev_involutive.
Qed.

(** Every component of a broadcast-compatible grid broadcasts into the
    grid's shape without changing it. *)
Lemma grid_components_fit (sx sy sz sxy g : list nat) :
  broadcast_shapes sx sy = Some sxy -> broadcast_shapes sxy sz = Some g ->
  broadcast_shapes g sx = Some g /\ broadcast_shapes g sy = Some g /\
  broadcast_shapes g sz = Some g.
Proof.
  intros [Hx Hy]%broadcast_shapes_absorb [Hxy Hz]%broadcast_shapes_absorb.
  eauto using broadcast_shapes_trans.
Qed.

(** The broadcast shape of three arrays is reached pairwise, left to right. *)
Lemma np_broadcast_shape_3 (sx sy sz g : list nat) :
  np_broadcast_shape [sx; sy; sz] = Some g <->
  exists sxy, broadcast_shapes sx sy = Some sxy /\ broadcast_shapes sxy sz = Some g.
Proof.
  change (np_broadcast_shape [sx; sy; sz])
    with ((broadcast_shapes [] sx ≫= fun g => broadcast_shapes g sy)
            ≫= fun g => broadcast_shapes g sz).
  rewrite broadcast_shapes_nil_l.
  change (Some sx ≫= fun g => broadcast_shapes g sy) with (broadcast_shapes sx sy).
  destruct (broadcast_shapes sx sy) as [sxy|]; simpl.
  - split; [eauto|]. now intros (? & [= <-] & ?).
  - split; [done|]. now intros (? & ? & ?).
Qed.

Lemma np_broadcast_shape_2 (sx sy : list nat) :
  np_broadcast_shape [sx; sy] = broadcast_shapes sx sy.
Proof.
  change (np_broadcast_shape [sx; sy])
    with (broadcast_shapes [] sx ≫= fun g => broadcast_shapes g sy).
  now rewrite broadcast_shapes_nil_l.
Qed.

(** ** Loops *)

Lemma mapM_total {A B} (f : A -> option B) (g : A -> B) (l : list A) :
  (forall x, f x = Some (g x)) -> mapM f l = Some (map g l).
Proof.
  intros H. apply mapM_Some_2. induction l; simpl; constructor; auto.
Qed.

Lemma product3_map {A B D A' B' D'} (f : A -> A') (g : B -> B') (h : D -> D')
    (l0 : list A) (l1 : list B) (l2 : list D) :
  product3 (map f l0) (map g l1) (map h l2)
  = map (fun t => let '(a, b, d) := t in (f a, g b, h d)) (product3 l0 l1 l2).
Proof.
  unfold product3. induction l0 as [|a l0 IH]; simpl; [done|].
  rewrite map_app, IH. f_equal. clear IH.
  induction l1 as [|b l1 IH]; simpl; [done|].
  rewrite map_app, IH. f_equal. now rewrite !map_map.
Qed.

Lemma product3_nil {A B D} (l0 : list A) (l1 : list B) (l2 : list D) :
  l0 = [] \/ l1 = [] \/ l2 = [] -> product3 l0 l1 l2 = [].
Proof.
  unfold product3. intros [->|[->| ->]]; [done| |].
  - induction l0; simpl; auto.
  - assert (Hin : forall a : A,
        flat_map (fun b : B => map (fun d : D => (a, b, d)) []) l1 = []).
    { intros a. induction l1; simpl; auto. }
    induction l0 as [|a l0 IH]; [done|].
    change (flat_map (fun b : B => map (fun d : D => (a, b, d)) []) l1 ++
            flat_map (fun a : A =>
              flat_map (fun b : B => map (fun d : D => (a, b, d)) []) l1) l0 = []).
    now rewrite IH, Hin.
Qed.

Lemma product3_not_nil {A B D} (l0 : list A) (l1 : list B) (l2 : list D) :
  l0 <> [] -> l1 <> [] -> l2 <> [] -> product3 l0 l1 l2 <> [].
Proof. destruct l0, l1, l2; done. Qed.

(** ** The modal room model *)

Lemma modal_basis_Some trig deltan i L x0 Li ai coord mm :
  L !! i = Some Li -> x0 !! i = Some ai ->
  modal_basis trig deltan i L x0 coord mm
  = Some (map (basis_entry trig deltan Li ai coord) mm).
Proof.
  intros HL Hx. unfold modal_basis.
  rewrite (mapM_total _ (fun m => k_mode m Li)) by (intros m; now rewrite HL).
  simpl. rewrite (mapM_total _ (fun kx =>
    (Csqr (Cadd (RtoC kx) (Cmul Ci (RtoC deltan))),
     amap (fun v => trig (kx * v) * cos (kx * ai)) coord)))
    by (intros kx; now rewrite Hx).
  now rewrite map_map.
Qed.

Lemma velocity_coefficient (z d w : C) :
  Csub z (Cmul (Cdiv (Cmul (RtoC 8) Ci) d) w)
  = Cadd z (Cmul (Cdiv (Cmul (RtoC (- 8)) Ci) d) w).
Proof. cplx. unfold Rdiv. f_equal; ring. Qed.

(** The scalar division succeeds exactly for a non-zero divisor. *)
Lemma py_div_Some (z w : C) : w <> C0 -> py_div z w = Some (Cdiv z w).
Proof. intros H. unfold py_div. now destruct (decide (w = C0)). Qed.

Lemma py_div_None (z w : C) : w = C0 -> py_div z w = None.
Proof. intros H. unfold py_div. now destruct (decide (w = C0)). Qed.

(** A loop fails as soon as one of its iterations fails on every
    accumulator. *)
Lemma foldlM_fails {A B} (f : A -> B -> option A) (x : B) (l : list B) (a : A) :
  (forall a', f a' x = None) -> In x l -> foldlM f a l = None.
Proof.
  intros Hx. revert a. induction l as [|y l IH]; intros a Hin; [done|].
  cbn [foldlM]. destruct Hin as [-> | Hin].
  - now rewrite Hx.
  - destruct (f a y) as [a'|]; [|done]. cbn [mbind option_bind]. now apply IH.
Qed.

Lemma no_singular_term_cons k deltan L0 L1 L2 t ts :
  no_singular_term k deltan L0 L1 L2 (t :: ts) ->
  term_denominator k deltan L0 L1 L2 t <> C0 /\
  no_singular_term k deltan L0 L1 L2 ts.
Proof.
  intros H. split; [apply H; now left|]. intros t' Ht'. apply H. now right.
Qed.

Section ModalSeries.

Variables (x y z : ndarray R) (sxy g : list nat).
Hypothesis Hxy : broadcast_shapes (shape x) (shape y) = Some sxy.
Hypothesis Hxyz : broadcast_shapes sxy (shape z) = Some g.
Variables (k deltan L0 L1 L2 a0 a1 a2 : R).

Local Abbreviation entries trig :=
  (mode_entries trig deltan L0 L1 L2 a0 a1 a2 x y z).

(** The loop of [point_modal]: without a singular term it does not fail
    on a broadcast-compatible grid, and the accumulator read at any index
    is the running sum of the series terms at that index. *)
Lemma point_modal_loop (ts : list (Z * Z * Z)) (acc : ndarray C) :
  broadcast_shapes (shape acc) g = Some g ->
  no_singular_term k deltan L0 L1 L2 ts ->
  exists p,
    foldlM (point_modal_step (k * k)) acc (map (entries cos) ts) = Some p /\
    shape p = (if ts is [] then shape acc else g) /\
    forall idx,
      bget p idx
      = foldl (fun s t => Cadd s (pressure_term k deltan L0 L1 L2 a0 a1 a2
                                    (bget x idx) (bget y idx) (bget z idx) t))
              (bget acc idx) ts.
Proof.
  revert acc. induction ts as [|[[m n] l] ts IH]; intros acc Hacc Hns.
  - exists acc. done.
  - apply no_singular_term_cons in Hns as [Hd Hns].
    cbn [map foldlM mode_entries basis_entry point_modal_step].
    rewrite py_div_Some by exact Hd. cbn [mbind option_bind].
    unfold mulCR.
    destruct (bop_ok (fun u v => Cmul u (RtoC v))
                (amap (fun v => Cmul
                   (Cdiv (RtoC 8) (Csub (RtoC (k * k))
                      (Cadd (Cadd (Csqr (Cadd (RtoC (k_mode m L0)) (Cmul Ci (RtoC deltan))))
                                  (Csqr (Cadd (RtoC (k_mode n L1)) (Cmul Ci (RtoC deltan)))))
                            (Csqr (Cadd (RtoC (k_mode l L2)) (Cmul Ci (RtoC deltan)))))))
                   (RtoC v))
                   (amap (fun v => cos (k_mode m L0 * v) * cos (k_mode m L0 * a0)) x))
                (amap (fun v => cos (k_mode n L1 * v) * cos (k_mode n L1 * a1)) y)
                sxy Hxy) as (t1 & -> & Hs1 & Hb1).
    cbn [mbind option_bind].
    destruct (bop_ok (fun u v => Cmul u (RtoC v)) t1
                (amap (fun v => cos (k_mode l L2 * v) * cos (k_mode l L2 * a2)) z)
                g) as (t2 & -> & Hs2 & Hb2).
    { now rewrite Hs1. }
    cbn [mbind option_bind].
    destruct (bop_ok Cadd acc t2 g) as (p1 & -> & Hs3 & Hb3).
    { now rewrite Hs2. }
    cbn [mbind option_bind].
    destruct (IH p1) as (p & Hp & Hsp & Hbp).
    { rewrite Hs3. apply broadcast_shapes_refl. }
    { exact Hns. }
    exists p. split; [done|]. split.
    { rewrite Hsp. destruct ts; [done|done]. }
    intros idx. rewrite Hbp. cbn [foldl]. f_equal.
    rewrite Hb3, Hb2, Hb1. now rewrite !bget_amap.
Qed.

(** The loop of [point_modal_velocity]: each running sum involves the
    array of its own axis only, so without a singular term it does not
    fail. *)
Lemma point_modal_velocity_loop (ts : list (Z * Z * Z)) (vx vy vz : ndarray C) :
  broadcast_shapes (shape vx) (shape x) = Some (shape x) ->
  broadcast_shapes (shape vy) (shape y) = Some (shape y) ->
  broadcast_shapes (shape vz) (shape z) = Some (shape z) ->
  no_singular_term k deltan L0 L1 L2 ts ->
  exists vx' vy' vz',
    foldlM (point_modal_velocity_step (k * k)) (vx, vy, vz) (map (entries sin) ts)
    = Some (vx', vy', vz') /\
    (shape vx' = (if ts is [] then shape vx else shape x) /\
     shape vy' = (if ts is [] then shape vy else shape y) /\
     shape vz' = (if ts is [] then shape vz else shape z)) /\
    forall idx,
      bget vx' idx
      = foldl (fun s t => Cadd s (velocity_term k deltan L0 L1 L2 0 a0 (bget x idx) t))
              (bget vx idx) ts /\
      bget vy' idx
      = foldl (fun s t => Cadd s (velocity_term k deltan L0 L1 L2 1 a1 (bget y idx) t))
              (bget vy idx) ts /\
      bget vz' idx
      = foldl (fun s t => Cadd s (velocity_term k deltan L0 L1 L2 2 a2 (bget z idx) t))
              (bget vz idx) ts.
Proof.
  revert vx vy vz. induction ts as [|[[m n] l] ts IH]; intros vx vy vz Hx Hy Hz Hns.
  - exists vx, vy, vz. done.
  - apply no_singular_term_cons in Hns as [Hd Hns].
    cbn [map foldlM mode_entries basis_entry point_modal_velocity_step].
    rewrite !py_div_Some by exact Hd. cbn [mbind option_bind].
    match goal with |- context [bop Csub vx ?t] =>
      destruct (bop_ok Csub vx t (shape x) Hx) as (wx & -> & Hsx & Hbx) end.
    cbn [mbind option_bind].
    match goal with |- context [bop Csub vy ?t] =>
      destruct (bop_ok Csub vy t (shape y) Hy) as (wy & -> & Hsy & Hby) end.
    cbn [mbind option_bind].
    match goal with |- context [bop Csub vz ?t] =>
      destruct (bop_ok Csub vz t (shape z) Hz) as (wz & -> & Hsz & Hbz) end.
    cbn [mbind option_bind].
    destruct (IH wx wy wz) as (vx' & vy' & vz' & Hf & (Hx' & Hy' & Hz') & Hb).
    { rewrite Hsx. apply broadcast_shapes_refl. }
    { rewrite Hsy. apply broadcast_shapes_refl. }
    { rewrite Hsz. apply broadcast_shapes_refl. }
    { exact Hns. }
    exists vx', vy', vz'. split; [done|]. split.
    { rewrite Hx', Hy', Hz'. destruct ts; done. }
    intros idx. destruct (Hb idx) as (-> & -> & ->). cbn [foldl].
    rewrite Hbx, Hby, Hbz, !bget_amap.
    unfold velocity_term, k_axis, km_sum. now rewrite !velocity_coefficient.
Qed.

(** Both loops fail at a singular term: its coefficient cannot be
    computed. *)
Lemma point_modal_loop_singular (ts : list (Z * Z * Z)) (acc : ndarray C) t :
  In t ts -> term_denominator k deltan L0 L1 L2 t = C0 ->
  foldlM (point_modal_step (k * k)) acc (map (entries cos) ts) = None.
Proof.
  intros Hin Hd. apply (foldlM_fails _ (entries cos t)); [|now apply in_map].
  intros acc'. destruct t as [[m n] l].
  cbn [mode_entries basis_entry point_modal_step].
  now rewrite py_div_None by exact Hd.
Qed.

Lemma point_modal_velocity_loop_singular (ts : list (Z * Z * Z))
    (v : ndarray C * ndarray C * ndarray C) t :
  In t ts -> term_denominator k deltan L0 L1 L2 t = C0 ->
  foldlM (point_modal_velocity_step (k * k)) v (map (entries sin) ts) = None.
Proof.
  intros Hin Hd. apply (foldlM_fails _ (entries sin t)); [|now apply in_map].
  intros [[vx vy] vz]. destruct t as [[m n] l].
  cbn [mode_entries basis_entry point_modal_velocity_step].
  now rewrite py_div_None by exact Hd.
Qed.

End ModalSeries.

(** [point_modal] on a three-component grid, once the mode ranges are
    known: the loop over the product of the three basis lists. *)
Lemma point_modal_unfold omega a0 a1 a2 n0 x y z L0 L1 L2 N deltan c mm nn ll :
  mode_ranges (wavenumber omega c) [L0; L1; L2] N = Some (mm, nn, ll) ->
  point_modal omega [a0; a1; a2] n0 [x; y; z] [L0; L1; L2] N deltan c
  = foldlM (point_modal_step (wavenumber omega c * wavenumber omega c)) (scalar C0)
      (map (mode_entries cos deltan L0 L1 L2 a0 a1 a2 x y z) (product3 mm nn ll)).
Proof.
  intros HN. unfold point_modal, XyzComponents, asarray_1d. rewrite HN.
  cbn [mbind option_bind].
  rewrite (modal_basis_Some cos deltan 0 _ _ L0 a0) by done.
  rewrite (modal_basis_Some cos deltan 1 _ _ L1 a1) by done.
  rewrite (modal_basis_Some cos deltan 2 _ _ L2 a2) by done.
  cbn [mbind option_bind]. now rewrite product3_map.
Qed.

Lemma point_modal_velocity_unfold omega a0 a1 a2 n0 x y z L0 L1 L2 N deltan c mm nn ll :
  mode_ranges (wavenumber omega c) [L0; L1; L2] N = Some (mm, nn, ll) ->
  point_modal_velocity omega [a0; a1; a2] n0 [x; y; z] [L0; L1; L2] N deltan c
  = '(vx, vy, vz) ← foldlM
        (point_modal_velocity_step (wavenumber omega c * wavenumber omega c))
        (scalar C0, scalar C0, scalar C0)
        (map (mode_entries sin deltan L0 L1 L2 a0 a1 a2 x y z) (product3 mm nn ll));
    Some [vx; vy; vz].
Proof.
  intros HN. unfold point_modal_velocity, XyzComponents, asarray_1d. rewrite HN.
  cbn [mbind option_bind].
  rewrite (modal_basis_Some sin deltan 0 _ _ L0 a0) by done.
  rewrite (modal_basis_Some sin deltan 1 _ _ L1 a1) by done.
  rewrite (modal_basis_Some sin deltan 2 _ _ L2 a2) by done.
  cbn [mbind option_bind]. now rewrite product3_map.
Qed.

(** With rigid walls the divisor is the real [k² − (k_mx² + k_my² + k_mz²)]:
    a term is singular exactly at a resonance. *)
Lemma term_denominator_rigid k L0 L1 L2 t :
  term_denominator k 0 L0 L1 L2 t = RtoC (k * k - mode_eigenvalue L0 L1 L2 t).
Proof.
  destruct t as [[m n] l]. unfold term_denominator, km_sum, mode_eigenvalue.
  cplx. f_equal; ring.
Qed.

Lemma no_resonance_no_singular_term k L0 L1 L2 ts :
  no_resonance k L0 L1 L2 ts -> no_singular_term k 0 L0 L1 L2 ts.
Proof.
  intros H t Ht. rewrite term_denominator_rigid. intros [= Hz].
  apply (H t Ht). lra.
Qed.

(** With absorbing walls ([deltan] non-zero) in a room of positive
    dimensions, no term with non-negative mode indices is singular: the
    imaginary part [−2·deltan·(k_mx + k_my + k_mz)] of the divisor vanishes
    for the mode (0, 0, 0) only, where the real part is [k² + 3·deltan²]. *)
Lemma absorbing_walls_no_singular_term k deltan L0 L1 L2 ts :
  deltan <> 0 -> 0 < L0 -> 0 < L1 -> 0 < L2 ->
  (forall m n l, In (m, n, l) ts -> (0 <= m)%Z /\ (0 <= n)%Z /\ (0 <= l)%Z) ->
  no_singular_term k deltan L0 L1 L2 ts.
Proof.
  intros Hd H0 H1 H2 Hpos [[m n] l] Ht.
  destruct (Hpos m n l Ht) as (Hm & Hn & Hl).
  assert (Hk : forall (i : Z) (Li : R), (0 <= i)%Z -> 0 < Li -> 0 <= k_mode i Li).
  { intros i Li Hi HLi. unfold k_mode. apply IZR_le in Hi.
    pose proof PI_RGT_0. apply Rmult_le_pos; [nra|].
    left. now apply Rinv_0_lt_compat. }
  pose proof (Hk m L0 Hm H0) as Hx. pose proof (Hk n L1 Hn H1) as Hy.
  pose proof (Hk l L2 Hl H2) as Hz.
  unfold term_denominator, km_sum.
  generalize dependent (k_mode m L0). generalize dependent (k_mode n L1).
  generalize dependent (k_mode l L2). intros kz Hz ky Hy kx Hx.
  cplx. intros [= Hre Him].
  assert (Hs : deltan * (kx + ky + kz) = 0) by lra.
  apply Rmult_integral in Hs as [Hs | Hs]; [done|].
  assert (kx = 0) by lra. assert (ky = 0) by lra. assert (kz = 0) by lra.
  subst. nra.
Qed.

Lemma In_product3 {A B D} (l0 : list A) (l1 : list B) (l2 : list D) a b d :
  In (a, b, d) (product3 l0 l1 l2) <-> In a l0 /\ In b l1 /\ In d l2.
Proof.
  unfold product3. rewrite in_flat_map. split.
  - intros (a' & Ha & H). apply in_flat_map in H as (b' & Hb & H).
    apply in_map_iff in H as (d' & [= -> -> ->] & Hd'). done.
  - intros (Ha & Hb & Hd'). exists a. split; [done|].
    apply in_flat_map. exists b. split; [done|]. apply in_map_iff. now exists d.
Qed.

(** What [point_modal] returns on a broadcast-compatible grid when no
    term of the series is singular. *)
Lemma point_modal_result
    omega a0 a1 a2 n0 x y z L0 L1 L2 N deltan c g mm nn ll :
  np_broadcast_shape [shape x; shape y; shape z] = Some g ->
  mode_ranges (wavenumber omega c) [L0; L1; L2] N = Some (mm, nn, ll) ->
  no_singular_term (omega / sound_speed c) deltan L0 L1 L2 (product3 mm nn ll) ->
  exists p,
    point_modal omega [a0; a1; a2] n0 [x; y; z] [L0; L1; L2] N deltan c = Some p /\
    shape p = (if product3 mm nn ll is [] then [] else g) /\
    forall idx,
      bget p idx
      = Csum (map (pressure_term (omega / sound_speed c) deltan L0 L1 L2 a0 a1 a2
                     (bget x idx) (bget y idx) (bget z idx))
                  (product3 mm nn ll)).
Proof.
  intros (sxy & Hxy & Hxyz)%np_broadcast_shape_3 HN Hns.
  rewrite (point_modal_unfold _ _ _ _ _ _ _ _ _ _ _ _ _ _ _ _ _ HN).
  destruct (point_modal_loop x y z sxy g Hxy Hxyz (wavenumber omega c) deltan
              L0 L1 L2 a0 a1 a2 (product3 mm nn ll) (scalar C0))
    as (p & Hp & Hs & Hb).
  { apply broadcast_shapes_nil_l. }
  { exact Hns. }
  exists p. split; [done|]. split; [exact Hs|]. intros idx.
  rewrite Hb, foldl_Cadd_Csum, bget_scalar, Cadd_0_l. done.
Qed.

(** At a singular term [point_modal] and [point_modal_velocity] raise:
    the coefficient [8 / (ksquared - km)] is a division by zero. *)
Lemma point_modal_singular
    omega a0 a1 a2 n0 x y z L0 L1 L2 N deltan c mm nn ll t :
  mode_ranges (wavenumber omega c) [L0; L1; L2] N = Some (mm, nn, ll) ->
  In t (product3 mm nn ll) ->
  term_denominator (omega / sound_speed c) deltan L0 L1 L2 t = C0 ->
  point_modal omega [a0; a1; a2] n0 [x; y; z] [L0; L1; L2] N deltan c = None /\
  point_modal_velocity omega [a0; a1; a2] n0 [x; y; z] [L0; L1; L2] N deltan c = None.
Proof.
  intros HN Ht Hd.
  rewrite (point_modal_unfold _ _ _ _ _ _ _ _ _ _ _ _ _ _ _ _ _ HN).
  rewrite (point_modal_velocity_unfold _ _ _ _ _ _ _ _ _ _ _ _ _ _ _ _ _ HN).
  rewrite (point_modal_loop_singular x y z (wavenumber omega c) deltan L0 L1 L2
             a0 a1 a2 _ _ t Ht Hd).
  now rewrite (point_modal_velocity_loop_singular x y z (wavenumber omega c) deltan
                 L0 L1 L2 a0 a1 a2 _ _ t Ht Hd).
Qed.

(** C1, as amended. On a broadcast-compatible grid, in a room of non-zero
    dimensions, with a non-empty mode range on every axis and no singular
    term ([k²] differs from [(k_mx + j·deltan)² + (k_my + j·deltan)² +
    (k_mz + j·deltan)²] for every mode triple of the sum), [point_modal]
    returns an array of the grid's broadcast shape whose element at every
    grid point is the sum, over the Cartesian product of the three
    mode-index ranges, of
    [8 / (k² − ((k_mx + j·deltan)² + (k_my + j·deltan)² + (k_mz + j·deltan)²))
     · p_x·p_y·p_z] with [k_mi = m·π/L_i],
    [p_i = cos(k_mi·coord_i)·cos(k_mi·x0_i)] and the real, unshifted
    [k² = (omega/c)²]. *)
Theorem point_modal_is_mode_sum
    omega a0 a1 a2 n0 x y z L0 L1 L2 N deltan c g mm nn ll :
  np_broadcast_shape [shape x; shape y; shape z] = Some g ->
  L0 <> 0 -> L1 <> 0 -> L2 <> 0 ->
  mode_ranges (wavenumber omega c) [L0; L1; L2] N = Some (mm, nn, ll) ->
  mm <> [] -> nn <> [] -> ll <> [] ->
  no_singular_term (omega / sound_speed c) deltan L0 L1 L2 (product3 mm nn ll) ->
  exists p,
    point_modal omega [a0; a1; a2] n0 [x; y; z] [L0; L1; L2] N deltan c = Some p /\
    shape p = g /\
    forall idx, in_bounds g idx ->
      item p idx
      = Csum (map (pressure_term (omega / sound_speed c) deltan L0 L1 L2 a0 a1 a2
                     (bget x idx) (bget y idx) (bget z idx))
                  (product3 mm nn ll)).
Proof.
  intros Hg _ _ _ HN Hm Hn Hl Hns.
  destruct (point_modal_result omega a0 a1 a2 n0 x y z L0 L1 L2 N deltan c g
              mm nn ll Hg HN Hns) as (p & Hp & Hs & Hb).
  assert (Hsg : shape p = g).
  { rewrite Hs. pose proof (product3_not_nil mm nn ll Hm Hn Hl).
    now destruct (product3 mm nn ll). }
  exists p. split; [done|]. split; [done|]. intros idx Hidx.
  rewrite <- bget_in_bounds by now rewrite Hsg. apply Hb.
Qed.

(** What [point_modal_velocity] returns on any three-component grid when
    no term of the series is singular. *)
Lemma point_modal_velocity_result
    omega a0 a1 a2 n0 x y z L0 L1 L2 N deltan c mm nn ll :
  mode_ranges (wavenumber omega c) [L0; L1; L2] N = Some (mm, nn, ll) ->
  no_singular_term (omega / sound_speed c) deltan L0 L1 L2 (product3 mm nn ll) ->
  exists vx vy vz,
    point_modal_velocity omega [a0; a1; a2] n0 [x; y; z] [L0; L1; L2] N deltan c
    = Some [vx; vy; vz] /\
    (shape vx = (if product3 mm nn ll is [] then [] else shape x) /\
     shape vy = (if product3 mm nn ll is [] then [] else shape y) /\
     shape vz = (if product3 mm nn ll is [] then [] else shape z)) /\
    forall idx,
      bget vx idx = Csum (map (velocity_term (omega / sound_speed c) deltan L0 L1 L2
                                 0 a0 (bget x idx)) (product3 mm nn ll)) /\
      bget vy idx = Csum (map (velocity_term (omega / sound_speed c) deltan L0 L1 L2
                                 1 a1 (bget y idx)) (product3 mm nn ll)) /\
      bget vz idx = Csum (map (velocity_term (omega / sound_speed c) deltan L0 L1 L2
                                 2 a2 (bget z idx)) (product3 mm nn ll)).
Proof.
  intros HN Hns.
  rewrite (point_modal_velocity_unfold _ _ _ _ _ _ _ _ _ _ _ _ _ _ _ _ _ HN).
  destruct (point_modal_velocity_loop x y z (wavenumber omega c) deltan
              L0 L1 L2 a0 a1 a2 (product3 mm nn ll) (scalar C0) (scalar C0) (scalar C0))
    as (vx & vy & vz & Hv & Hs & Hb); try apply broadcast_shapes_nil_l.
  { exact Hns. }
  exists vx, vy, vz. rewrite Hv. split; [done|]. split; [exact Hs|].
  intros idx. destruct (Hb idx) as (-> & -> & ->).
  rewrite !foldl_Cadd_Csum, !bget_scalar, !Cadd_0_l. done.
Qed.

(** C2, as amended. In a room of non-zero dimensions and with no singular
    term ([k²] differs from [(k_mx + j·deltan)² + (k_my + j·deltan)² +
    (k_mz + j·deltan)²] for every mode triple of the sum),
    [point_modal_velocity] returns three components; the component of an
    axis has the shape of that axis's own grid component (and is a scalar
    when the product of the mode ranges is empty), and every element of it
    is the sum over the same Cartesian product of mode triples of
    [−8j / (k² − ((k_mx + j·deltan)² + (k_my + j·deltan)² +
    (k_mz + j·deltan)²))] times the basis [sin(k_mi·coord_i)·cos(k_mi·x0_i)]
    of the component's own axis only: the bases of the two other axes do
    not enter the term. *)
Theorem point_modal_velocity_is_axis_sum
    omega a0 a1 a2 n0 x y z L0 L1 L2 N deltan c mm nn ll :
  L0 <> 0 -> L1 <> 0 -> L2 <> 0 ->
  mode_ranges (wavenumber omega c) [L0; L1; L2] N = Some (mm, nn, ll) ->
  no_singular_term (omega / sound_speed c) deltan L0 L1 L2 (product3 mm nn ll) ->
  exists vx vy vz,
    point_modal_velocity omega [a0; a1; a2] n0 [x; y; z] [L0; L1; L2] N deltan c
    = Some [vx; vy; vz] /\
    (shape vx = (if product3 mm nn ll is [] then [] else shape x) /\
     shape vy = (if product3 mm nn ll is [] then [] else shape y) /\
     shape vz = (if product3 mm nn ll is [] then [] else shape z)) /\
    (forall idx, in_bounds (shape vx) idx ->
       item vx idx = Csum (map (velocity_term (omega / sound_speed c) deltan L0 L1 L2
                                  0 a0 (bget x idx)) (product3 mm nn ll))) /\
    (forall idx, in_bounds (shape vy) idx ->
       item vy idx = Csum (map (velocity_term (omega / sound_speed c) deltan L0 L1 L2
                                  1 a1 (bget y idx)) (product3 mm nn ll))) /\
    (forall idx, in_bounds (shape vz) idx ->
       item vz idx = Csum (map (velocity_term (omega / sound_speed c) deltan L0 L1 L2
                                  2 a2 (bget z idx)) (product3 mm nn ll))).
Proof.
  intros _ _ _ HN Hns.
  destruct (point_modal_velocity_result omega a0 a1 a2 n0 x y z L0 L1 L2 N deltan c
              mm nn ll HN Hns) as (vx & vy & vz & Hv & Hs & Hb).
  exists vx, vy, vz. split; [done|]. split; [exact Hs|].
  repeat split; intros idx Hidx; rewrite <- bget_in_bounds by done; apply Hb.
Qed.

(** [ceil] is the least integer not below its argument. *)
Lemma ceil_spec (x : R) : IZR (ceil x) - 1 < x <= IZR (ceil x).
Proof.
  unfold ceil. destruct (archimed (- x)) as [H1 H2].
  rewrite minus_IZR. simpl. lra.
Qed.

(** [range n] holds the integers from 0 up to [n], [n] excluded. *)
Lemma In_range (n m : Z) : In m (range n) <-> (0 <= m < n)%Z.
Proof.
  unfold range. rewrite in_map_iff. split.
  - intros (i & <- & Hi%in_seq). lia.
  - intros H. exists (Z.to_nat m). split; [lia|]. apply in_seq. lia.
Qed.

Lemma foldlM_singleton {A B} (f : A -> B -> option A) (a : A) (x : B) :
  foldlM f a [x] = f a x.
Proof. simpl. now destruct (f a x). Qed.

(** C3. In both [point_modal] and [point_modal_velocity] the loop runs
    over the product of per-axis mode-index ranges chosen from [N]: with
    [N] not given, axis [i] has the indices [0 .. ceil(L_i/π·k) − 1]; with
    a scalar [N], every axis has [0 .. N − 1] ([N] is an exclusive upper
    bound); with a length-3 sequence [N], the single triple
    [(N[0], N[1], N[2])] is used, and the result is one evaluation of the
    loop body from the zero accumulator, with no summation. *)
Theorem mode_index_selection omega a0 a1 a2 n0 x y z L0 L1 L2 deltan c :
  let k := omega / sound_speed c in
  let run := loops_over_modes omega [a0; a1; a2] n0 x y z L0 L1 L2 in
  run None deltan c
      (range (ceil (L0 / PI * k))) (range (ceil (L1 / PI * k)))
      (range (ceil (L2 / PI * k))) /\
  (forall n : Z, run (Some (NScalar n)) deltan c (range n) (range n) (range n)) /\
  (forall n m : Z, In m (range n) <-> (0 <= m < n)%Z) /\
  (forall m n l : Z,
     run (Some (NSeq [m; n; l])) deltan c [m] [n] [l] /\
     point_modal omega [a0; a1; a2] n0 [x; y; z] [L0; L1; L2]
       (Some (NSeq [m; n; l])) deltan c
     = point_modal_step (k * k) (scalar C0)
         (mode_entries cos deltan L0 L1 L2 a0 a1 a2 x y z (m, n, l)) /\
     point_modal_velocity omega [a0; a1; a2] n0 [x; y; z] [L0; L1; L2]
       (Some (NSeq [m; n; l])) deltan c
     = '(vx, vy, vz) ← point_modal_velocity_step (k * k)
           (scalar C0, scalar C0, scalar C0)
           (mode_entries sin deltan L0 L1 L2 a0 a1 a2 x y z (m, n, l));
       Some [vx; vy; vz]).
Proof.
  intros k run.
  assert (Hrun : forall N mm nn ll,
    mode_ranges (wavenumber omega c) [L0; L1; L2] N = Some (mm, nn, ll) ->
    run N deltan c mm nn ll).
  { intros N mm nn ll HN. split.
    - now apply point_modal_unfold.
    - now apply point_modal_velocity_unfold. }
  split; [now apply Hrun|]. split; [intros n; now apply Hrun|].
  split; [apply In_range|]. intros m n l.
  assert (HN : mode_ranges (wavenumber omega c) [L0; L1; L2] (Some (NSeq [m; n; l]))
               = Some ([m], [n], [l])) by done.
  split; [now apply Hrun|]. split.
  - rewrite (point_modal_unfold _ _ _ _ _ _ _ _ _ _ _ _ _ _ _ _ _ HN).
    apply foldlM_singleton.
  - rewrite (point_modal_velocity_unfold _ _ _ _ _ _ _ _ _ _ _ _ _ _ _ _ _ HN).
    change (product3 [m] [n] [l]) with [(m, n, l)].
    cbn [map]. now rewrite foldlM_singleton.
Qed.

(** With an empty mode range on some axis the loops do not run. *)
Lemma empty_product_results omega a0 a1 a2 n0 x y z L0 L1 L2 N deltan c mm nn ll :
  mode_ranges (wavenumber omega c) [L0; L1; L2] N = Some (mm, nn, ll) ->
  mm = [] \/ nn = [] \/ ll = [] ->
  point_modal omega [a0; a1; a2] n0 [x; y; z] [L0; L1; L2] N deltan c
  = Some (scalar C0) /\
  point_modal_velocity omega [a0; a1; a2] n0 [x; y; z] [L0; L1; L2] N deltan c
  = Some [scalar C0; scalar C0; scalar C0].
Proof.
  intros HN Hempty.
  rewrite (point_modal_unfold _ _ _ _ _ _ _ _ _ _ _ _ _ _ _ _ _ HN).
  rewrite (point_modal_velocity_unfold _ _ _ _ _ _ _ _ _ _ _ _ _ _ _ _ _ HN).
  now rewrite (product3_nil mm nn ll Hempty).
Qed.

(** C9. When the mode range of some axis is empty (scalar [N = 0], or
    [N] not given and [ceil(L_i/π·k) = 0] for some axis), [point_modal]
    returns the scalar zero it started from, which is not an array of the
    grid's broadcast shape, and [point_modal_velocity] returns three scalar
    complex zeros; neither raises an error. *)
Theorem empty_mode_range_gives_scalar_zero
    omega a0 a1 a2 n0 x y z L0 L1 L2 deltan c :
  let k := omega / sound_speed c in
  let zero_results N :=
    point_modal omega [a0; a1; a2] n0 [x; y; z] [L0; L1; L2] N deltan c
    = Some (scalar C0) /\
    point_modal_velocity omega [a0; a1; a2] n0 [x; y; z] [L0; L1; L2] N deltan c
    = Some [scalar C0; scalar C0; scalar C0] in
  zero_results (Some (NScalar 0)) /\
  (ceil (L0 / PI * k) = 0%Z \/ ceil (L1 / PI * k) = 0%Z \/ ceil (L2 / PI * k) = 0%Z ->
   zero_results None) /\
  shape (scalar C0) = [] /\
  (forall g, np_broadcast_shape [shape x; shape y; shape z] = Some g -> g <> [] ->
             shape (scalar C0) <> g).
Proof.
  intros k zero_results. split; [|split; [|split]].
  - now apply (empty_product_results omega a0 a1 a2 n0 x y z L0 L1 L2
             (Some (NScalar 0)) deltan c [] [] []); [|left].
  - intros H.
    apply (empty_product_results omega a0 a1 a2 n0 x y z L0 L1 L2 None deltan c
             (range (ceil (L0 / PI * k))) (range (ceil (L1 / PI * k)))
             (range (ceil (L2 / PI * k)))); [done|].
    destruct H as [-> | [-> | ->]]; auto.
  - done.
  - intros g _ Hg. simpl. congruence.
Qed.

Lemma RtoC_add (a b : R) : Cadd (RtoC a) (RtoC b) = RtoC (a + b).
Proof. cplx. f_equal; ring. Qed.

Lemma RtoC_sub (a b : R) : Csub (RtoC a) (RtoC b) = RtoC (a - b).
Proof. cplx. f_equal; ring. Qed.

Lemma RtoC_mul (a b : R) : Cmul (RtoC a) (RtoC b) = RtoC (a * b).
Proof. cplx. f_equal; ring. Qed.

Lemma RtoC_div (a b : R) : b <> 0 -> Cdiv (RtoC a) (RtoC b) = RtoC (a / b).
Proof. intros H. cplx. f_equal; field; nra. Qed.

Lemma Csqr_unshifted (kx : R) :
  Csqr (Cadd (RtoC kx) (Cmul Ci (RtoC 0))) = RtoC (kx * kx).
Proof. cplx. f_equal; ring. Qed.

Lemma pressure_term_rigid k L0 L1 L2 a0 a1 a2 xv yv zv t :
  k * k <> mode_eigenvalue L0 L1 L2 t ->
  pressure_term k 0 L0 L1 L2 a0 a1 a2 xv yv zv t
  = RtoC (pressure_term_real k L0 L1 L2 a0 a1 a2 xv yv zv t).
Proof.
  destruct t as [[m n] l].
  unfold pressure_term, pressure_term_real, mode_eigenvalue, km_sum.
  intros H. rewrite !Csqr_unshifted, !RtoC_add, RtoC_sub.
  rewrite RtoC_div by lra. now rewrite !RtoC_mul.
Qed.

Lemma Csum_real (f : Z * Z * Z -> C) (h : Z * Z * Z -> R) (ts : list (Z * Z * Z)) :
  (forall t, In t ts -> f t = RtoC (h t)) ->
  Csum (map f ts) = RtoC (Rsum (map h ts)).
Proof.
  induction ts as [|t ts IH]; intros H; [done|].
  cbn [map Csum Rsum foldr]. rewrite (H t) by now left.
  fold (Csum (map f ts)). fold (Rsum (map h ts)).
  rewrite IH by (intros; apply H; now right). apply RtoC_add.
Qed.

(** C10. With [deltan = 0], real inputs, a room of non-zero dimensions and
    no exact modal resonance ([k²] differs from [k_mx² + k_my² + k_mz²]
    for every mode triple of the sum), [point_modal] on a
    broadcast-compatible grid returns a real-valued field: an array of the
    grid's broadcast shape (the scalar zero when the product of the mode
    ranges is empty) of which every element is the real series
    [Σ 8/(k² − (k_mx² + k_my² + k_mz²))·p_x·p_y·p_z] at its grid point, with
    imaginary part exactly zero. *)
Theorem point_modal_real_for_rigid_walls
    omega a0 a1 a2 n0 x y z L0 L1 L2 N c g mm nn ll :
  np_broadcast_shape [shape x; shape y; shape z] = Some g ->
  L0 <> 0 -> L1 <> 0 -> L2 <> 0 ->
  mode_ranges (wavenumber omega c) [L0; L1; L2] N = Some (mm, nn, ll) ->
  no_resonance (omega / sound_speed c) L0 L1 L2 (product3 mm nn ll) ->
  exists p,
    point_modal omega [a0; a1; a2] n0 [x; y; z] [L0; L1; L2] N 0 c = Some p /\
    shape p = (if product3 mm nn ll is [] then [] else g) /\
    forall idx, in_bounds (shape p) idx ->
      Im (item p idx) = 0 /\
      item p idx
      = RtoC (Rsum (map (pressure_term_real (omega / sound_speed c) L0 L1 L2 a0 a1 a2
                           (bget x idx) (bget y idx) (bget z idx))
                        (product3 mm nn ll))).
Proof.
  intros Hg _ _ _ HN Hres.
  destruct (point_modal_result omega a0 a1 a2 n0 x y z L0 L1 L2 N 0 c g
              mm nn ll Hg HN (no_resonance_no_singular_term _ _ _ _ _ Hres))
    as (p & Hp & Hs & Hb).
  exists p. split; [done|]. split; [exact Hs|]. intros idx Hidx.
  assert (Hitem : item p idx
      = RtoC (Rsum (map (pressure_term_real (omega / sound_speed c) L0 L1 L2 a0 a1 a2
                           (bget x idx) (bget y idx) (bget z idx))
                        (product3 mm nn ll)))).
  { rewrite <- bget_in_bounds by done. rewrite Hb.
    apply Csum_real. intros t Ht. apply pressure_term_rigid. now apply Hres. }
  split; [|done]. now rewrite Hitem.
Qed.

(** ** Grid helpers on three components *)

Lemma xyz_sub_3 (x y z : ndarray R) (a0 a1 a2 : R) :
  xyz_sub [x; y; z] [a0; a1; a2]
  = Some [amap (fun v => v - a0) x; amap (fun v => v - a1) y; amap (fun v => v - a2) z].
Proof. done. Qed.

Lemma xyz_sub_2 (x y : ndarray R) (a0 a1 : R) :
  xyz_sub [x; y] [a0; a1]
  = Some [amap (fun v => v - a0) x; amap (fun v => v - a1) y].
Proof. done. Qed.

Lemma sum_arrays_3 (u v w : ndarray R) (suv g : list nat) :
  broadcast_shapes (shape u) (shape v) = Some suv ->
  broadcast_shapes suv (shape w) = Some g ->
  exists s, sum_arrays [u; v; w] = Some s /\ shape s = g /\
            forall idx, bget s idx = bget u idx + bget v idx + bget w idx.
Proof.
  intros Huv Hw. cbn [sum_arrays foldlM].
  destruct (bop_ok Rplus u v suv Huv) as (s1 & -> & Hs1 & Hb1).
  cbn [mbind option_bind].
  destruct (bop_ok Rplus s1 w g) as (s2 & -> & Hs2 & Hb2); [now rewrite Hs1|].
  exists s2. split; [done|]. split; [done|].
  intros idx. now rewrite Hb2, Hb1.
Qed.

Lemma sum_arrays_2 (u v : ndarray R) (suv : list nat) :
  broadcast_shapes (shape u) (shape v) = Some suv ->
  exists s, sum_arrays [u; v] = Some s /\ shape s = suv /\
            (forall idx, item s idx = bget u idx + bget v idx) /\
            (forall idx, bget s idx = bget u idx + bget v idx).
Proof.
  intros Huv. cbn [sum_arrays foldlM].
  destruct (bop_ok_item Rplus u v suv Huv) as (s1 & -> & Hs1 & Hi1 & Hb1).
  exists s1. done.
Qed.

Lemma bop_self {A D} (f : A -> A -> D) (a : ndarray A) :
  exists r, bop f a a = Some r /\ shape r = shape a /\
            forall idx, bget r idx = f (bget a idx) (bget a idx).
Proof. apply bop_ok, broadcast_shapes_refl. Qed.

(** The norm of three components over a broadcast-compatible grid. *)
Lemma norm_3 (dx dy dz : ndarray R) (sxy g : list nat) :
  broadcast_shapes (shape dx) (shape dy) = Some sxy ->
  broadcast_shapes sxy (shape dz) = Some g ->
  exists r, norm [dx; dy; dz] = Some r /\ shape r = g /\
            forall idx, bget r idx
              = sqrt (bget dx idx * bget dx idx + bget dy idx * bget dy idx
                      + bget dz idx * bget dz idx).
Proof.
  intros Hxy Hz. unfold norm. cbn [mapM].
  destruct (bop_self Rmult dx) as (qx & -> & Hsx & Hbx).
  destruct (bop_self Rmult dy) as (qy & -> & Hsy & Hby).
  destruct (bop_self Rmult dz) as (qz & -> & Hsz & Hbz).
  cbn [mbind option_bind mret option_ret].
  destruct (sum_arrays_3 qx qy qz sxy g) as (s & -> & Hs & Hb).
  { now rewrite Hsx, Hsy. } { now rewrite Hsz. }
  cbn [mbind option_bind]. eexists. split; [done|]. split; [done|].
  intros idx. now rewrite bget_amap, Hb, Hbx, Hby, Hbz.
Qed.

Lemma norm_2 (dx dy : ndarray R) (sxy : list nat) :
  broadcast_shapes (shape dx) (shape dy) = Some sxy ->
  exists r, norm [dx; dy] = Some r /\ shape r = sxy /\
            (forall idx, item r idx
               = sqrt (bget dx idx * bget dx idx + bget dy idx * bget dy idx)) /\
            (forall idx, bget r idx
               = sqrt (bget dx idx * bget dx idx + bget dy idx * bget dy idx)).
Proof.
  intros Hxy. unfold norm. cbn [mapM].
  destruct (bop_self Rmult dx) as (qx & -> & Hsx & Hbx).
  destruct (bop_self Rmult dy) as (qy & -> & Hsy & Hby).
  cbn [mbind option_bind mret option_ret].
  destruct (sum_arrays_2 qx qy sxy) as (s & -> & Hs & Hi & Hb).
  { now rewrite Hsx, Hsy. }
  cbn [mbind option_bind]. eexists. split; [done|]. split; [done|]. split.
  - intros idx. cbn [amap item]. now rewrite Hi, Hbx, Hby.
  - intros idx. now rewrite bget_amap, Hb, Hbx, Hby.
Qed.

Lemma inner_2 (dx dy : ndarray R) (b0 b1 : R) (sxy : list nat) :
  broadcast_shapes (shape dx) (shape dy) = Some sxy ->
  exists r, inner [dx; dy] [b0; b1] = Some r /\ shape r = sxy /\
            forall idx, bget r idx = bget dx idx * b0 + bget dy idx * b1.
Proof.
  intros Hxy. unfold inner. cbn [length Nat.eqb zip_with].
  destruct (sum_arrays_2 (amap (fun v => v * b0) dx) (amap (fun v => v * b1) dy)
              sxy Hxy) as (s & -> & Hs & _ & Hb).
  exists s. split; [done|]. split; [done|]. intros idx. now rewrite Hb.
Qed.

Lemma inner_3 (dx dy dz : ndarray R) (b0 b1 b2 : R) (sxy g : list nat) :
  broadcast_shapes (shape dx) (shape dy) = Some sxy ->
  broadcast_shapes sxy (shape dz) = Some g ->
  exists r, inner [dx; dy; dz] [b0; b1; b2] = Some r /\ shape r = g /\
            forall idx, bget r idx
              = bget dx idx * b0 + bget dy idx * b1 + bget dz idx * b2.
Proof.
  intros Hxy Hz. unfold inner. cbn [length Nat.eqb zip_with].
  destruct (sum_arrays_3 (amap (fun v => v * b0) dx) (amap (fun v => v * b1) dy)
              (amap (fun v => v * b2) dz) sxy g Hxy Hz) as (s & -> & Hs & Hb).
  exists s. split; [done|]. split; [done|]. intros idx. now rewrite Hb.
Qed.

(** ** The plane wave *)

Lemma plane_result omega a0 a1 a2 b0 b1 b2 x y z c g :
  np_broadcast_shape [shape x; shape y; shape z] = Some g ->
  exists p,
    plane omega [a0; a1; a2] [b0; b1; b2] [x; y; z] c = Some p /\
    shape p = g /\
    forall idx,
      bget p idx = plane_pressure (omega / sound_speed c)
                     (inner3 a0 a1 a2 b0 b1 b2 (bget x idx) (bget y idx) (bget z idx)).
Proof.
  intros (sxy & Hxy & Hxyz)%np_broadcast_shape_3.
  unfold plane, asarray_1d, XyzComponents. rewrite xyz_sub_3.
  cbn [mbind option_bind].
  destruct (inner_3 (amap (fun v => v - a0) x) (amap (fun v => v - a1) y)
              (amap (fun v => v - a2) z) b0 b1 b2 sxy g Hxy Hxyz)
    as (i & -> & Hs & Hb).
  cbn [mbind option_bind]. eexists. split; [done|]. split; [done|].
  intros idx. rewrite bget_amap, Hb, !bget_amap. done.
Qed.

(** C8. For real [omega], [x0], [n0] (of any length, unit or not), a real
    broadcast-compatible grid and real [c] — in particular for
    [omega > 0] and [c > 0] — [plane] returns a field of the grid's
    broadcast shape, and its element at every grid point is
    [exp(−j·k·⟨grid − x0, n0⟩)] with a real inner product, and has complex
    modulus 1. *)
Theorem plane_has_unit_modulus omega a0 a1 a2 b0 b1 b2 x y z c g :
  np_broadcast_shape [shape x; shape y; shape z] = Some g ->
  exists p,
    plane omega [a0; a1; a2] [b0; b1; b2] [x; y; z] c = Some p /\
    shape p = g /\
    forall idx, in_bounds g idx ->
      item p idx = plane_pressure (omega / sound_speed c)
                     (inner3 a0 a1 a2 b0 b1 b2 (bget x idx) (bget y idx) (bget z idx)) /\
      Cmod (item p idx) = 1.
Proof.
  intros Hg.
  destruct (plane_result omega a0 a1 a2 b0 b1 b2 x y z c g Hg) as (p & Hp & Hs & Hb).
  exists p. split; [done|]. split; [done|]. intros idx Hidx.
  rewrite <- bget_in_bounds by now rewrite Hs. rewrite Hb. split; [done|].
  apply Cmod_Cexp_imag.
Qed.

(** ** The point source *)

Lemma Cdiv_real_r (z : C) (o r : R) :
  r <> 0 -> Cdiv (Cmul z (RtoC o)) (RtoC r) = Cmul z (RtoC (o / r)).
Proof. intros H. cplx. f_equal; field; nra. Qed.

Lemma Cdiv_Cmul_real_l (r : R) (z : C) :
  r <> 0 -> PI <> 0 ->
  Cdiv (Cmul (RtoC (1 / (4 * PI))) z) (RtoC r) = Cdiv z (RtoC (4 * PI * r)).
Proof. intros H HPI. cplx. f_equal; field; nra. Qed.

Lemma PI_neq0 : PI <> 0.
Proof. pose proof PI_RGT_0. lra. Qed.

Lemma point_pressure_eval_value (k r : R) :
  r <> 0 -> point_pressure_eval k r = point_pressure k r.
Proof.
  intros H. unfold point_pressure_eval, point_pressure.
  apply Cdiv_Cmul_real_l; [done|apply PI_neq0].
Qed.

Lemma impedance_denominator (rho cc k r : R) :
  Cmul (Cmul (Cmul (RtoC (rho * cc)) Ci) (RtoC k)) (RtoC r)
  = Cmul (Cmul (Cmul (Cmul Ci (RtoC k)) (RtoC r)) (RtoC rho)) (RtoC cc).
Proof. cplx. f_equal; ring. Qed.

Lemma point_velocity_eval_value (rho cc k r o : R) :
  r <> 0 -> point_velocity_eval rho cc k r o = point_velocity_value rho cc k r o.
Proof.
  intros H. unfold point_velocity_eval, point_velocity_value.
  rewrite Cdiv_real_r by done.
  now rewrite point_pressure_eval_value, impedance_denominator.
Qed.

Lemma point_result omega a0 a1 a2 n0 x y z c g :
  np_broadcast_shape [shape x; shape y; shape z] = Some g ->
  exists p,
    point omega [a0; a1; a2] n0 [x; y; z] c = Some p /\
    shape p = g /\
    forall idx,
      bget p idx = point_pressure_eval (omega / sound_speed c)
                     (dist3 a0 a1 a2 (bget x idx) (bget y idx) (bget z idx)).
Proof.
  intros (sxy & Hxy & Hxyz)%np_broadcast_shape_3.
  unfold point, asarray_1d, XyzComponents. rewrite xyz_sub_3.
  cbn [mbind option_bind].
  destruct (norm_3 (amap (fun v => v - a0) x) (amap (fun v => v - a1) y)
              (amap (fun v => v - a2) z) sxy g Hxy Hxyz) as (r & -> & Hs & Hb).
  cbn [mbind option_bind]. unfold divCR.
  match goal with |- context [bop ?f ?u r] =>
    destruct (bop_ok f u r g) as (p & -> & Hsp & Hbp) end.
  { cbn [amap shape]. rewrite Hs. apply broadcast_shapes_refl. }
  exists p. split; [done|]. split; [done|]. intros idx.
  rewrite Hbp, !bget_amap, Hb, !bget_amap. done.
Qed.

Lemma point_velocity_result omega a0 a1 a2 n0 x y z c g :
  np_broadcast_shape [shape x; shape y; shape z] = Some g ->
  exists vx vy vz,
    point_velocity omega [a0; a1; a2] n0 [x; y; z] c = Some [vx; vy; vz] /\
    (shape vx = g /\ shape vy = g /\ shape vz = g) /\
    forall idx,
      let r := dist3 a0 a1 a2 (bget x idx) (bget y idx) (bget z idx) in
      let k := omega / sound_speed c in
      bget vx idx = point_velocity_eval defs_rho0 defs_c k r (bget x idx - a0) /\
      bget vy idx = point_velocity_eval defs_rho0 defs_c k r (bget y idx - a1) /\
      bget vz idx = point_velocity_eval defs_rho0 defs_c k r (bget z idx - a2).
Proof.
  intros Hg.
  destruct (point_result omega a0 a1 a2 n0 x y z c g Hg) as (p & Hp & Hsp & Hbp).
  apply np_broadcast_shape_3 in Hg as (sxy & Hxy & Hxyz).
  destruct (grid_components_fit _ _ _ _ _ Hxy Hxyz) as (Fx & Fy & Fz).
  unfold point_velocity. change (asarray_1d [a0; a1; a2]) with [a0; a1; a2].
  change (XyzComponents [x; y; z]) with [x; y; z]. rewrite Hp, xyz_sub_3.
  cbn [mbind option_bind].
  destruct (norm_3 (amap (fun v => v - a0) x) (amap (fun v => v - a1) y)
              (amap (fun v => v - a2) z) sxy g Hxy Hxyz) as (r & -> & Hs & Hb).
  cbn [mbind option_bind].
  match goal with |- context [bop Cdiv ?u ?w] =>
    destruct (bop_ok Cdiv u w g) as (f & -> & Hsf & Hbf) end.
  { cbn [amap shape]. rewrite Hs. apply broadcast_shapes_refl. }
  cbn [mbind option_bind].
  destruct (bop_ok Cmul p f g) as (v & -> & Hsv & Hbv).
  { rewrite Hsp, Hsf. apply broadcast_shapes_refl. }
  cbn [mbind option_bind mapM]. unfold mulCR, divCR.
  assert (Hvr : forall o : ndarray R, broadcast_shapes g (shape o) = Some g ->
    exists w, (vo ← bop (fun u t => Cmul u (RtoC t)) v o;
               bop (fun u t => Cdiv u (RtoC t)) vo r) = Some w /\ shape w = g /\
              forall idx, bget w idx
                = Cdiv (Cmul (bget v idx) (RtoC (bget o idx))) (RtoC (bget r idx))).
  { intros o Ho.
    destruct (bop_ok (fun u t => Cmul u (RtoC t)) v o g) as (vo & -> & Hsvo & Hbvo).
    { now rewrite Hsv. }
    cbn [mbind option_bind].
    destruct (bop_ok (fun u t => Cdiv u (RtoC t)) vo r g) as (w & -> & Hsw & Hbw).
    { rewrite Hsvo, Hs. apply broadcast_shapes_refl. }
    exists w. split; [done|]. split; [done|]. intros idx. now rewrite Hbw, Hbvo. }
  destruct (Hvr (amap (fun v => v - a0) x) Fx) as (vx & -> & Hsx & Hbx).
  destruct (Hvr (amap (fun v => v - a1) y) Fy) as (vy & -> & Hsy & Hby).
  destruct (Hvr (amap (fun v => v - a2) z) Fz) as (vz & -> & Hsz & Hbz).
  cbn [mbind option_bind mret option_ret].
  exists vx, vy, vz. split; [done|]. split; [done|]. intros idx.
  rewrite Hbx, Hby, Hbz, Hbv, Hbf, Hbp, !bget_amap, Hb, !bget_amap. done.
Qed.

(** ** The line sources and the z-duplication *)

Lemma duplicate_zdirection_grid {A B} (p : ndarray A) (grid : list (ndarray B)) g :
  np_broadcast_shape (map shape grid) = Some g ->
  _duplicate_zdirection p grid = Some (z_duplicated g p).
Proof.
  intros Hg. unfold _duplicate_zdirection, z_duplicated. rewrite Hg.
  cbn [mbind option_bind].
  destruct g as [|a [|b [|n g]]]; try done.
Qed.

Lemma item_z_duplicated {A} (g : list nat) (p : ndarray A) (idx : list nat) :
  item (z_duplicated g p) idx = item p (z_source g (shape p) idx).
Proof. unfold z_duplicated, z_source. now destruct (2 <? length g)%nat. Qed.

(** On a result of shape [(a, b, 1)] the duplication yields [(a, b, n)]
    and reads the element [i, j, kz] from [i, j, 0]. *)
Lemma z_duplicated_sparse_shape {A} (p : ndarray A) (a b n : nat) :
  shape p = [a; b; 1%nat] -> shape (z_duplicated [a; b; n] p) = [a; b; n].
Proof.
  intros Hp. unfold z_duplicated. cbn [length Nat.ltb Nat.leb nth np_tile shape].
  rewrite Hp. unfold tile_shape, pad_shape. cbn.
  f_equal; [lia|]. f_equal; [lia|]. f_equal. lia.
Qed.

Lemma z_source_sparse (a b n i j kz : nat) :
  (i < a)%nat -> (j < b)%nat ->
  z_source [a; b; n] [a; b; 1%nat] [i; j; kz] = [i; j; 0%nat].
Proof.
  intros Hi Hj. unfold z_source, tile_src, pad_shape. cbn.
  now rewrite (Nat.mod_small i a), (Nat.mod_small j b) by done.
Qed.

Lemma z_duplicated_flat {A} (p : ndarray A) (g : list nat) :
  (length g <= 2)%nat -> z_duplicated g p = p.
Proof.
  intros H. unfold z_duplicated.
  destruct (Nat.ltb_spec 2 (length g)); [lia|done].
Qed.

(** The 2D result of [line] and what [line] makes of it. *)
Lemma line_result omega a0 a1 a2 n0 x y z c sxy g :
  broadcast_shapes (shape x) (shape y) = Some sxy ->
  np_broadcast_shape [shape x; shape y; shape z] = Some g ->
  exists p2,
    shape p2 = sxy /\
    (forall idx, item p2 idx
       = line_pressure (omega / sound_speed c)
           (dist2 a0 a1 (bget x idx) (bget y idx))) /\
    line omega [a0; a1; a2] n0 [x; y; z] c = Some (z_duplicated g p2).
Proof.
  intros Hxy Hg. unfold line, asarray_1d, XyzComponents.
  cbn [take]. rewrite xyz_sub_2. cbn [mbind option_bind].
  destruct (norm_2 (amap (fun v => v - a0) x) (amap (fun v => v - a1) y) sxy Hxy)
    as (r & -> & Hs & Hi & Hb).
  cbn [mbind option_bind].
  rewrite (duplicate_zdirection_grid _ [x; y; z] g Hg).
  eexists. split; [|split; [|reflexivity]]; [done|].
  intros idx. cbn [amap item]. now rewrite Hi, !bget_amap.
Qed.

(** C6, as amended. For a grid whose x and y components broadcast to
    [(a, b, 1)] and whose three components broadcast to [(a, b, n)],
    [line] returns an array of shape [(a, b, n)] that is constant along
    z: its element [i, j, kz] is the 2D result [−(j/4)·H0(k·r)] at
    [i, j, 0] for every z-index [kz]; for a grid whose broadcast shape has
    no third dimension the 2D result is returned unchanged. *)
Theorem line_constant_along_z omega a0 a1 a2 n0 x y z c sxy g :
  broadcast_shapes (shape x) (shape y) = Some sxy ->
  np_broadcast_shape [shape x; shape y; shape z] = Some g ->
  exists p,
    line omega [a0; a1; a2] n0 [x; y; z] c = Some p /\
    (forall a b n, sxy = [a; b; 1%nat] -> g = [a; b; n] ->
       shape p = [a; b; n] /\
       forall i j kz, (i < a)%nat -> (j < b)%nat -> (kz < n)%nat ->
         item p [i; j; kz]
         = line_pressure (omega / sound_speed c)
             (dist2 a0 a1 (bget x [i; j; 0%nat]) (bget y [i; j; 0%nat]))) /\
    ((length g <= 2)%nat ->
       shape p = sxy /\
       forall idx,
         item p idx = line_pressure (omega / sound_speed c)
                        (dist2 a0 a1 (bget x idx) (bget y idx))).
Proof.
  intros Hxy Hg.
  destruct (line_result omega a0 a1 a2 n0 x y z c sxy g Hxy Hg)
    as (p2 & Hs & Hi & Hline).
  exists (z_duplicated g p2). split; [done|]. split.
  - intros a b n -> ->. split; [now apply z_duplicated_sparse_shape|].
    intros i j kz Hia Hjb _.
    now rewrite item_z_duplicated, Hs, z_source_sparse, Hi.
  - intros Hlen. now rewrite z_duplicated_flat.
Qed.

Lemma line_coefficient_injective (h1 h2 : C) :
  Cmul (Cdiv (Copp Ci) (RtoC 4)) h1 = Cmul (Cdiv (Copp Ci) (RtoC 4)) h2 -> h1 = h2.
Proof.
  cplx. intros [= H1 H2]. f_equal; lra.
Qed.

(** With the x and y coordinates varying along the third axis, the
    result of [line] is the 2D result repeated, and it is not constant
    along z as soon as the Hankel function separates the two radii. *)
Lemma line_varies_along_z :
  hankel2 0 1 <> hankel2 0 2 ->
  exists p,
    line 1 [0; 0; 0] [] z_stored_points (Some 1) = Some p /\
    np_broadcast_shape (map shape z_stored_points) = Some [1; 1; 2]%nat /\
    shape p = [1; 1; 4]%nat /\
    item p [0; 0; 0]%nat <> item p [0; 0; 1]%nat.
Proof.
  intros Hh.
  destruct (line_result 1 0 0 0 [] (along_z [1; 2]) (along_z [0; 0]) (along_z [0; 0])
              (Some 1) [1; 1; 2]%nat [1; 1; 2]%nat eq_refl eq_refl)
    as (p2 & Hs & Hi & Hline).
  exists (z_duplicated [1; 1; 2]%nat p2). split; [exact Hline|]. split; [done|].
  split.
  { unfold z_duplicated. cbn [length Nat.ltb Nat.leb nth np_tile shape].
    now rewrite Hs. }
  rewrite !item_z_duplicated, Hs.
  change (z_source [1; 1; 2]%nat [1; 1; 2]%nat [0; 0; 0]%nat) with [0; 0; 0]%nat.
  change (z_source [1; 1; 2]%nat [1; 1; 2]%nat [0; 0; 1]%nat) with [0; 0; 1]%nat.
  rewrite !Hi. unfold line_pressure.
  change (bget (along_z [1; 2]) [0; 0; 0]%nat) with 1.
  change (bget (along_z [0; 0]) [0; 0; 0]%nat) with 0.
  change (bget (along_z [1; 2]) [0; 0; 1]%nat) with 2.
  change (bget (along_z [0; 0]) [0; 0; 1]%nat) with 0.
  unfold dist2. change (sound_speed (Some 1)) with 1.
  replace ((1 - 0) * (1 - 0) + (0 - 0) * (0 - 0)) with (1 * 1) by ring.
  replace ((2 - 0) * (2 - 0) + (0 - 0) * (0 - 0)) with (2 * 2) by ring.
  rewrite !sqrt_square by lra.
  replace (1 / 1 * 1) with 1 by field. replace (1 / 1 * 2) with 2 by field.
  intros H%line_coefficient_injective. done.
Qed.

(** The 2D part of [line_velocity]: the two in-plane components before
    the z-duplication, for any grid whose first two components are [x]
    and [y]. *)
Lemma line_velocity_2d omega a0 a1 a2 n0 x y c sxy :
  broadcast_shapes (shape x) (shape y) = Some sxy ->
  exists v0 v1,
    (shape v0 = sxy /\ shape v1 = sxy) /\
    (forall idx,
       let r := dist2 a0 a1 (bget x idx) (bget y idx) in
       let k := omega / sound_speed c in
       let coef := -1 / (4 * defs_c * defs_rho0) in
       item v0 idx = line_velocity_eval coef k r (bget x idx - a0) /\
       item v1 idx = line_velocity_eval coef k r (bget y idx - a1)) /\
    forall grid, take 2 grid = [x; y] ->
      line_velocity omega [a0; a1; a2] n0 grid c
      = mapM (fun vi => _duplicate_zdirection vi grid)
          (if (2 <? length grid)%nat then [v0; v1; np_zeros_like v0] else [v0; v1]).
Proof.
  intros Hxy.
  destruct (broadcast_shapes_absorb _ _ _ Hxy) as [Fx Fy].
  destruct (norm_2 (amap (fun v => v - a0) x) (amap (fun v => v - a1) y) sxy Hxy)
    as (r & Hr & Hs & Hi & Hb).
  set (v := amap (fun rv => Cmul (RtoC (-1 / (4 * defs_c * defs_rho0)))
                              (hankel2 1 (wavenumber omega c * rv))) r).
  assert (Hvr : forall o : ndarray R, broadcast_shapes sxy (shape o) = Some sxy ->
    exists w, (vo ← mulCR v o; divCR vo r) = Some w /\ shape w = sxy /\
              forall idx, item w idx
                = Cdiv (Cmul (bget v idx) (RtoC (bget o idx))) (RtoC (bget r idx))).
  { intros o Ho. unfold mulCR, divCR.
    destruct (bop_ok (fun u t => Cmul u (RtoC t)) v o sxy) as (vo & -> & Hsvo & Hbvo).
    { subst v. cbn [amap shape]. now rewrite Hs. }
    cbn [mbind option_bind].
    destruct (bop_ok_item (fun u t => Cdiv u (RtoC t)) vo r sxy)
      as (w & -> & Hsw & Hiw & _).
    { rewrite Hsvo, Hs. apply broadcast_shapes_refl. }
    exists w. split; [done|]. split; [done|]. intros idx. now rewrite Hiw, Hbvo. }
  destruct (Hvr (amap (fun v => v - a0) x) Fx) as (v0 & Hv0 & Hs0 & Hi0).
  destruct (Hvr (amap (fun v => v - a1) y) Fy) as (v1 & Hv1 & Hs1 & Hi1).
  exists v0, v1. split; [done|]. split.
  - intros idx. cbn zeta. rewrite Hi0, Hi1. subst v.
    rewrite !bget_amap, Hb, !bget_amap. done.
  - intros grid Hgrid. unfold line_velocity, asarray_1d, XyzComponents.
    cbn [take]. rewrite Hgrid, xyz_sub_2. cbn [mbind option_bind]. rewrite Hr.
    cbn [mbind option_bind mapM]. fold v. rewrite Hv0, Hv1.
    cbn [mbind option_bind mret option_ret lookup list_lookup].
    rewrite decide_True by congruence. done.
Qed.

Lemma line_velocity_result omega a0 a1 a2 n0 x y z c sxy g :
  broadcast_shapes (shape x) (shape y) = Some sxy ->
  np_broadcast_shape [shape x; shape y; shape z] = Some g ->
  exists v0 v1,
    (shape v0 = sxy /\ shape v1 = sxy) /\
    (forall idx,
       let r := dist2 a0 a1 (bget x idx) (bget y idx) in
       let k := omega / sound_speed c in
       let coef := -1 / (4 * defs_c * defs_rho0) in
       item v0 idx = line_velocity_eval coef k r (bget x idx - a0) /\
       item v1 idx = line_velocity_eval coef k r (bget y idx - a1)) /\
    line_velocity omega [a0; a1; a2] n0 [x; y; z] c
    = Some [z_duplicated g v0; z_duplicated g v1; z_duplicated g (np_zeros_like v0)].
Proof.
  intros Hxy Hg.
  destruct (line_velocity_2d omega a0 a1 a2 n0 x y c sxy Hxy)
    as (v0 & v1 & Hs & Hi & Hline).
  exists v0, v1. split; [done|]. split; [done|].
  rewrite (Hline [x; y; z]) by done. cbn [length Nat.ltb Nat.leb mapM].
  rewrite !(duplicate_zdirection_grid _ [x; y; z] g Hg). done.
Qed.

Lemma line_velocity_result_pair omega a0 a1 a2 n0 x y c sxy :
  broadcast_shapes (shape x) (shape y) = Some sxy ->
  exists v0 v1,
    (shape v0 = sxy /\ shape v1 = sxy) /\
    (forall idx,
       let r := dist2 a0 a1 (bget x idx) (bget y idx) in
       let k := omega / sound_speed c in
       let coef := -1 / (4 * defs_c * defs_rho0) in
       item v0 idx = line_velocity_eval coef k r (bget x idx - a0) /\
       item v1 idx = line_velocity_eval coef k r (bget y idx - a1)) /\
    line_velocity omega [a0; a1; a2] n0 [x; y] c
    = Some [z_duplicated sxy v0; z_duplicated sxy v1].
Proof.
  intros Hxy.
  destruct (line_velocity_2d omega a0 a1 a2 n0 x y c sxy Hxy)
    as (v0 & v1 & Hs & Hi & Hline).
  exists v0, v1. split; [done|]. split; [done|].
  rewrite (Hline [x; y]) by done. cbn [length Nat.ltb Nat.leb mapM].
  assert (Hg : np_broadcast_shape (map shape [x; y]) = Some sxy).
  { cbn [map]. now rewrite np_broadcast_shape_2. }
  rewrite !(duplicate_zdirection_grid _ [x; y] sxy Hg). done.
Qed.

Lemma line_dipole_result omega a0 a1 a2 b0 b1 b2 x y z c sxy g :
  broadcast_shapes (shape x) (shape y) = Some sxy ->
  np_broadcast_shape [shape x; shape y; shape z] = Some g ->
  exists p2,
    shape p2 = sxy /\
    line_dipole omega [a0; a1; a2] [b0; b1; b2] [x; y; z] c
    = Some (z_duplicated g p2).
Proof.
  intros Hxy Hg. unfold line_dipole, asarray_1d, XyzComponents.
  cbn [take]. rewrite xyz_sub_2. cbn [mbind option_bind].
  destruct (norm_2 (amap (fun v => v - a0) x) (amap (fun v => v - a1) y) sxy Hxy)
    as (r & -> & Hs & Hi & Hb).
  cbn [mbind option_bind].
  destruct (inner_2 (amap (fun v => v - a0) x) (amap (fun v => v - a1) y) b0 b1 sxy Hxy)
    as (i & -> & Hsi & Hbi).
  cbn [mbind option_bind]. unfold mulCR, divCR.
  match goal with |- context [bop ?f ?u i] =>
    destruct (bop_ok f u i sxy) as (t & -> & Hst & Hbt) end.
  { cbn [amap shape]. rewrite Hs, Hsi. apply broadcast_shapes_refl. }
  cbn [mbind option_bind].
  match goal with |- context [bop ?f t r] =>
    destruct (bop_ok f t r sxy) as (p & -> & Hsp & Hbp) end.
  { rewrite Hst, Hs. apply broadcast_shapes_refl. }
  cbn [mbind option_bind].
  rewrite (duplicate_zdirection_grid _ [x; y; z] g Hg).
  exists p. done.
Qed.

Lemma plane_velocity_result omega a0 a1 a2 b0 b1 b2 x y z c g :
  np_broadcast_shape [shape x; shape y; shape z] = Some g ->
  exists vx vy vz,
    plane_velocity omega [a0; a1; a2] [b0; b1; b2] [x; y; z] c = Some [vx; vy; vz] /\
    shape vx = g /\ shape vy = g /\ shape vz = g.
Proof.
  intros Hg.
  destruct (plane_result omega a0 a1 a2 b0 b1 b2 x y z c g Hg) as (p & Hp & Hs & _).
  unfold plane_velocity. rewrite Hp. cbn [mbind option_bind map XyzComponents].
  eexists _, _, _. split; [reflexivity|]. done.
Qed.

(** ** Shapes of the returned fields *)

Lemma z_duplicated_fits {A} (p : ndarray A) (sxy g : list nat) :
  shape p = sxy -> duplication_fits sxy g -> shape (z_duplicated g p) = g.
Proof.
  intros Hp [[Hlen ->] | (a & b & n & -> & ->)].
  - now rewrite z_duplicated_flat.
  - now apply z_duplicated_sparse_shape.
Qed.

(** C4, as amended. On a broadcast-compatible three-component grid of
    broadcast shape [g]: [point], [point_velocity], [plane] and
    [plane_velocity] return arrays of shape [g]; so does [point_modal]
    when every axis has a non-empty mode range and no term of the series
    is singular (the room having non-zero dimensions); [line], [line_velocity]
    and [line_dipole] do when the z-duplication fits, that is when x and y
    broadcast to [(a, b, 1)] and the grid to [(a, b, n)], or when the grid
    has at most two dimensions and x and y already broadcast to [g];
    [point_modal_velocity] with non-empty mode ranges and no singular
    term returns for each axis an array of the shape of that axis's own
    grid component, not broadcast to [g]. *)
Theorem field_shapes
    omega a0 a1 a2 b0 b1 b2 x y z L0 L1 L2 N deltan c g mm nn ll :
  np_broadcast_shape [shape x; shape y; shape z] = Some g ->
  mode_ranges (wavenumber omega c) [L0; L1; L2] N = Some (mm, nn, ll) ->
  let x0 := [a0; a1; a2] in
  let n0 := [b0; b1; b2] in
  let grid := [x; y; z] in
  let L := [L0; L1; L2] in
  one_of_shape g (point omega x0 n0 grid c) /\
  three_of_shape g (point_velocity omega x0 n0 grid c) /\
  one_of_shape g (plane omega x0 n0 grid c) /\
  three_of_shape g (plane_velocity omega x0 n0 grid c) /\
  (L0 <> 0 -> L1 <> 0 -> L2 <> 0 ->
   mm <> [] -> nn <> [] -> ll <> [] ->
   no_singular_term (omega / sound_speed c) deltan L0 L1 L2 (product3 mm nn ll) ->
   one_of_shape g (point_modal omega x0 n0 grid L N deltan c) /\
   exists vx vy vz,
     point_modal_velocity omega x0 n0 grid L N deltan c = Some [vx; vy; vz] /\
     shape vx = shape x /\ shape vy = shape y /\ shape vz = shape z) /\
  (forall sxy,
     broadcast_shapes (shape x) (shape y) = Some sxy -> duplication_fits sxy g ->
     one_of_shape g (line omega x0 n0 grid c) /\
     three_of_shape g (line_velocity omega x0 n0 grid c) /\
     one_of_shape g (line_dipole omega x0 n0 grid c)).
Proof.
  intros Hg HN x0 n0 grid L. subst x0 n0 grid L.
  split; [|split; [|split; [|split; [|split]]]].
  - destruct (point_result omega a0 a1 a2 [b0; b1; b2] x y z c g Hg) as (p & Hp & Hs & _).
    now exists p.
  - destruct (point_velocity_result omega a0 a1 a2 [b0; b1; b2] x y z c g Hg)
      as (vx & vy & vz & Hv & (Hx & Hy & Hz) & _).
    now exists vx, vy, vz.
  - destruct (plane_result omega a0 a1 a2 b0 b1 b2 x y z c g Hg) as (p & Hp & Hs & _).
    now exists p.
  - destruct (plane_velocity_result omega a0 a1 a2 b0 b1 b2 x y z c g Hg)
      as (vx & vy & vz & Hv & Hx & Hy & Hz).
    now exists vx, vy, vz.
  - intros _ _ _ Hm Hn Hl Hns. split.
    + destruct (point_modal_result omega a0 a1 a2 [b0; b1; b2] x y z L0 L1 L2 N
                  deltan c g mm nn ll Hg HN Hns) as (p & Hp & Hs & _).
      exists p. split; [done|]. rewrite Hs.
      pose proof (product3_not_nil mm nn ll Hm Hn Hl).
      now destruct (product3 mm nn ll).
    + destruct (point_modal_velocity_result omega a0 a1 a2 [b0; b1; b2] x y z
                  L0 L1 L2 N deltan c mm nn ll HN Hns)
        as (vx & vy & vz & Hv & (Hx & Hy & Hz) & _).
      exists vx, vy, vz. split; [done|].
      pose proof (product3_not_nil mm nn ll Hm Hn Hl).
      destruct (product3 mm nn ll); done.
  - intros sxy Hxy Hfit. split; [|split].
    + destruct (line_result omega a0 a1 a2 [b0; b1; b2] x y z c sxy g Hxy Hg)
        as (p2 & Hs & _ & Hline).
      eexists. split; [exact Hline|]. now apply (z_duplicated_fits _ sxy).
    + destruct (line_velocity_result omega a0 a1 a2 [b0; b1; b2] x y z c sxy g Hxy Hg)
        as (v0 & v1 & (Hs0 & Hs1) & _ & Hline).
      eexists _, _, _. split; [exact Hline|].
      split; [|split]; now apply (z_duplicated_fits _ sxy).
    + destruct (line_dipole_result omega a0 a1 a2 b0 b1 b2 x y z c sxy g Hxy Hg)
        as (p2 & Hs & Hline).
      eexists. split; [exact Hline|]. now apply (z_duplicated_fits _ sxy).
Qed.

(** ** The impedance factor of the velocity evaluators *)

(** [point_velocity] with the distance bounded away from zero: every
    component is the point-source pressure times
    [(1 + jkr)/(j·k·r·ρ·c)] times [(grid − x0)_axis / r], where [ρ·c] is
    [defs.rho0 · defs.c] whatever speed of sound the call passes. *)
Lemma point_velocity_formula omega a0 a1 a2 n0 x y z c g :
  np_broadcast_shape [shape x; shape y; shape z] = Some g ->
  (forall idx, in_bounds g idx ->
     0 < dist3 a0 a1 a2 (bget x idx) (bget y idx) (bget z idx)) ->
  exists vx vy vz,
    point_velocity omega [a0; a1; a2] n0 [x; y; z] c = Some [vx; vy; vz] /\
    forall idx, in_bounds g idx ->
      let r := dist3 a0 a1 a2 (bget x idx) (bget y idx) (bget z idx) in
      let k := omega / sound_speed c in
      item vx idx = point_velocity_value defs_rho0 defs_c k r (bget x idx - a0) /\
      item vy idx = point_velocity_value defs_rho0 defs_c k r (bget y idx - a1) /\
      item vz idx = point_velocity_value defs_rho0 defs_c k r (bget z idx - a2).
Proof.
  intros Hg Hr.
  destruct (point_velocity_result omega a0 a1 a2 n0 x y z c g Hg)
    as (vx & vy & vz & Hv & (Hx & Hy & Hz) & Hb).
  exists vx, vy, vz. split; [done|]. intros idx Hidx. cbn zeta.
  specialize (Hr idx Hidx). destruct (Hb idx) as (Bx & By & Bz).
  rewrite <- !bget_in_bounds by congruence.
  rewrite Bx, By, Bz, !point_velocity_eval_value by lra. done.
Qed.

Lemma point_pressure_at_2pi : point_pressure (2 * PI) 1 = RtoC (1 / (4 * PI)).
Proof.
  unfold point_pressure. rewrite Cmul_negi. unfold Cexp, Re, Im. cbn [fst snd].
  rewrite exp_0, Rmult_1_r, cos_neg, sin_neg, cos_2PI, sin_2PI.
  pose proof PI_neq0. cplx. f_equal; field; nra.
Qed.

Lemma point_velocity_value_at_2pi (rho cc : R) :
  rho <> 0 -> cc <> 0 ->
  point_velocity_value rho cc (2 * PI) 1 1
  = (1 / (4 * PI * rho * cc), - 1 / (8 * PI * PI * rho * cc)).
Proof.
  intros Hrho Hcc. unfold point_velocity_value. rewrite point_pressure_at_2pi.
  pose proof PI_neq0. cplx. f_equal; field; repeat split; nra.
Qed.

(** The value depends on the speed of sound in the impedance. *)
Lemma point_velocity_value_speed (rho c1 c2 : R) :
  rho <> 0 -> c1 <> 0 -> c2 <> 0 -> c1 <> c2 ->
  point_velocity_value rho c1 (2 * PI) 1 1 <> point_velocity_value rho c2 (2 * PI) 1 1.
Proof.
  intros Hrho H1 H2 Hne.
  rewrite !point_velocity_value_at_2pi by done. intros [= H _].
  pose proof PI_neq0. apply Hne.
  assert (Hu : 4 * PI * rho * c1 = 1 / (1 / (4 * PI * rho * c1))) by (field; auto).
  assert (Hv : 4 * PI * rho * c2 = 1 / (1 / (4 * PI * rho * c2))) by (field; auto).
  assert (Heq : 4 * PI * rho * c1 = 4 * PI * rho * c2) by (rewrite Hu, Hv, H; done).
  apply (Rmult_eq_reg_l (4 * PI * rho)); [lra|].
  intros Hz. apply Rmult_integral in Hz as [Hz|Hz]; [|done].
  apply Rmult_integral in Hz as [Hz|Hz]; [lra|done].
Qed.

Lemma line_velocity_eval_value (rho cc k r o : R) :
  r <> 0 ->
  line_velocity_eval (-1 / (4 * cc * rho)) k r o = line_velocity_value rho cc k r o.
Proof.
  intros H. unfold line_velocity_eval, line_velocity_value.
  rewrite Cdiv_real_r by done. do 3 f_equal. unfold Rdiv. f_equal. f_equal. ring.
Qed.

(** When the call does not override the speed of sound, [defs.c] is the
    speed in force and the impedance is the [ρ·c] of the call. *)
Lemma point_velocity_formula_default_speed omega a0 a1 a2 n0 x y z g :
  np_broadcast_shape [shape x; shape y; shape z] = Some g ->
  (forall idx, in_bounds g idx ->
     0 < dist3 a0 a1 a2 (bget x idx) (bget y idx) (bget z idx)) ->
  exists vx vy vz,
    point_velocity omega [a0; a1; a2] n0 [x; y; z] None = Some [vx; vy; vz] /\
    forall idx, in_bounds g idx ->
      let r := dist3 a0 a1 a2 (bget x idx) (bget y idx) (bget z idx) in
      let cc := sound_speed None in
      let k := omega / cc in
      item vx idx = point_velocity_value defs_rho0 cc k r (bget x idx - a0) /\
      item vy idx = point_velocity_value defs_rho0 cc k r (bget y idx - a1) /\
      item vz idx = point_velocity_value defs_rho0 cc k r (bget z idx - a2).
Proof. apply point_velocity_formula. Qed.

(** X20. The components that [line_velocity] returns: for a grid with a z
    component, the two in-plane components, z-duplicated, and a third one
    that is zero everywhere; for a grid given as a pair, the two in-plane
    components only.  Each in-plane element is read from the 2D result
    [coef·H1(k·r)·o/r] with [coef = −1/(4·defs.c·defs.rho0)]. *)
Lemma line_velocity_components omega a0 a1 a2 n0 x y c sxy :
  broadcast_shapes (shape x) (shape y) = Some sxy ->
  let k := omega / sound_speed c in
  let coef := -1 / (4 * defs_c * defs_rho0) in
  (forall z g,
     np_broadcast_shape [shape x; shape y; shape z] = Some g ->
     exists vx vy vz,
       line_velocity omega [a0; a1; a2] n0 [x; y; z] c = Some [vx; vy; vz] /\
       (forall idx,
          let src := z_source g sxy idx in
          let r := dist2 a0 a1 (bget x src) (bget y src) in
          item vx idx = line_velocity_eval coef k r (bget x src - a0) /\
          item vy idx = line_velocity_eval coef k r (bget y src - a1) /\
          item vz idx = C0)) /\
  (exists vx vy,
     line_velocity omega [a0; a1; a2] n0 [x; y] c = Some [vx; vy] /\
     forall idx,
       let src := z_source sxy sxy idx in
       let r := dist2 a0 a1 (bget x src) (bget y src) in
       item vx idx = line_velocity_eval coef k r (bget x src - a0) /\
       item vy idx = line_velocity_eval coef k r (bget y src - a1)).
Proof.
  intros Hxy k coef. split.
  - intros z g Hg.
    destruct (line_velocity_result omega a0 a1 a2 n0 x y z c sxy g Hxy Hg)
      as (v0 & v1 & (Hs0 & Hs1) & Hi & Hline).
    eexists _, _, _. split; [exact Hline|]. intros idx. cbn zeta.
    rewrite !item_z_duplicated, Hs0, Hs1.
    destruct (Hi (z_source g sxy idx)) as [H0 H1]. now rewrite H0, H1.
  - destruct (line_velocity_result_pair omega a0 a1 a2 n0 x y c sxy Hxy)
      as (v0 & v1 & (Hs0 & Hs1) & Hi & Hline).
    eexists _, _. split; [exact Hline|]. intros idx. cbn zeta.
    rewrite !item_z_duplicated, Hs0, Hs1.
    destruct (Hi (z_source sxy sxy idx)) as [H0 H1]. now rewrite H0, H1.
Qed.

Lemma ceil_0 : ceil 0 = 0%Z.
Proof.
  destruct (ceil_spec 0) as [H1 H2].
  assert (Hlo : (ceil 0 < 1)%Z) by (apply lt_IZR; lra).
  assert (Hhi : (0 <= ceil 0)%Z) by (apply le_IZR; lra).
  lia.
Qed.

(** * Further properties of the evaluators *)

(** ** Mode selection and argument errors of the modal model *)

(** For an integer [m], [m < ceil x] exactly when [m < x]. *)
Lemma lt_ceil (m : Z) (x : R) : (m < ceil x)%Z <-> IZR m < x.
Proof.
  destruct (ceil_spec x) as [H1 H2]. split.
  - intros H. assert (Hm : IZR m <= IZR (ceil x) - 1).
    { rewrite <- minus_IZR. apply IZR_le. lia. }
    lra.
  - intros H. apply lt_IZR. lra.
Qed.

(** X1. With [N] not given, the mode indices used on axis [i] of a room
    with [L_i > 0] are exactly the integers [m >= 0] whose axial mode
    wavenumber [m·π/L_i] lies below [k]. *)
Theorem auto_order_keeps_modes_below_k (k L0 L1 L2 : R) :
  0 < L0 -> 0 < L1 -> 0 < L2 ->
  exists mm nn ll,
    mode_ranges k [L0; L1; L2] None = Some (mm, nn, ll) /\
    (forall m, In m mm <-> (0 <= m)%Z /\ k_mode m L0 < k) /\
    (forall m, In m nn <-> (0 <= m)%Z /\ k_mode m L1 < k) /\
    (forall m, In m ll <-> (0 <= m)%Z /\ k_mode m L2 < k).
Proof using.
  intros H0 H1 H2. eexists _, _, _. split; [reflexivity|].
  assert (Haxis : forall L m, 0 < L ->
    In m (range (ceil (L / PI * k))) <-> (0 <= m)%Z /\ k_mode m L < k).
  { intros L m HL. rewrite In_range, lt_ceil. unfold k_mode.
    pose proof PI_RGT_0 as Hpi.
    assert (Heq : IZR m * PI / L < k <-> IZR m < L / PI * k).
    { split; intros H.
      - apply (Rmult_lt_reg_r (PI / L)); [apply Rdiv_lt_0_compat; lra|].
        replace (IZR m * (PI / L)) with (IZR m * PI / L) by (field; lra).
        replace (L / PI * k * (PI / L)) with k by (field; lra). done.
      - apply (Rmult_lt_reg_r (L / PI)); [apply Rdiv_lt_0_compat; lra|].
        replace (IZR m * PI / L * (L / PI)) with (IZR m) by (field; lra).
        replace (k * (L / PI)) with (L / PI * k) by ring. done. }
    rewrite Heq. reflexivity. }
  split; [|split]; intros m; apply Haxis; assumption.
Qed.

Lemma ceil_nonpos (x : R) : x <= 0 -> (ceil x <= 0)%Z.
Proof using.
  intros Hx. destruct (ceil_spec x) as [H1 _].
  assert (H : (ceil x < 1)%Z) by (apply lt_IZR; lra). lia.
Qed.

Lemma range_empty (n : Z) : (n <= 0)%Z -> range n = [].
Proof using.
  intros H. unfold range. now replace (Z.to_nat n) with 0%nat by lia.
Qed.

(** X2. With [N] not given, a frequency [omega <= 0] (for a positive
    speed of sound and a room of positive length along x) leaves no mode
    on the x axis: [point_modal] returns the scalar zero and
    [point_modal_velocity] three scalar zeros, without error. *)
Theorem nonpositive_frequency_gives_zero_field
    omega a0 a1 a2 n0 x y z L0 L1 L2 deltan c :
  omega <= 0 -> 0 < sound_speed c -> 0 < L0 ->
  point_modal omega [a0; a1; a2] n0 [x; y; z] [L0; L1; L2] None deltan c
  = Some (scalar C0) /\
  point_modal_velocity omega [a0; a1; a2] n0 [x; y; z] [L0; L1; L2] None deltan c
  = Some [scalar C0; scalar C0; scalar C0].
Proof using.
  intros Homega Hc HL.
  apply (empty_product_results omega a0 a1 a2 n0 x y z L0 L1 L2 None deltan c
           (range (ceil (L0 / PI * wavenumber omega c)))
           (range (ceil (L1 / PI * wavenumber omega c)))
           (range (ceil (L2 / PI * wavenumber omega c)))); [done|].
  left. apply range_empty, ceil_nonpos.
  pose proof PI_RGT_0 as Hpi. unfold wavenumber. fold (sound_speed c).
  assert (Hk : omega / sound_speed c <= 0).
  { assert (Hinv : 0 < / sound_speed c) by now apply Rinv_0_lt_compat.
    unfold Rdiv. nra. }
  assert (HLpi : 0 < L0 / PI) by (apply Rdiv_lt_0_compat; lra).
  nra.
Qed.

Lemma range_pos (n : Z) : (1 <= n)%Z -> exists tl, range n = 0%Z :: tl.
Proof using.
  intros H. unfold range. destruct (Z.to_nat n) as [|k] eqn:Hk; [lia|].
  simpl. eauto.
Qed.

Lemma mapM_head_None {A B} (f : A -> option B) (a : A) (l : list A) :
  f a = None -> mapM f (a :: l) = None.
Proof using. intros H. simpl. now rewrite H. Qed.

Lemma modal_basis_missing trig deltan i L x0 coord m mm :
  L !! i = None \/ x0 !! i = None ->
  modal_basis trig deltan i L x0 coord (m :: mm) = None.
Proof using.
  intros H. unfold modal_basis.
  destruct (L !! i) as [Li|] eqn:HL.
  - destruct H as [H|H]; [done|].
    rewrite (mapM_total _ (fun m => IZR m * PI / Li)) by done.
    cbn [map mbind option_bind]. rewrite mapM_head_None; [done|]. now rewrite H.
  - now rewrite mapM_head_None.
Qed.

(** X3. Argument errors of the modal evaluators. A grid that does not have
    exactly three components makes both raise, and so does a sequence [N]
    with fewer than three entries on a three-component grid; entries of
    [N] after the third are ignored. The entries of [x0] and [L] are read
    only inside the comprehensions: with a scalar [N >= 1], a vector [x0]
    or [L] with fewer than three entries makes [point_modal] raise,
    whereas with [N <= 0] nothing is read and the scalar zero is returned
    whatever [x0] and [L] are. *)
Theorem point_modal_argument_errors omega x0 n0 L deltan c :
  (forall grid N, length grid <> 3%nat ->
     point_modal omega x0 n0 grid L N deltan c = None /\
     point_modal_velocity omega x0 n0 grid L N deltan c = None) /\
  (forall x y z l, (length l < 3)%nat ->
     point_modal omega x0 n0 [x; y; z] L (Some (NSeq l)) deltan c = None /\
     point_modal_velocity omega x0 n0 [x; y; z] L (Some (NSeq l)) deltan c = None) /\
  (forall grid m n l rest,
     point_modal omega x0 n0 grid L (Some (NSeq (m :: n :: l :: rest))) deltan c
     = point_modal omega x0 n0 grid L (Some (NSeq [m; n; l])) deltan c /\
     point_modal_velocity omega x0 n0 grid L (Some (NSeq (m :: n :: l :: rest))) deltan c
     = point_modal_velocity omega x0 n0 grid L (Some (NSeq [m; n; l])) deltan c) /\
  (forall x y z n, (1 <= n)%Z -> (length x0 < 3)%nat \/ (length L < 3)%nat ->
     point_modal omega x0 n0 [x; y; z] L (Some (NScalar n)) deltan c = None /\
     point_modal_velocity omega x0 n0 [x; y; z] L (Some (NScalar n)) deltan c = None) /\
  (forall x y z n, (n <= 0)%Z ->
     point_modal omega x0 n0 [x; y; z] L (Some (NScalar n)) deltan c
     = Some (scalar C0) /\
     point_modal_velocity omega x0 n0 [x; y; z] L (Some (NScalar n)) deltan c
     = Some [scalar C0; scalar C0; scalar C0]).
Proof using.
  split; [|split; [|split; [|split]]].
  - intros grid N Hlen. unfold point_modal, point_modal_velocity, XyzComponents.
    destruct grid as [|x [|y [|z [|w grid]]]]; try done.
  - intros x y z l Hlen. unfold point_modal, point_modal_velocity, XyzComponents.
    destruct l as [|m [|n [|l' rest]]]; try done. simpl in Hlen. lia.
  - intros grid m n l rest. done.
  - intros x y z n Hn Hshort.
    destruct (range_pos n Hn) as (tl & Htl).
    unfold point_modal, point_modal_velocity, XyzComponents, asarray_1d.
    cbn [mode_ranges mbind option_bind]. rewrite Htl.
    assert (Hmiss : exists i, (i < 3)%nat /\ (L !! i = None \/ x0 !! i = None)).
    { destruct Hshort as [H|H].
      - exists (length x0). split; [done|]. right. now apply lookup_ge_None.
      - exists (length L). split; [done|]. left. now apply lookup_ge_None. }
    destruct Hmiss as (i & Hi & Hmiss).
    split.
    + destruct i as [|[|[|i]]]; [| | |lia].
      * now rewrite (modal_basis_missing cos deltan 0 L x0 x 0%Z tl Hmiss).
      * destruct (modal_basis cos deltan 0 L x0 x (0%Z :: tl)); [|done].
        cbn [mbind option_bind].
        now rewrite (modal_basis_missing cos deltan 1 L x0 y 0%Z tl Hmiss).
      * destruct (modal_basis cos deltan 0 L x0 x (0%Z :: tl)); [|done].
        cbn [mbind option_bind].
        destruct (modal_basis cos deltan 1 L x0 y (0%Z :: tl)); [|done].
        cbn [mbind option_bind].
        now rewrite (modal_basis_missing cos deltan 2 L x0 z 0%Z tl Hmiss).
    + destruct i as [|[|[|i]]]; [| | |lia].
      * now rewrite (modal_basis_missing sin deltan 0 L x0 x 0%Z tl Hmiss).
      * destruct (modal_basis sin deltan 0 L x0 x (0%Z :: tl)); [|done].
        cbn [mbind option_bind].
        now rewrite (modal_basis_missing sin deltan 1 L x0 y 0%Z tl Hmiss).
      * destruct (modal_basis sin deltan 0 L x0 x (0%Z :: tl)); [|done].
        cbn [mbind option_bind].
        destruct (modal_basis sin deltan 1 L x0 y (0%Z :: tl)); [|done].
        cbn [mbind option_bind].
        now rewrite (modal_basis_missing sin deltan 2 L x0 z 0%Z tl Hmiss).
  - intros x y z n Hn.
    unfold point_modal, point_modal_velocity, XyzComponents, asarray_1d.
    cbn [mode_ranges mbind option_bind]. now rewrite (range_empty n Hn).
Qed.

(** X4. The frequency enters the modal evaluators only through [k²] once
    [N] is given: for [-omega] they return exactly what they return for
    [omega]. *)
Theorem point_modal_even_in_frequency omega x0 n0 grid L N deltan c :
  point_modal (- omega) x0 n0 grid L (Some N) deltan c
  = point_modal omega x0 n0 grid L (Some N) deltan c /\
  point_modal_velocity (- omega) x0 n0 grid L (Some N) deltan c
  = point_modal_velocity omega x0 n0 grid L (Some N) deltan c.
Proof using.
  assert (Hk : wavenumber (- omega) c * wavenumber (- omega) c
               = wavenumber omega c * wavenumber omega c).
  { unfold wavenumber, Rdiv. ring. }
  unfold point_modal, point_modal_velocity.
  destruct (XyzComponents grid) as [|x [|y [|z [|w g]]]]; try done.
  assert (HN : mode_ranges (wavenumber (- omega) c) L (Some N)
               = mode_ranges (wavenumber omega c) L (Some N)) by now destruct N.
  rewrite HN, Hk. done.
Qed.

(** ** Symmetries of the modal series *)

Lemma Csum_ext (f h : Z * Z * Z -> C) (ts : list (Z * Z * Z)) :
  (forall t, f t = h t) -> Csum (map f ts) = Csum (map h ts).
Proof using.
  intros H. induction ts as [|t ts IH]; [done|].
  cbn [map Csum foldr]. fold (Csum (map f ts)). fold (Csum (map h ts)).
  now rewrite H, IH.
Qed.

Lemma Csum_zero (f : Z * Z * Z -> C) (ts : list (Z * Z * Z)) :
  (forall t, f t = C0) -> Csum (map f ts) = C0.
Proof using.
  intros H. induction ts as [|t ts IH]; [done|].
  cbn [map Csum foldr]. fold (Csum (map f ts)). rewrite H, IH. apply Cadd_0_l.
Qed.

Lemma Csum_conj (f : Z * Z * Z -> C) (ts : list (Z * Z * Z)) :
  Csum (map (fun t => Cconj (f t)) ts) = Cconj (Csum (map f ts)).
Proof using.
  induction ts as [|t ts IH].
  - unfold Cconj, C0. simpl. f_equal. ring.
  - cbn [map Csum foldr]. fold (Csum (map f ts)).
    fold (Csum (map (fun t => Cconj (f t)) ts)). rewrite IH.
    unfold Cconj. cplx. f_equal; ring.
Qed.

Lemma k_mode_0 (L : R) : k_mode 0 L = 0.
Proof using. unfold k_mode, Rdiv. ring. Qed.

Lemma Cmul_RtoC_0 (z : C) : Cmul z (RtoC 0) = C0.
Proof using. cplx. f_equal; ring. Qed.

Lemma km_sum_zero_mode (deltan : R) :
  km_sum deltan 0 0 0 = RtoC (- (3 * deltan * deltan)).
Proof using. unfold km_sum. cplx. f_equal; ring. Qed.



Lemma zero_mode_not_singular k deltan L0 L1 L2 :
  k * k + 3 * deltan * deltan <> 0 ->
  no_singular_term k deltan L0 L1 L2 (product3 [0%Z] [0%Z] [0%Z]).
Proof using.
  intros H t [<- | []]. unfold term_denominator.
  rewrite !k_mode_0, km_sum_zero_mode, RtoC_sub. intros [= Hz]. lra.
Qed.


Lemma km_sum_conj (deltan kx ky kz : R) :
  km_sum (- deltan) kx ky kz = Cconj (km_sum deltan kx ky kz).
Proof using. unfold km_sum, Cconj. cplx. f_equal; ring. Qed.

Lemma Csub_real_conj (a : R) (w : C) :
  Csub (RtoC a) (Cconj w) = Cconj (Csub (RtoC a) w).
Proof using. unfold Cconj. cplx. f_equal; ring. Qed.

Lemma Cdiv_real_conj (a : R) (d : C) :
  Cdiv (RtoC a) (Cconj d) = Cconj (Cdiv (RtoC a) d).
Proof using.
  unfold Cconj. cplx.
  replace (r * r + - r0 * - r0) with (r * r + r0 * r0) by ring.
  unfold Rdiv. f_equal; ring.
Qed.

Lemma Cmul_conj_real (z : C) (r : R) :
  Cmul (Cconj z) (RtoC r) = Cconj (Cmul z (RtoC r)).
Proof using. unfold Cconj. cplx. f_equal; ring. Qed.

Lemma pressure_term_conj k deltan L0 L1 L2 a0 a1 a2 xv yv zv t :
  pressure_term k (- deltan) L0 L1 L2 a0 a1 a2 xv yv zv t
  = Cconj (pressure_term k deltan L0 L1 L2 a0 a1 a2 xv yv zv t).
Proof using.
  destruct t as [[m n] l]. unfold pressure_term.
  now rewrite km_sum_conj, Csub_real_conj, Cdiv_real_conj, !Cmul_conj_real.
Qed.

Lemma Cconj_eq_0 (z : C) : Cconj z = C0 -> z = C0.
Proof using. unfold Cconj. cplx. intros [= H1 H2]. f_equal; lra. Qed.

Lemma no_singular_term_conj k deltan L0 L1 L2 ts :
  no_singular_term k deltan L0 L1 L2 ts ->
  no_singular_term k (- deltan) L0 L1 L2 ts.
Proof using.
  intros H [[m n] l] Ht Hz. apply (H _ Ht). apply Cconj_eq_0.
  unfold term_denominator in *. now rewrite <- Csub_real_conj, <- km_sum_conj.
Qed.

(** X6. Reversing the sign of the absorption coefficient conjugates the
    pressure of [point_modal]: in a room of non-zero dimensions and with
    no singular term, the fields for [deltan] and for [-deltan] are both
    returned, with the grid's broadcast shape (the scalar zero when the
    product of the mode ranges is empty), and the second is, element by
    element, the complex conjugate of the first. *)
Theorem point_modal_conjugate_in_absorption
    omega a0 a1 a2 n0 x y z L0 L1 L2 N deltan c g mm nn ll :
  np_broadcast_shape [shape x; shape y; shape z] = Some g ->
  L0 <> 0 -> L1 <> 0 -> L2 <> 0 ->
  mode_ranges (wavenumber omega c) [L0; L1; L2] N = Some (mm, nn, ll) ->
  no_singular_term (omega / sound_speed c) deltan L0 L1 L2 (product3 mm nn ll) ->
  exists p q,
    point_modal omega [a0; a1; a2] n0 [x; y; z] [L0; L1; L2] N deltan c = Some p /\
    point_modal omega [a0; a1; a2] n0 [x; y; z] [L0; L1; L2] N (- deltan) c = Some q /\
    shape p = (if product3 mm nn ll is [] then [] else g) /\
    shape q = shape p /\
    forall idx, in_bounds (shape p) idx -> item q idx = Cconj (item p idx).
Proof using.
  intros Hg _ _ _ HN Hns.
  destruct (point_modal_result omega a0 a1 a2 n0 x y z L0 L1 L2 N deltan c g
              mm nn ll Hg HN Hns) as (p & Hp & Hsp & Hbp).
  destruct (point_modal_result omega a0 a1 a2 n0 x y z L0 L1 L2 N (- deltan) c g
              mm nn ll Hg HN (no_singular_term_conj _ _ _ _ _ _ Hns))
    as (q & Hq & Hsq & Hbq).
  exists p, q. split; [done|]. split; [done|]. split; [done|]. split; [congruence|].
  intros idx Hidx.
  rewrite <- !bget_in_bounds by congruence.
  rewrite Hbp, Hbq, <- Csum_conj. apply Csum_ext. intros t. apply pressure_term_conj.
Qed.

Lemma bget_mirror_if (b : bool) (a : ndarray R) (idx : list nat) :
  bget (mirror_if b a) idx = (if b then - bget a idx else bget a idx).
Proof using. now destruct b. Qed.

Lemma shape_mirror_if (b : bool) (a : ndarray R) : shape (mirror_if b a) = shape a.
Proof using. now destruct b. Qed.

Lemma cos_mirror (b : bool) (kx v : R) :
  cos (kx * (if b then - v else v)) = cos (kx * v).
Proof using.
  destruct b; [|done]. replace (kx * - v) with (- (kx * v)) by ring. apply cos_neg.
Qed.

(** X7. The pressure of [point_modal] is even in each coordinate: in a
    room of non-zero dimensions and with no singular term, mirroring any
    of the three grid components at the wall [coordinate = 0] leaves the
    returned field, which has the grid's broadcast shape (and is the
    scalar zero when the product of the mode ranges is empty), unchanged. *)
Theorem point_modal_mirror_symmetric
    omega a0 a1 a2 n0 x y z L0 L1 L2 N deltan c g mm nn ll (bx by_ bz : bool) :
  np_broadcast_shape [shape x; shape y; shape z] = Some g ->
  L0 <> 0 -> L1 <> 0 -> L2 <> 0 ->
  mode_ranges (wavenumber omega c) [L0; L1; L2] N = Some (mm, nn, ll) ->
  no_singular_term (omega / sound_speed c) deltan L0 L1 L2 (product3 mm nn ll) ->
  exists p q,
    point_modal omega [a0; a1; a2] n0 [x; y; z] [L0; L1; L2] N deltan c = Some p /\
    point_modal omega [a0; a1; a2] n0
      [mirror_if bx x; mirror_if by_ y; mirror_if bz z] [L0; L1; L2] N deltan c
    = Some q /\
    shape p = (if product3 mm nn ll is [] then [] else g) /\
    shape q = shape p /\
    forall idx, in_bounds (shape p) idx -> item q idx = item p idx.
Proof using.
  intros Hg _ _ _ HN Hns.
  destruct (point_modal_result omega a0 a1 a2 n0 x y z L0 L1 L2 N deltan c g
              mm nn ll Hg HN Hns) as (p & Hp & Hsp & Hbp).
  destruct (point_modal_result omega a0 a1 a2 n0
              (mirror_if bx x) (mirror_if by_ y) (mirror_if bz z)
              L0 L1 L2 N deltan c g mm nn ll) as (q & Hq & Hsq & Hbq).
  { now rewrite !shape_mirror_if. } { done. } { done. }
  exists p, q. split; [done|]. split; [done|]. split; [done|]. split; [congruence|].
  intros idx Hidx. rewrite <- !bget_in_bounds by congruence.
  rewrite Hbp, Hbq, !bget_mirror_if. apply Csum_ext. intros [[m n] l].
  unfold pressure_term. now rewrite !cos_mirror.
Qed.

Lemma pressure_term_reciprocal k deltan L0 L1 L2 a0 a1 a2 xv yv zv t :
  pressure_term k deltan L0 L1 L2 xv yv zv a0 a1 a2 t
  = pressure_term k deltan L0 L1 L2 a0 a1 a2 xv yv zv t.
Proof using.
  destruct t as [[m n] l]. unfold pressure_term.
  now rewrite (Rmult_comm (cos (k_mode m L0 * a0))),
              (Rmult_comm (cos (k_mode n L1 * a1))),
              (Rmult_comm (cos (k_mode l L2 * a2))).
Qed.

(** X8. Reciprocity of the modal pressure: in a room of non-zero
    dimensions and with no singular term, the pressure that [point_modal]
    returns at a grid point for the source at [x0] is the pressure that it
    returns at the single point [x0] for a source placed at that grid
    point. *)
Theorem point_modal_reciprocity
    omega a0 a1 a2 n0 x y z L0 L1 L2 N deltan c g mm nn ll :
  np_broadcast_shape [shape x; shape y; shape z] = Some g ->
  L0 <> 0 -> L1 <> 0 -> L2 <> 0 ->
  mode_ranges (wavenumber omega c) [L0; L1; L2] N = Some (mm, nn, ll) ->
  no_singular_term (omega / sound_speed c) deltan L0 L1 L2 (product3 mm nn ll) ->
  exists p,
    point_modal omega [a0; a1; a2] n0 [x; y; z] [L0; L1; L2] N deltan c = Some p /\
    shape p = (if product3 mm nn ll is [] then [] else g) /\
    forall idx, in_bounds (shape p) idx ->
      exists q,
        point_modal omega [bget x idx; bget y idx; bget z idx] n0
          [scalar a0; scalar a1; scalar a2] [L0; L1; L2] N deltan c = Some q /\
        shape q = [] /\
        item q [] = item p idx.
Proof using.
  intros Hg _ _ _ HN Hns.
  destruct (point_modal_result omega a0 a1 a2 n0 x y z L0 L1 L2 N deltan c g
              mm nn ll Hg HN Hns) as (p & Hp & Hsp & Hbp).
  exists p. split; [done|]. split; [done|]. intros idx Hidx.
  destruct (point_modal_result omega (bget x idx) (bget y idx) (bget z idx) n0
              (scalar a0) (scalar a1) (scalar a2) L0 L1 L2 N deltan c []
              mm nn ll eq_refl HN Hns) as (q & Hq & Hsq & Hbq).
  assert (Hsq' : shape q = []) by (destruct (product3 mm nn ll); exact Hsq).
  exists q. split; [done|]. split; [done|].
  rewrite <- (bget_in_bounds p) by done. rewrite Hbp.
  assert (Hq0 : item q [] = bget q []).
  { unfold bget. now rewrite Hsq'. }
  rewrite Hq0, Hbq, !bget_scalar. apply Csum_ext. intros t.
  apply pressure_term_reciprocal.
Qed.

Lemma sin_mode_at_wall (m : Z) (L : R) : L <> 0 -> sin (k_mode m L * L) = 0.
Proof using.
  intros HL. apply sin_eq_0_1. exists m. unfold k_mode. field. done.
Qed.

Lemma velocity_term_at_wall k deltan L0 L1 L2 axis ai v t :
  L0 <> 0 -> L1 <> 0 -> L2 <> 0 ->
  v = 0 \/ v = nth axis [L0; L1] L2 ->
  velocity_term k deltan L0 L1 L2 axis ai v t = C0.
Proof using.
  intros H0 H1 H2 Hv. destruct t as [[m n] l]. unfold velocity_term, k_axis.
  assert (Hsin : sin (match axis with
                      | 0%nat => k_mode m L0 | 1%nat => k_mode n L1 | _ => k_mode l L2
                      end * v) = 0).
  { destruct Hv as [-> | ->]; [now rewrite Rmult_0_r, sin_0|].
    destruct axis as [|[|[|?]]]; now apply sin_mode_at_wall. }
  now rewrite Hsin, Rmult_0_l, Cmul_RtoC_0.
Qed.

(** X9. Rigid walls: the velocity component normal to a wall vanishes on
    it.  In a room of non-zero dimensions and with no singular term, each
    component that [point_modal_velocity] returns has the shape of its own
    axis's grid component (and is a scalar when the product of the mode
    ranges is empty); wherever the x coordinate of a grid point is [0] or
    [L[0]], the x-velocity is zero, and likewise for y and z with [L[1]]
    and [L[2]]. *)
Theorem normal_velocity_vanishes_on_walls
    omega a0 a1 a2 n0 x y z L0 L1 L2 N deltan c mm nn ll :
  mode_ranges (wavenumber omega c) [L0; L1; L2] N = Some (mm, nn, ll) ->
  L0 <> 0 -> L1 <> 0 -> L2 <> 0 ->
  no_singular_term (omega / sound_speed c) deltan L0 L1 L2 (product3 mm nn ll) ->
  exists vx vy vz,
    point_modal_velocity omega [a0; a1; a2] n0 [x; y; z] [L0; L1; L2] N deltan c
    = Some [vx; vy; vz] /\
    (shape vx = (if product3 mm nn ll is [] then [] else shape x) /\
     shape vy = (if product3 mm nn ll is [] then [] else shape y) /\
     shape vz = (if product3 mm nn ll is [] then [] else shape z)) /\
    (forall idx, in_bounds (shape vx) idx ->
       bget x idx = 0 \/ bget x idx = L0 -> item vx idx = C0) /\
    (forall idx, in_bounds (shape vy) idx ->
       bget y idx = 0 \/ bget y idx = L1 -> item vy idx = C0) /\
    (forall idx, in_bounds (shape vz) idx ->
       bget z idx = 0 \/ bget z idx = L2 -> item vz idx = C0).
Proof using.
  intros HN H0 H1 H2 Hns.
  destruct (point_modal_velocity_result omega a0 a1 a2 n0 x y z L0 L1 L2 N deltan c
              mm nn ll HN Hns) as (vx & vy & vz & Hv & Hs & Hb).
  exists vx, vy, vz. split; [done|]. split; [exact Hs|].
  repeat split; intros idx Hidx Hwall; rewrite <- bget_in_bounds by done;
    destruct (Hb idx) as (Hx & Hy & Hz); rewrite ?Hx, ?Hy, ?Hz;
    apply Csum_zero; intros t; now apply velocity_term_at_wall.
Qed.

(** ** Point source and plane wave *)

Lemma Cmod_Cmul_real (z : C) (n : R) : Cmod (Cmul z (RtoC n)) = Cmod z * Rabs n.
Proof using.
  unfold Cmod. cplx.
  replace ((r * n - r0 * 0) * (r * n - r0 * 0) + (r * 0 + r0 * n) * (r * 0 + r0 * n))
    with ((r * r + r0 * r0) * Rsqr n) by (unfold Rsqr; ring).
  rewrite sqrt_mult; [|nra|apply Rle_0_sqr]. now rewrite sqrt_Rsqr_abs.
Qed.

Lemma Cdiv_as_Cmul (z : C) (d : R) : d <> 0 -> Cdiv z (RtoC d) = Cmul z (RtoC (1 / d)).
Proof using. intros H. cplx. f_equal; field; nra. Qed.

Lemma Cmod_point_pressure (k r : R) :
  0 < r -> Cmod (point_pressure k r) = 1 / (4 * PI * r).
Proof using.
  intros Hr. pose proof PI_RGT_0 as Hpi. unfold point_pressure.
  assert (Hd : 0 < 4 * PI * r) by nra.
  rewrite Cdiv_as_Cmul by lra. rewrite Cmod_Cmul_real, Cmod_Cexp_imag, Rmult_1_l.
  apply Rabs_pos_eq. apply Rlt_le. apply Rdiv_lt_0_compat; lra.
Qed.

(** X10. The free-field point source: on a broadcast-compatible grid,
    at every grid point at distance [r > 0] from [x0] the pressure is
    [exp(−jkr)/(4πr)], of modulus [1/(4πr)]: the amplitude depends on the
    distance only and not on the frequency. *)
Theorem point_closed_form omega a0 a1 a2 n0 x y z c g :
  np_broadcast_shape [shape x; shape y; shape z] = Some g ->
  exists p,
    point omega [a0; a1; a2] n0 [x; y; z] c = Some p /\
    shape p = g /\
    forall idx, in_bounds g idx ->
      let r := dist3 a0 a1 a2 (bget x idx) (bget y idx) (bget z idx) in
      0 < r ->
      item p idx = point_pressure (omega / sound_speed c) r /\
      Cmod (item p idx) = 1 / (4 * PI * r).
Proof using.
  intros Hg.
  destruct (point_result omega a0 a1 a2 n0 x y z c g Hg) as (p & Hp & Hs & Hb).
  exists p. split; [done|]. split; [done|]. intros idx Hidx r Hr.
  rewrite <- bget_in_bounds by (rewrite Hs; done).
  rewrite Hb. fold r. rewrite point_pressure_eval_value by lra.
  split; [done|]. now apply Cmod_point_pressure.
Qed.

Lemma bop_None {A B D} (f : A -> B -> D) (a : ndarray A) (b : ndarray B) :
  broadcast_shapes (shape a) (shape b) = None -> bop f a b = None.
Proof using. intros H. unfold bop. now rewrite H. Qed.

Lemma np_broadcast_shape_3_None (sx sy sz : list nat) :
  np_broadcast_shape [sx; sy; sz] = None ->
  broadcast_shapes sx sy = None \/
  exists sxy, broadcast_shapes sx sy = Some sxy /\ broadcast_shapes sxy sz = None.
Proof using.
  change (np_broadcast_shape [sx; sy; sz])
    with ((broadcast_shapes [] sx ≫= fun g => broadcast_shapes g sy)
            ≫= fun g => broadcast_shapes g sz).
  rewrite broadcast_shapes_nil_l.
  change (Some sx ≫= fun g => broadcast_shapes g sy) with (broadcast_shapes sx sy).
  destruct (broadcast_shapes sx sy) as [sxy|]; [|now left].
  intros H. right. now exists sxy.
Qed.

(** The sum of three arrays whose shapes cannot be broadcast together
    raises. *)
Lemma sum_arrays_3_None (u v w : ndarray R) :
  np_broadcast_shape [shape u; shape v; shape w] = None ->
  sum_arrays [u; v; w] = None.
Proof using.
  intros [H | (suv & Huv & H)]%np_broadcast_shape_3_None; cbn [sum_arrays foldlM].
  - now rewrite (bop_None _ _ _ H).
  - destruct (bop_ok Rplus u v suv Huv) as (s1 & -> & Hs1 & _).
    cbn [mbind option_bind]. rewrite bop_None; [done|]. now rewrite Hs1.
Qed.

Lemma norm_3_None (dx dy dz : ndarray R) :
  np_broadcast_shape [shape dx; shape dy; shape dz] = None ->
  norm [dx; dy; dz] = None.
Proof using.
  intros H. unfold norm. cbn [mapM].
  destruct (bop_self Rmult dx) as (qx & -> & Hsx & _).
  destruct (bop_self Rmult dy) as (qy & -> & Hsy & _).
  destruct (bop_self Rmult dz) as (qz & -> & Hsz & _).
  cbn [mbind option_bind mret option_ret].
  rewrite sum_arrays_3_None; [done|]. now rewrite Hsx, Hsy, Hsz.
Qed.

(** X11. A grid whose three components cannot be broadcast together makes
    [point], [point_velocity], [plane] and [line] raise. *)
Theorem incompatible_grid_raises omega a0 a1 a2 b0 b1 b2 x y z c :
  np_broadcast_shape [shape x; shape y; shape z] = None ->
  point omega [a0; a1; a2] [b0; b1; b2] [x; y; z] c = None /\
  point_velocity omega [a0; a1; a2] [b0; b1; b2] [x; y; z] c = None /\
  plane omega [a0; a1; a2] [b0; b1; b2] [x; y; z] c = None /\
  line omega [a0; a1; a2] [b0; b1; b2] [x; y; z] c = None.
Proof using.
  intros Hg.
  assert (Hnorm : norm [amap (fun v => v - a0) x; amap (fun v => v - a1) y;
                        amap (fun v => v - a2) z] = None)
    by now apply norm_3_None.
  split; [|split; [|split]].
  - unfold point, asarray_1d, XyzComponents. rewrite xyz_sub_3.
    cbn [mbind option_bind]. now rewrite Hnorm.
  - unfold point_velocity, asarray_1d, XyzComponents. rewrite xyz_sub_3.
    cbn [mbind option_bind]. now rewrite Hnorm.
  - unfold plane, asarray_1d, XyzComponents, inner. rewrite xyz_sub_3.
    cbn [mbind option_bind length Nat.eqb zip_with].
    now rewrite sum_arrays_3_None.
  - unfold line, asarray_1d, XyzComponents. cbn [take]. rewrite xyz_sub_2.
    cbn [mbind option_bind].
    destruct (np_broadcast_shape_3_None _ _ _ Hg) as [H | (sxy & Hxy & H)].
    + unfold norm. cbn [mapM].
      destruct (bop_self Rmult (amap (fun v => v - a0) x)) as (qx & -> & Hsx & _).
      destruct (bop_self Rmult (amap (fun v => v - a1) y)) as (qy & -> & Hsy & _).
      cbn [mbind option_bind mret option_ret sum_arrays foldlM].
      rewrite bop_None; [done|]. now rewrite Hsx, Hsy.
    + destruct (norm_2 (amap (fun v => v - a0) x) (amap (fun v => v - a1) y) sxy Hxy)
        as (r & -> & _).
      cbn [mbind option_bind]. unfold _duplicate_zdirection. cbn [map].
      now rewrite Hg.
Qed.

(** X12. A grid whose components cannot be broadcast together makes
    [point_modal] raise as soon as there is a mode to sum, whereas
    [point_modal_velocity], which never combines two grid components,
    returns its three fields all the same when no term is singular (in a
    room of non-zero dimensions), each with the shape of its own axis's
    grid component. *)
Theorem incompatible_grid_modal
    omega a0 a1 a2 n0 x y z L0 L1 L2 N deltan c mm nn ll :
  np_broadcast_shape [shape x; shape y; shape z] = None ->
  L0 <> 0 -> L1 <> 0 -> L2 <> 0 ->
  mode_ranges (wavenumber omega c) [L0; L1; L2] N = Some (mm, nn, ll) ->
  mm <> [] -> nn <> [] -> ll <> [] ->
  point_modal omega [a0; a1; a2] n0 [x; y; z] [L0; L1; L2] N deltan c = None /\
  (no_singular_term (omega / sound_speed c) deltan L0 L1 L2 (product3 mm nn ll) ->
   exists vx vy vz,
     point_modal_velocity omega [a0; a1; a2] n0 [x; y; z] [L0; L1; L2] N deltan c
     = Some [vx; vy; vz] /\
     shape vx = shape x /\ shape vy = shape y /\ shape vz = shape z).
Proof using.
  intros Hg _ _ _ HN Hm Hn Hl. split.
  - rewrite (point_modal_unfold _ _ _ _ _ _ _ _ _ _ _ _ _ _ _ _ _ HN).
    pose proof (product3_not_nil mm nn ll Hm Hn Hl) as Hne.
    destruct (product3 mm nn ll) as [|[[m n] l] ts]; [done|].
    cbn [map foldlM mode_entries basis_entry point_modal_step].
    destruct (py_div _ _) as [a|]; [|done]. cbn [mbind option_bind].
    unfold mulCR.
    destruct (np_broadcast_shape_3_None _ _ _ Hg) as [H | (sxy & Hxy & H)].
    + rewrite bop_None; done.
    + match goal with |- context [bop ?f ?u ?v ≫= _] =>
        destruct (bop_ok f u v sxy Hxy) as (t1 & -> & Hs1 & _) end.
      cbn [mbind option_bind]. rewrite bop_None; [done|]. now rewrite Hs1.
  - intros Hns.
    destruct (point_modal_velocity_result omega a0 a1 a2 n0 x y z L0 L1 L2 N deltan c
                mm nn ll HN Hns) as (vx & vy & vz & Hv & (Hx & Hy & Hz) & _).
    exists vx, vy, vz. split; [done|].
    pose proof (product3_not_nil mm nn ll Hm Hn Hl).
    destruct (product3 mm nn ll); done.
Qed.


(** X13. The velocity of a plane wave: each component is the pressure
    divided by [defs.rho0·defs.c] and multiplied by the matching entry of
    [n0]; when [defs.rho0·defs.c] is not zero its modulus is
    [|n0_i| / |defs.rho0·defs.c|] at every grid point, so a direction
    entry equal to zero gives a velocity component that vanishes
    everywhere. *)
Theorem plane_velocity_amplitude omega a0 a1 a2 b0 b1 b2 x y z c g :
  np_broadcast_shape [shape x; shape y; shape z] = Some g ->
  defs_rho0 * defs_c <> 0 ->
  exists p vx vy vz,
    plane omega [a0; a1; a2] [b0; b1; b2] [x; y; z] c = Some p /\
    plane_velocity omega [a0; a1; a2] [b0; b1; b2] [x; y; z] c = Some [vx; vy; vz] /\
    forall idx, in_bounds g idx ->
      let scaled b := Cmul (Cdiv (item p idx) (RtoC (defs_rho0 * defs_c))) (RtoC b) in
      (item vx idx = scaled b0 /\ Cmod (item vx idx) = Rabs b0 / Rabs (defs_rho0 * defs_c)) /\
      (item vy idx = scaled b1 /\ Cmod (item vy idx) = Rabs b1 / Rabs (defs_rho0 * defs_c)) /\
      (item vz idx = scaled b2 /\ Cmod (item vz idx) = Rabs b2 / Rabs (defs_rho0 * defs_c)).
Proof using.
  intros Hg HZ.
  destruct (plane_result omega a0 a1 a2 b0 b1 b2 x y z c g Hg) as (p & Hp & Hs & Hb).
  unfold plane_velocity. rewrite Hp. cbn [mbind option_bind map XyzComponents].
  eexists p, _, _, _. split; [done|]. split; [reflexivity|].
  intros idx Hidx.
  assert (Hmod : forall b,
    Cmod (Cmul (Cdiv (item p idx) (RtoC (defs_rho0 * defs_c))) (RtoC b))
    = Rabs b / Rabs (defs_rho0 * defs_c)).
  { intros b. rewrite Cmod_Cmul_real, Cdiv_as_Cmul, Cmod_Cmul_real by done.
    rewrite <- (bget_in_bounds p) by (rewrite Hs; done).
    rewrite Hb. unfold plane_pressure. rewrite Cmod_Cexp_imag.
    unfold Rdiv. rewrite Rmult_1_l, Rmult_1_l, Rabs_inv. ring. }
  cbn [amap item]. repeat split; apply Hmod.
Qed.

Lemma plane_pressure_period (k t : R) :
  k <> 0 -> plane_pressure k (t + 2 * PI / k) = plane_pressure k t.
Proof using.
  intros Hk. unfold plane_pressure. rewrite !Cmul_negi. unfold Cexp, Re, Im.
  cbn [fst snd].
  replace (- (k * (t + 2 * PI / k))) with (- (k * t) - 2 * PI) by (field; done).
  set (u := - (k * t) - 2 * PI).
  replace (- (k * t)) with (u + 2 * INR 1 * PI) by (subst u; simpl; ring).
  now rewrite cos_period, sin_period.
Qed.

(** X14. The plane wave is periodic along its direction with the
    wavelength [2π/k]: for a unit vector [n0] and [k <> 0], moving every
    grid point by [2π/k] along [n0] leaves the pressure field unchanged. *)
Theorem plane_wavelength omega a0 a1 a2 b0 b1 b2 x y z c g :
  np_broadcast_shape [shape x; shape y; shape z] = Some g ->
  let k := omega / sound_speed c in
  k <> 0 -> b0 * b0 + b1 * b1 + b2 * b2 = 1 ->
  exists p q,
    plane omega [a0; a1; a2] [b0; b1; b2] [x; y; z] c = Some p /\
    plane omega [a0; a1; a2] [b0; b1; b2]
      [shifted (2 * PI / k * b0) x; shifted (2 * PI / k * b1) y;
       shifted (2 * PI / k * b2) z] c = Some q /\
    shape q = shape p /\
    forall idx, in_bounds g idx -> item q idx = item p idx.
Proof using.
  intros Hg k Hk Hunit.
  destruct (plane_result omega a0 a1 a2 b0 b1 b2 x y z c g Hg) as (p & Hp & Hs & Hb).
  destruct (plane_result omega a0 a1 a2 b0 b1 b2
              (shifted (2 * PI / k * b0) x) (shifted (2 * PI / k * b1) y)
              (shifted (2 * PI / k * b2) z) c g Hg) as (q & Hq & Hsq & Hbq).
  exists p, q. split; [done|]. split; [done|]. split; [congruence|].
  intros idx Hidx. rewrite <- !bget_in_bounds by congruence.
  rewrite Hb, Hbq. unfold shifted. rewrite !bget_amap. fold k.
  assert (Ht : inner3 a0 a1 a2 b0 b1 b2 (bget x idx + 2 * PI / k * b0)
                 (bget y idx + 2 * PI / k * b1) (bget z idx + 2 * PI / k * b2)
               = inner3 a0 a1 a2 b0 b1 b2 (bget x idx) (bget y idx) (bget z idx)
                 + 2 * PI / k).
  { unfold inner3.
    transitivity ((bget x idx - a0) * b0 + (bget y idx - a1) * b1
                  + (bget z idx - a2) * b2
                  + 2 * PI / k * (b0 * b0 + b1 * b1 + b2 * b2)).
    - unfold Rdiv. ring.
    - rewrite Hunit. ring. }
  rewrite Ht. now apply plane_pressure_period.
Qed.

(** X15. The free field of [point] depends on the grid and the source
    position only through their difference: moving the source and every
    grid point by the same vector leaves the field unchanged. *)
Theorem point_translation_invariant omega a0 a1 a2 t0 t1 t2 n0 x y z c g :
  np_broadcast_shape [shape x; shape y; shape z] = Some g ->
  exists p q,
    point omega [a0; a1; a2] n0 [x; y; z] c = Some p /\
    point omega [a0 + t0; a1 + t1; a2 + t2] n0
      [shifted t0 x; shifted t1 y; shifted t2 z] c = Some q /\
    shape q = shape p /\
    forall idx, in_bounds g idx -> item q idx = item p idx.
Proof using.
  intros Hg.
  destruct (point_result omega a0 a1 a2 n0 x y z c g Hg) as (p & Hp & Hs & Hb).
  destruct (point_result omega (a0 + t0) (a1 + t1) (a2 + t2) n0
              (shifted t0 x) (shifted t1 y) (shifted t2 z) c g Hg)
    as (q & Hq & Hsq & Hbq).
  exists p, q. split; [done|]. split; [done|]. split; [congruence|].
  intros idx Hidx. rewrite <- !bget_in_bounds by congruence.
  rewrite Hb, Hbq. unfold shifted. rewrite !bget_amap. f_equal.
  unfold dist3. f_equal. ring.
Qed.

Lemma radial_exchange (z : C) (a b r : R) :
  Cmul (Cdiv (Cmul z (RtoC a)) (RtoC r)) (RtoC b)
  = Cmul (Cdiv (Cmul z (RtoC b)) (RtoC r)) (RtoC a).
Proof using. cplx. unfold Rdiv. f_equal; ring. Qed.

(** X16. [point_velocity] builds on [point]: each component is the
    pressure that [point] returns, times
    [(1 + jkr)/(defs.rho0·defs.c·j·k·r)], times the offset along its axis,
    over [r]. The three components share one complex factor, so the
    velocity is parallel to the offset [grid − x0]. *)
Theorem point_velocity_is_radial omega a0 a1 a2 n0 x y z c g :
  np_broadcast_shape [shape x; shape y; shape z] = Some g ->
  exists p vx vy vz,
    point omega [a0; a1; a2] n0 [x; y; z] c = Some p /\
    point_velocity omega [a0; a1; a2] n0 [x; y; z] c = Some [vx; vy; vz] /\
    forall idx, in_bounds g idx ->
      let k := omega / sound_speed c in
      let r := dist3 a0 a1 a2 (bget x idx) (bget y idx) (bget z idx) in
      let ox := bget x idx - a0 in
      let oy := bget y idx - a1 in
      let oz := bget z idx - a2 in
      let f := Cdiv (Cadd (RtoC 1) (Cmul (Cmul Ci (RtoC k)) (RtoC r)))
                    (Cmul (Cmul (Cmul (RtoC (defs_rho0 * defs_c)) Ci) (RtoC k)) (RtoC r)) in
      (item vx idx = Cdiv (Cmul (Cmul (item p idx) f) (RtoC ox)) (RtoC r) /\
       item vy idx = Cdiv (Cmul (Cmul (item p idx) f) (RtoC oy)) (RtoC r) /\
       item vz idx = Cdiv (Cmul (Cmul (item p idx) f) (RtoC oz)) (RtoC r)) /\
      Cmul (item vx idx) (RtoC oy) = Cmul (item vy idx) (RtoC ox) /\
      Cmul (item vy idx) (RtoC oz) = Cmul (item vz idx) (RtoC oy) /\
      Cmul (item vx idx) (RtoC oz) = Cmul (item vz idx) (RtoC ox).
Proof using.
  intros Hg.
  destruct (point_result omega a0 a1 a2 n0 x y z c g Hg) as (p & Hp & Hs & Hb).
  destruct (point_velocity_result omega a0 a1 a2 n0 x y z c g Hg)
    as (vx & vy & vz & Hv & (Hx & Hy & Hz) & Hbv).
  exists p, vx, vy, vz. split; [done|]. split; [done|]. intros idx Hidx. cbn zeta.
  rewrite <- !bget_in_bounds by congruence.
  destruct (Hbv idx) as (-> & -> & ->). rewrite Hb.
  unfold point_velocity_eval. split; [done|].
  split; [|split]; apply radial_exchange.
Qed.

(** ** The line sources and the z-duplication *)

(** X17. The line evaluators do not look at the third entry of [x0], at
    the values of the z component of the grid, or (for the dipole) at the
    third entry of [n0]: calls that differ only there return the same
    result, provided the z components have the same shape. *)
Theorem line_sources_ignore_z omega a0 a1 a2 a2' b0 b1 b2 b2' x y z z' c :
  shape z' = shape z ->
  line omega [a0; a1; a2'] [b0; b1; b2'] [x; y; z'] c
  = line omega [a0; a1; a2] [b0; b1; b2] [x; y; z] c /\
  line_velocity omega [a0; a1; a2'] [b0; b1; b2'] [x; y; z'] c
  = line_velocity omega [a0; a1; a2] [b0; b1; b2] [x; y; z] c /\
  line_dipole omega [a0; a1; a2'] [b0; b1; b2'] [x; y; z'] c
  = line_dipole omega [a0; a1; a2] [b0; b1; b2] [x; y; z] c.
Proof using.
  intros Hz.
  assert (Hdup : forall A (q : ndarray A),
    _duplicate_zdirection q [x; y; z'] = _duplicate_zdirection q [x; y; z]).
  { intros A q. unfold _duplicate_zdirection. cbn [map]. now rewrite Hz. }
  split; [|split].
  - unfold line, asarray_1d, XyzComponents. cbn [take].
    destruct (xyz_sub [x; y] [a0; a1]) as [d|]; [|done]. cbn [mbind option_bind].
    destruct (norm d) as [r|]; [|done]. cbn [mbind option_bind]. apply Hdup.
  - unfold line_velocity, asarray_1d, XyzComponents. cbn [take length].
    destruct (xyz_sub [x; y] [a0; a1]) as [d|]; [|done]. cbn [mbind option_bind].
    destruct (norm d) as [r|]; [|done]. cbn [mbind option_bind].
    match goal with |- context [mapM ?f d] => destruct (mapM f d) as [v|]; [|done] end.
    cbn [mbind option_bind].
    destruct (v !! 0%nat) as [v0|]; [|done]. cbn [mbind option_bind].
    destruct (v !! 1%nat) as [v1|]; [|done]. cbn [mbind option_bind].
    destruct (decide (shape v0 = shape v1)); [|done].
    apply mapM_ext. intros vi. apply Hdup.
  - unfold line_dipole, asarray_1d, XyzComponents. cbn [take].
    destruct (xyz_sub [x; y] [a0; a1]) as [d|]; [|done]. cbn [mbind option_bind].
    destruct (norm d) as [r|]; [|done]. cbn [mbind option_bind].
    destruct (inner d [b0; b1]) as [i|]; [|done]. cbn [mbind option_bind].
    match goal with |- context [mulCR ?h i] => destruct (mulCR h i) as [t|]; [|done] end.
    cbn [mbind option_bind].
    destruct (divCR t r) as [q|]; [|done]. cbn [mbind option_bind]. apply Hdup.
Qed.

Lemma size_of_app (a b : list nat) : size_of (a ++ b) = (size_of a * size_of b)%nat.
Proof using.
  induction a as [|d a IH]; simpl; [lia|]. fold (size_of (a ++ b)). fold (size_of a).
  rewrite IH. lia.
Qed.

Lemma size_of_ones (k : nat) : size_of (replicate k 1%nat) = 1%nat.
Proof using.
  induction k as [|k IH]; [done|]. simpl. fold (size_of (replicate k 1%nat)). lia.
Qed.

Lemma size_of_pad_shape (d : nat) (s : list nat) : size_of (pad_shape d s) = size_of s.
Proof using. unfold pad_shape. rewrite size_of_app, size_of_ones. lia. Qed.

Lemma length_pad_shape (d : nat) (s : list nat) :
  length (pad_shape d s) = Nat.max d (length s).
Proof using. unfold pad_shape. rewrite length_app, length_replicate. lia. Qed.

Lemma size_of_zip_mul (a b : list nat) :
  length a = length b ->
  size_of (zip_with Nat.mul a b) = (size_of a * size_of b)%nat.
Proof using.
  revert b. induction a as [|d a IH]; intros [|e b] H; try done.
  simpl. fold (size_of (zip_with Nat.mul a b)). fold (size_of a). fold (size_of b).
  rewrite IH by (simpl in H; lia). lia.
Qed.

Lemma size_of_tile_shape (s reps : list nat) :
  size_of (tile_shape s reps) = (size_of s * size_of reps)%nat.
Proof using.
  unfold tile_shape. rewrite size_of_zip_mul, !size_of_pad_shape; [done|].
  rewrite !length_pad_shape. lia.
Qed.

(** X18. The z-duplication. It raises when the grid components cannot be
    broadcast together, returns its argument untouched when the grid's
    broadcast shape has at most two dimensions, and otherwise returns an
    array with at least three dimensions that holds [gridshape[2]] times
    as many elements as its argument, whatever the shape of the argument
    is. *)
Theorem z_duplication_cases {A B} (p : ndarray A) (grid : list (ndarray B)) :
  (np_broadcast_shape (map shape grid) = None ->
   _duplicate_zdirection p grid = None) /\
  (forall g, np_broadcast_shape (map shape grid) = Some g ->
     ((length g <= 2)%nat -> _duplicate_zdirection p grid = Some p) /\
     ((2 < length g)%nat ->
      exists q,
        _duplicate_zdirection p grid = Some q /\
        length (shape q) = Nat.max 3 (length (shape p)) /\
        size_of (shape q) = (size_of (shape p) * nth 2 g 0)%nat)).
Proof using.
  split.
  - intros H. unfold _duplicate_zdirection. now rewrite H.
  - intros g Hg. rewrite (duplicate_zdirection_grid p grid g Hg). split.
    + intros Hlen. now rewrite z_duplicated_flat.
    + intros Hlen. eexists. split; [reflexivity|]. unfold z_duplicated.
      destruct (Nat.ltb_spec 2 (length g)); [|lia].
      cbn [np_tile shape]. split.
      * unfold tile_shape. rewrite length_zip_with, !length_pad_shape.
        cbn [length]. lia.
      * rewrite size_of_tile_shape. cbn. lia.
Qed.

(** The 2D result of [line_dipole] and what the evaluator makes of it. *)
Lemma line_dipole_items omega a0 a1 a2 b0 b1 b2 x y z c sxy g :
  broadcast_shapes (shape x) (shape y) = Some sxy ->
  np_broadcast_shape [shape x; shape y; shape z] = Some g ->
  exists p2,
    shape p2 = sxy /\
    (forall idx, item p2 idx
       = line_dipole_eval (omega / sound_speed c)
           (dist2 a0 a1 (bget x idx) (bget y idx))
           (bget x idx - a0) (bget y idx - a1) b0 b1) /\
    line_dipole omega [a0; a1; a2] [b0; b1; b2] [x; y; z] c
    = Some (z_duplicated g p2).
Proof using hankel2.
  intros Hxy Hg. unfold line_dipole, asarray_1d, XyzComponents.
  cbn [take]. rewrite xyz_sub_2. cbn [mbind option_bind].
  destruct (norm_2 (amap (fun v => v - a0) x) (amap (fun v => v - a1) y) sxy Hxy)
    as (r & -> & Hs & Hi & Hb).
  cbn [mbind option_bind].
  destruct (inner_2 (amap (fun v => v - a0) x) (amap (fun v => v - a1) y) b0 b1 sxy Hxy)
    as (i & -> & Hsi & Hbi).
  cbn [mbind option_bind]. unfold mulCR, divCR.
  match goal with |- context [bop ?f ?u i] =>
    destruct (bop_ok f u i sxy) as (t & -> & Hst & Hbt) end.
  { cbn [amap shape]. rewrite Hs, Hsi. apply broadcast_shapes_refl. }
  cbn [mbind option_bind].
  match goal with |- context [bop ?f t r] =>
    destruct (bop_ok_item f t r sxy) as (p & -> & Hsp & Hip & _) end.
  { rewrite Hst, Hs. apply broadcast_shapes_refl. }
  cbn [mbind option_bind].
  rewrite (duplicate_zdirection_grid _ [x; y; z] g Hg).
  exists p. split; [done|]. split; [|done]. intros idx.
  rewrite Hip, Hbt, !bget_amap, Hb, Hbi, !bget_amap. done.
Qed.

Lemma Cdiv_Cmul_0 (z : C) (r : R) : Cdiv (Cmul z (RtoC 0)) (RtoC r) = C0.
Proof using. cplx. unfold Rdiv. f_equal; ring. Qed.

(** X19. The line dipole: on a grid of which the z-duplication restores
    the broadcast shape, [line_dipole] returns a field of that shape, and
    its element at every point off the source line (in-plane distance
    [r > 0]) is [jk/4 · H1(k·r) · ⟨offset, n0⟩ / r] with the in-plane offset
    and orientation, read from the 2D result; there it is zero wherever
    the offset is orthogonal to the orientation [n0] (the null of the
    dipole). *)
Theorem line_dipole_pattern omega a0 a1 a2 b0 b1 b2 x y z c sxy g :
  broadcast_shapes (shape x) (shape y) = Some sxy ->
  np_broadcast_shape [shape x; shape y; shape z] = Some g ->
  duplication_fits sxy g ->
  exists p,
    line_dipole omega [a0; a1; a2] [b0; b1; b2] [x; y; z] c = Some p /\
    shape p = g /\
    forall idx, in_bounds g idx ->
      let src := z_source g sxy idx in
      let ox := bget x src - a0 in
      let oy := bget y src - a1 in
      let r := dist2 a0 a1 (bget x src) (bget y src) in
      0 < r ->
      item p idx = line_dipole_eval (omega / sound_speed c) r ox oy b0 b1 /\
      (ox * b0 + oy * b1 = 0 -> item p idx = C0).
Proof using hankel2.
  intros Hxy Hg Hfit.
  destruct (line_dipole_items omega a0 a1 a2 b0 b1 b2 x y z c sxy g Hxy Hg)
    as (p2 & Hs & Hi & Hline).
  eexists. split; [exact Hline|]. split; [now apply (z_duplicated_fits _ sxy)|].
  intros idx _. cbn zeta. intros _.
  rewrite item_z_duplicated, Hs, Hi. split; [done|].
  intros H0. unfold line_dipole_eval. rewrite H0. apply Cdiv_Cmul_0.
Qed.

(** X21. The direction [n0] is only there for compatibility in the point,
    modal and line evaluators, which return the same result for any two
    values of it; [plane] and [plane_velocity] use it and raise when, on a
    three-component grid with a three-entry [x0], it does not have three
    entries. *)
Theorem direction_argument omega a0 a1 a2 n0 n0' x y z L N deltan c :
  point omega [a0; a1; a2] n0 [x; y; z] c
  = point omega [a0; a1; a2] n0' [x; y; z] c /\
  point_velocity omega [a0; a1; a2] n0 [x; y; z] c
  = point_velocity omega [a0; a1; a2] n0' [x; y; z] c /\
  point_modal omega [a0; a1; a2] n0 [x; y; z] L N deltan c
  = point_modal omega [a0; a1; a2] n0' [x; y; z] L N deltan c /\
  point_modal_velocity omega [a0; a1; a2] n0 [x; y; z] L N deltan c
  = point_modal_velocity omega [a0; a1; a2] n0' [x; y; z] L N deltan c /\
  line omega [a0; a1; a2] n0 [x; y; z] c
  = line omega [a0; a1; a2] n0' [x; y; z] c /\
  line_velocity omega [a0; a1; a2] n0 [x; y; z] c
  = line_velocity omega [a0; a1; a2] n0' [x; y; z] c /\
  (length n0 <> 3%nat ->
   plane omega [a0; a1; a2] n0 [x; y; z] c = None /\
   plane_velocity omega [a0; a1; a2] n0 [x; y; z] c = None).
Proof using.
  repeat (split; [reflexivity|]). intros Hlen.
  assert (Hp : plane omega [a0; a1; a2] n0 [x; y; z] c = None).
  { unfold plane, asarray_1d, XyzComponents, inner. rewrite xyz_sub_3.
    cbn [mbind option_bind length].
    destruct (Nat.eqb_spec 3 (length n0)); [congruence|done]. }
  split; [done|]. unfold plane_velocity. now rewrite Hp.
Qed.
End Source.

(** * Concrete evaluations *)

Lemma array1_one_point (idx : list nat) :
  in_bounds [1%nat] idx -> idx = [0%nat].
Proof.
  intros H. inversion H as [|i d idx' s Hlt Hrest]; subst.
  inversion Hrest; subst. f_equal. lia.
Qed.

Lemma dist3_unit : dist3 0 0 0 1 0 0 = 1.
Proof.
  unfold dist3.
  replace ((1 - 0) * (1 - 0) + (0 - 0) * (0 - 0) + (0 - 0) * (0 - 0)) with (1 * 1)
    by ring.
  apply sqrt_square. lra.
Qed.

Lemma dist2_unit : dist2 0 0 1 0 = 1.
Proof.
  unfold dist2.
  replace ((1 - 0) * (1 - 0) + (0 - 0) * (0 - 0)) with (1 * 1) by ring.
  apply sqrt_square. lra.
Qed.

(** The mode triples of a scalar order [N] have non-negative indices. *)
Lemma range_modes_nonneg (N m n l : Z) :
  In (m, n, l) (product3 (range N) (range N) (range N)) ->
  (0 <= m)%Z /\ (0 <= n)%Z /\ (0 <= l)%Z.
Proof.
  intros (Hm & Hn & Hl)%In_product3. apply In_range in Hm, Hn, Hl. lia.
Qed.

(** In the 4 x 3 x 2 room with the absorption coefficient 1 no term of a
    sum up to a scalar order is singular, whatever the frequency. *)
Lemma absorbing_room_no_singular_term (k : R) (N : Z) :
  no_singular_term k 1 4 3 2 (product3 (range N) (range N) (range N)).
Proof.
  apply absorbing_walls_no_singular_term; try lra. apply range_modes_nonneg.
Qed.

(** In the rigid 4 x 3 x 2 room the wavenumber 3 lies above the eight
    modes of order below 2: [3² = 9] exceeds [π²·(1/16 + 1/9 + 1/4)]. *)
Lemma rigid_room_no_resonance :
  no_resonance 3 4 3 2 (product3 (range 2) (range 2) (range 2)).
Proof.
  intros [[m n] l] (Hm & Hn & Hl)%In_product3.
  pose proof PI_RGT_0. pose proof PI_4.
  assert (Hsq : PI * PI <= 16) by nra.
  unfold mode_eigenvalue, k_mode.
  simpl in Hm, Hn, Hl.
  destruct Hm as [<- | [<- | []]], Hn as [<- | [<- | []]], Hl as [<- | [<- | []]];
    intros Heq; field_simplify in Heq; nra.
Qed.

(** The wavenumber [π/4] is the one of the mode (1, 0, 0) of the rigid
    4 x 3 x 2 room, and the wavenumber 0 the one of its mode (0, 0, 0). *)
Lemma rigid_room_resonance :
  term_denominator (PI / 4) 0 4 3 2 (1, 0, 0)%Z = C0 /\
  term_denominator 0 0 4 3 2 (0, 0, 0)%Z = C0.
Proof.
  rewrite !term_denominator_rigid. unfold mode_eigenvalue, k_mode, RtoC, C0.
  split; f_equal; field.
Qed.

(** C7, the divergence. With [defs.c = 343] and [defs.rho0 = 1.225], the
    call with [omega = 2π], [x0 = (0, 0, 0)], the single grid point
    [(1, 0, 0)] and the speed of sound [c = 1] has [k = 2π] and [r = 1];
    the x-velocity that [point_velocity] returns is the pressure times
    [(1 + jkr)/(j·k·r·ρ·343)] times [o/r]: the impedance uses [defs.c],
    not the [c = 1] of the call, and the value differs from the one the
    claim's formula gives with the call's [c]. *)
Theorem point_velocity_ignores_speed_override :
  exists vx vy vz,
    point_velocity 343 1.225 (2 * PI) [0; 0; 0] [] one_point (Some 1)
    = Some [vx; vy; vz] /\
    item vx [0%nat] = point_velocity_value 1.225 343 (2 * PI) 1 1 /\
    point_velocity_value 1.225 343 (2 * PI) 1 1
    <> point_velocity_value 1.225 1 (2 * PI) 1 1.
Proof.
  destruct (point_velocity_formula 343 1.225 (2 * PI) 0 0 0 []
              (array1 [1]) (array1 [0]) (array1 [0]) (Some 1) [1%nat] eq_refl)
    as (vx & vy & vz & Hv & Hi).
  { intros idx ->%array1_one_point.
    change (bget (array1 [1]) [0%nat]) with 1.
    change (bget (array1 [0]) [0%nat]) with 0.
    rewrite dist3_unit. lra. }
  exists vx, vy, vz. split; [exact Hv|]. split.
  - destruct (Hi [0%nat]) as (Hx & _); [repeat constructor|].
    rewrite Hx. change (bget (array1 [1]) [0%nat]) with 1.
    change (bget (array1 [0]) [0%nat]) with 0.
    change (sound_speed 343 (Some 1)) with 1.
    rewrite dist3_unit. f_equal; lra.
  - apply point_velocity_value_speed; lra.
Qed.

(** C5, the divergence. With [defs.c = 343] and [defs.rho0 = 1.225], the
    call with [omega = 1], [x0 = (0, 0, 0)], the single grid point
    [(1, 0, 0)] and the speed of sound [c = 1] has [k = 1] and [r = 1];
    for any Hankel function the x-velocity that [line_velocity] returns is
    [−1/(4·ρ·343)·H1(k·r)·o/r]: the coefficient uses [defs.c], not the
    [c = 1] of the call, and it is not the coefficient [−1/(4·ρ·1)] of the
    claim's formula. *)
Theorem line_velocity_ignores_speed_override (hankel2 : Z -> R -> C) :
  exists vx vy vz,
    line_velocity hankel2 343 1.225 1 [0; 0; 0] [] one_point (Some 1)
    = Some [vx; vy; vz] /\
    item vx [0%nat] = line_velocity_value hankel2 1.225 343 1 1 1 /\
    (forall idx, item vz idx = C0) /\
    -1 / (4 * 1.225 * 343) <> -1 / (4 * 1.225 * 1).
Proof.
  destruct (line_velocity_result hankel2 343 1.225 1 0 0 0 []
              (array1 [1]) (array1 [0]) (array1 [0]) (Some 1)
              [1%nat] [1%nat] eq_refl eq_refl)
    as (v0 & v1 & (Hs0 & Hs1) & Hi & Hline).
  eexists _, _, _. split; [exact Hline|]. split; [|split].
  - rewrite z_duplicated_flat by (cbn; lia).
    destruct (Hi [0%nat]) as (Hx & _). rewrite Hx.
    change (bget (array1 [1]) [0%nat]) with 1.
    change (bget (array1 [0]) [0%nat]) with 0.
    change (sound_speed 343 (Some 1)) with 1.
    rewrite dist2_unit.
    replace (1 / 1) with 1 by field. replace (1 - 0) with 1 by ring.
    apply line_velocity_eval_value. lra.
  - intros idx. now rewrite z_duplicated_flat by (cbn; lia).
  - lra.
Qed.

(** * Counterexamples *)

(** C4, counterexample. On the sparse 2 x 2 x 2 grid, whose broadcast shape
    is [(2, 2, 2)], [point_modal_velocity] with [N = 1] returns an
    x-component of shape [(1, 2, 1)], the shape of the x grid component,
    and [point_modal] with [N = 0] returns the scalar zero; on the dense
    2 x 2 x 2 grid [line] returns an array of shape [(2, 2, 4)]. *)
Lemma field_shapes_counterexample :
  np_broadcast_shape (map shape sparse_grid) = Some [2; 2; 2]%nat /\
  (exists vx vy vz,
     point_modal_velocity 343 1 [0; 0; 0] [] sparse_grid [1; 1; 1]
       (Some (NScalar 1)) 0 None = Some [vx; vy; vz] /\
     shape vx = [1; 2; 1]%nat /\ shape vx <> [2; 2; 2]%nat) /\
  (exists p,
     point_modal 343 1 [0; 0; 0] [] sparse_grid [1; 1; 1]
       (Some (NScalar 0)) 0 None = Some p /\
     shape p = [] /\ shape p <> [2; 2; 2]%nat) /\
  np_broadcast_shape (map shape dense_grid) = Some [2; 2; 2]%nat /\
  (forall hankel2, exists p,
     line hankel2 343 1 [0; 0; 0] [] dense_grid None = Some p /\
     shape p = [2; 2; 4]%nat /\ shape p <> [2; 2; 2]%nat).
Proof.
  split; [reflexivity|]. split; [|split; [|split; [reflexivity|]]].
  - destruct (point_modal_velocity_result 343 1 0 0 0 []
                (full [1; 2; 1]%nat 0) (full [2; 1; 1]%nat 0) (full [1; 1; 2]%nat 0)
                1 1 1 (Some (NScalar 1)) 0 None [0%Z] [0%Z] [0%Z] eq_refl)
      as (vx & vy & vz & Hv & (Hx & _) & _).
    { apply zero_mode_not_singular. unfold sound_speed. simpl. lra. }
    exists vx, vy, vz. split; [exact Hv|]. rewrite Hx. split; [reflexivity|discriminate].
  - destruct (empty_product_results 343 1 0 0 0 []
                (full [1; 2; 1]%nat 0) (full [2; 1; 1]%nat 0) (full [1; 1; 2]%nat 0)
                1 1 1 (Some (NScalar 0)) 0 None [] [] [] eq_refl) as [Hp _]; [now left|].
    exists (scalar C0). split; [exact Hp|]. split; [reflexivity|discriminate].
  - intros hankel2.
    destruct (line_result hankel2 343 1 0 0 0 []
                (full [2; 2; 2]%nat 0) (full [2; 2; 2]%nat 0) (full [2; 2; 2]%nat 0)
                None [2; 2; 2]%nat [2; 2; 2]%nat eq_refl eq_refl)
      as (p2 & Hs & _ & Hline).
    eexists. split; [exact Hline|].
    assert (Hshape : shape (z_duplicated [2; 2; 2]%nat p2) = [2; 2; 4]%nat).
    { unfold z_duplicated. cbn [length Nat.ltb Nat.leb nth np_tile shape].
      now rewrite Hs. }
    rewrite Hshape. split; [reflexivity|discriminate].
Qed.

(** C1, counterexample. In the rigid 4 x 3 x 2 room ([deltan = 0]) and on
    the sparse 2 x 2 x 2 grid, [N = 2] gives the two mode indices 0 and 1
    on every axis, so no mode range is empty. With [omega = π/4] and
    [c = 1] the wavenumber is [π/4], the one of the mode (1, 0, 0), and
    with [omega = 0] it is the one of the mode (0, 0, 0): the divisor of
    that term is zero, and [point_modal] raises instead of returning a
    pressure. *)
Lemma point_modal_is_mode_sum_counterexample :
  np_broadcast_shape (map shape room_grid) = Some [2; 2; 2]%nat /\
  mode_ranges (wavenumber 343 (PI / 4) (Some 1)) [4; 3; 2] (Some (NScalar 2))
  = Some ([0; 1]%Z, [0; 1]%Z, [0; 1]%Z) /\
  point_modal 343 (PI / 4) [1; 2; 1] [] room_grid [4; 3; 2] (Some (NScalar 2)) 0 (Some 1)
  = None /\
  point_modal 343 0 [1; 2; 1] [] room_grid [4; 3; 2] (Some (NScalar 2)) 0 (Some 1)
  = None.
Proof.
  destruct rigid_room_resonance as [H1 H0].
  split; [reflexivity|]. split; [reflexivity|]. split.
  - apply (point_modal_singular 343 (PI / 4) 1 2 1 []
             (along_x [1; 2]) (along_y [1; 3]) (along_z [1; 2])
             4 3 2 (Some (NScalar 2)) 0 (Some 1) (range 2) (range 2) (range 2)
             (1, 0, 0)%Z eq_refl).
    + apply In_product3. simpl. auto 6.
    + change (sound_speed 343 (Some 1)) with 1.
      replace (PI / 4 / 1) with (PI / 4) by field. exact H1.
  - apply (point_modal_singular 343 0 1 2 1 []
             (along_x [1; 2]) (along_y [1; 3]) (along_z [1; 2])
             4 3 2 (Some (NScalar 2)) 0 (Some 1) (range 2) (range 2) (range 2)
             (0, 0, 0)%Z eq_refl).
    + apply In_product3. simpl. auto 6.
    + change (sound_speed 343 (Some 1)) with 1.
      replace (0 / 1) with 0 by field. exact H0.
Qed.

(** C2, counterexample. The same two calls of [point_modal_velocity]: at
    the wavenumber of the mode (1, 0, 0), and at the wavenumber 0 of the
    mode (0, 0, 0), of the rigid 4 x 3 x 2 room the coefficient
    [8*1j / (ksquared - km)] is a division by zero, and the evaluator
    raises instead of returning velocity components. *)
Lemma point_modal_velocity_is_axis_sum_counterexample :
  mode_ranges (wavenumber 343 (PI / 4) (Some 1)) [4; 3; 2] (Some (NScalar 2))
  = Some ([0; 1]%Z, [0; 1]%Z, [0; 1]%Z) /\
  point_modal_velocity 343 (PI / 4) [1; 2; 1] [] room_grid [4; 3; 2]
    (Some (NScalar 2)) 0 (Some 1) = None /\
  point_modal_velocity 343 0 [1; 2; 1] [] room_grid [4; 3; 2]
    (Some (NScalar 2)) 0 (Some 1) = None.
Proof.
  destruct rigid_room_resonance as [H1 H0].
  split; [reflexivity|]. split.
  - apply (point_modal_singular 343 (PI / 4) 1 2 1 []
             (along_x [1; 2]) (along_y [1; 3]) (along_z [1; 2])
             4 3 2 (Some (NScalar 2)) 0 (Some 1) (range 2) (range 2) (range 2)
             (1, 0, 0)%Z eq_refl).
    + apply In_product3. simpl. auto 6.
    + change (sound_speed 343 (Some 1)) with 1.
      replace (PI / 4 / 1) with (PI / 4) by field. exact H1.
  - apply (point_modal_singular 343 0 1 2 1 []
             (along_x [1; 2]) (along_y [1; 3]) (along_z [1; 2])
             4 3 2 (Some (NScalar 2)) 0 (Some 1) (range 2) (range 2) (range 2)
             (0, 0, 0)%Z eq_refl).
    + apply In_product3. simpl. auto 6.
    + change (sound_speed 343 (Some 1)) with 1.
      replace (0 / 1) with 0 by field. exact H0.
Qed.

(** C6, counterexample. The grid holds the two points x = 1 and x = 2 of
    the x-axis along its third axis, so its broadcast shape [(1, 1, 2)] has
    a third dimension. [line] returns the 2D result repeated, of shape
    [(1, 1, 4)], whose slices at the z-indices 0 and 1 differ. The Hankel
    function enters only through [H0(1) ≠ H0(2)] (see
    [line_varies_along_z]); it is instantiated here with a function that
    separates the two radii, as the true [H0] does. *)
Lemma line_constant_along_z_counterexample :
  exists p,
    line (fun _ r => RtoC r) 343 1 [0; 0; 0] [] z_stored_points (Some 1) = Some p /\
    np_broadcast_shape (map shape z_stored_points) = Some [1; 1; 2]%nat /\
    shape p = [1; 1; 4]%nat /\
    item p [0; 0; 0]%nat <> item p [0; 0; 1]%nat.
Proof.
  apply (line_varies_along_z (fun _ r => RtoC r) 343).
  unfold RtoC. intros [= H]. lra.
Qed.

(** * Witnesses

    Each theorem above that carries hypotheses is applied here to a
    concrete call: the modal evaluators in the 4 x 3 x 2 room with the
    source at (1, 2, 0.5), on the sparse 2 x 2 x 2 grid of the points with
    x in {1, 2}, y in {1, 3} and z in {1, 2}, summed over the eight modes
    of order below 2. *)

Lemma point_modal_is_mode_sum_witness :
  np_broadcast_shape (map shape room_grid) = Some [2; 2; 2]%nat /\
  no_singular_term (343 / sound_speed 343 None) 1 4 3 2
    (product3 [0; 1]%Z [0; 1]%Z [0; 1]%Z) /\
  exists p,
    point_modal 343 343 [1; 2; 0.5] [] room_grid [4; 3; 2] (Some (NScalar 2)) 1 None
    = Some p /\
    shape p = [2; 2; 2]%nat /\
    forall idx, in_bounds [2; 2; 2]%nat idx ->
      item p idx
      = Csum (map (pressure_term (343 / sound_speed 343 None) 1 4 3 2 1 2 0.5
                     (bget (along_x [1; 2]) idx)
                     (bget (along_y [1; 3]) idx)
                     (bget (along_z [1; 2]) idx))
                  (product3 [0; 1]%Z [0; 1]%Z [0; 1]%Z)).
Proof.
  split; [reflexivity|]. split; [apply (absorbing_room_no_singular_term _ 2)|].
  apply (point_modal_is_mode_sum 343 343 1 2 0.5 []
           (along_x [1; 2]) (along_y [1; 3]) (along_z [1; 2])
           4 3 2 (Some (NScalar 2)) 1 None [2; 2; 2]%nat
           [0; 1]%Z [0; 1]%Z [0; 1]%Z);
    [reflexivity | lra | lra | lra | reflexivity
     | discriminate | discriminate | discriminate
     | apply (absorbing_room_no_singular_term _ 2)].
Defined.

Lemma point_modal_velocity_is_axis_sum_witness :
  exists vx vy vz,
    point_modal_velocity 343 343 [1; 2; 0.5] [] room_grid [4; 3; 2]
      (Some (NScalar 2)) 1 None = Some [vx; vy; vz] /\
    (shape vx = [1; 2; 1]%nat /\ shape vy = [2; 1; 1]%nat /\
     shape vz = [1; 1; 2]%nat) /\
    (forall idx, in_bounds (shape vx) idx ->
       item vx idx = Csum (map (velocity_term (343 / sound_speed 343 None) 1 4 3 2
                                  0 1 (bget (along_x [1; 2]) idx))
                               (product3 [0; 1]%Z [0; 1]%Z [0; 1]%Z))) /\
    (forall idx, in_bounds (shape vy) idx ->
       item vy idx = Csum (map (velocity_term (343 / sound_speed 343 None) 1 4 3 2
                                  1 2 (bget (along_y [1; 3]) idx))
                               (product3 [0; 1]%Z [0; 1]%Z [0; 1]%Z))) /\
    (forall idx, in_bounds (shape vz) idx ->
       item vz idx = Csum (map (velocity_term (343 / sound_speed 343 None) 1 4 3 2
                                  2 0.5 (bget (along_z [1; 2]) idx))
                               (product3 [0; 1]%Z [0; 1]%Z [0; 1]%Z))).
Proof.
  apply (point_modal_velocity_is_axis_sum 343 343 1 2 0.5 []
           (along_x [1; 2]) (along_y [1; 3]) (along_z [1; 2])
           4 3 2 (Some (NScalar 2)) 1 None [0; 1]%Z [0; 1]%Z [0; 1]%Z);
    [lra | lra | lra | reflexivity | apply (absorbing_room_no_singular_term _ 2)].
Defined.

Lemma field_shapes_witness :
  one_of_shape [2; 2; 2]%nat (point 343 1 [1; 2; 1] [0; 0; 1] room_grid None) /\
  three_of_shape [2; 2; 2]%nat
    (line_velocity (fun _ r => RtoC r) 343 1.225 1 [1; 2; 1] [0; 0; 1] room_grid None) /\
  one_of_shape [2; 2; 2]%nat
    (point_modal 343 1 [1; 2; 1] [0; 0; 1] room_grid [4; 3; 2] (Some (NScalar 2)) 1 None).
Proof.
  pose proof (field_shapes (fun _ r => RtoC r) 343 1.225 1 1 2 1 0 0 1
                (along_x [1; 2]) (along_y [1; 3]) (along_z [1; 2])
                4 3 2 (Some (NScalar 2)) 1 None [2; 2; 2]%nat
                [0; 1]%Z [0; 1]%Z [0; 1]%Z
                eq_refl eq_refl) as (Hpoint & _ & _ & _ & Hmodal & Hline).
  split; [exact Hpoint|]. split.
  - apply (Hline [2; 2; 1]%nat eq_refl).
    right. exists 2%nat, 2%nat, 2%nat. split; reflexivity.
  - apply Hmodal; [lra | lra | lra | discriminate | discriminate | discriminate |].
    apply (absorbing_room_no_singular_term _ 2).
Defined.

Lemma line_constant_along_z_witness :
  exists p,
    line (fun _ r => RtoC r) 343 1 [0; 0; 0] [] sparse_grid None = Some p /\
    shape p = [2; 2; 2]%nat /\
    forall i j kz, (i < 2)%nat -> (j < 2)%nat -> (kz < 2)%nat ->
      item p [i; j; kz]
      = line_pressure (fun _ r => RtoC r) (1 / sound_speed 343 None)
          (dist2 0 0 (bget (full [1; 2; 1]%nat 0) [i; j; 0%nat])
                     (bget (full [2; 1; 1]%nat 0) [i; j; 0%nat])).
Proof.
  destruct (line_constant_along_z (fun _ r => RtoC r) 343 1 0 0 0 []
              (full [1; 2; 1]%nat 0) (full [2; 1; 1]%nat 0) (full [1; 1; 2]%nat 0)
              None [2; 2; 1]%nat [2; 2; 2]%nat eq_refl eq_refl)
    as (p & Hp & H3 & _).
  exists p. split; [exact Hp|].
  exact (H3 2%nat 2%nat 2%nat eq_refl eq_refl).
Defined.

Lemma plane_has_unit_modulus_witness :
  exists p,
    plane 343 1 [1; 2; 1] [3; 4; 0] room_grid (Some 2) = Some p /\
    shape p = [2; 2; 2]%nat /\
    forall idx, in_bounds [2; 2; 2]%nat idx ->
      item p idx
      = plane_pressure (1 / sound_speed 343 (Some 2))
          (inner3 1 2 1 3 4 0 (bget (along_x [1; 2]) idx)
             (bget (along_y [1; 3]) idx) (bget (along_z [1; 2]) idx)) /\
      Cmod (item p idx) = 1.
Proof.
  apply (plane_has_unit_modulus 343 1 1 2 1 3 4 0
           (along_x [1; 2]) (along_y [1; 3]) (along_z [1; 2])
           (Some 2) [2; 2; 2]%nat).
  reflexivity.
Defined.

Lemma point_modal_real_for_rigid_walls_witness :
  no_resonance (3 / sound_speed 343 (Some 1)) 4 3 2
    (product3 [0; 1]%Z [0; 1]%Z [0; 1]%Z) /\
  exists p,
    point_modal 343 3 [1; 2; 0.5] [] room_grid [4; 3; 2] (Some (NScalar 2)) 0 (Some 1)
    = Some p /\
    shape p = [2; 2; 2]%nat /\
    forall idx, in_bounds (shape p) idx ->
      Im (item p idx) = 0 /\
      item p idx
      = RtoC (Rsum (map (pressure_term_real (3 / sound_speed 343 (Some 1)) 4 3 2 1 2 0.5
                           (bget (along_x [1; 2]) idx)
                           (bget (along_y [1; 3]) idx)
                           (bget (along_z [1; 2]) idx))
                        (product3 [0; 1]%Z [0; 1]%Z [0; 1]%Z))).
Proof.
  assert (Hres : no_resonance (3 / sound_speed 343 (Some 1)) 4 3 2
                   (product3 [0; 1]%Z [0; 1]%Z [0; 1]%Z)).
  { change (sound_speed 343 (Some 1)) with 1.
    replace (3 / 1) with 3 by field. exact rigid_room_no_resonance. }
  split; [exact Hres|].
  apply (point_modal_real_for_rigid_walls 343 3 1 2 0.5 []
           (along_x [1; 2]) (along_y [1; 3]) (along_z [1; 2])
           4 3 2 (Some (NScalar 2)) (Some 1) [2; 2; 2]%nat
           [0; 1]%Z [0; 1]%Z [0; 1]%Z);
    [reflexivity | lra | lra | lra | reflexivity | exact Hres].
Defined.

Lemma empty_mode_range_gives_scalar_zero_witness :
  point_modal 343 0 [0; 0; 0] [] sparse_grid [1; 1; 1] None 0 None
  = Some (scalar C0) /\
  point_modal_velocity 343 0 [0; 0; 0] [] sparse_grid [1; 1; 1] None 0 None
  = Some [scalar C0; scalar C0; scalar C0].
Proof.
  apply (empty_mode_range_gives_scalar_zero 343 0 0 0 0 []
           (full [1; 2; 1]%nat 0) (full [2; 1; 1]%nat 0) (full [1; 1; 2]%nat 0)
           1 1 1 0 None).
  left. unfold sound_speed. simpl.
  replace (1 / PI * (0 / 343)) with 0 by (field; apply PI_neq0).
  apply ceil_0.
Defined.

(** * Witnesses of the further properties *)

Lemma auto_order_keeps_modes_below_k_witness :
  exists mm nn ll,
    mode_ranges 1 [4; 3; 2] None = Some (mm, nn, ll) /\
    (forall m, In m mm <-> (0 <= m)%Z /\ k_mode m 4 < 1) /\
    (forall m, In m nn <-> (0 <= m)%Z /\ k_mode m 3 < 1) /\
    (forall m, In m ll <-> (0 <= m)%Z /\ k_mode m 2 < 1).
Proof. apply (auto_order_keeps_modes_below_k 1 4 3 2); lra. Defined.

Lemma nonpositive_frequency_gives_zero_field_witness :
  point_modal 343 (-1) [0; 0; 0] [] sparse_grid [4; 3; 2] None 0 None
  = Some (scalar C0) /\
  point_modal_velocity 343 (-1) [0; 0; 0] [] sparse_grid [4; 3; 2] None 0 None
  = Some [scalar C0; scalar C0; scalar C0].
Proof.
  apply (nonpositive_frequency_gives_zero_field 343 (-1) 0 0 0 []
           (full [1; 2; 1]%nat 0) (full [2; 1; 1]%nat 0) (full [1; 1; 2]%nat 0)
           4 3 2 0 None); [lra | unfold sound_speed; simpl; lra | lra].
Defined.


Lemma point_modal_conjugate_in_absorption_witness :
  exists p q,
    point_modal 343 343 [1; 2; 0.5] [] room_grid [4; 3; 2] (Some (NScalar 2)) 1 None
    = Some p /\
    point_modal 343 343 [1; 2; 0.5] [] room_grid [4; 3; 2] (Some (NScalar 2)) (-1) None
    = Some q /\
    shape p = [2; 2; 2]%nat /\
    shape q = shape p /\
    forall idx, in_bounds (shape p) idx -> item q idx = Cconj (item p idx).
Proof.
  apply (point_modal_conjugate_in_absorption 343 343 1 2 0.5 []
           (along_x [1; 2]) (along_y [1; 3]) (along_z [1; 2])
           4 3 2 (Some (NScalar 2)) 1 None [2; 2; 2]%nat
           [0; 1]%Z [0; 1]%Z [0; 1]%Z);
    [reflexivity | lra | lra | lra | reflexivity
     | apply (absorbing_room_no_singular_term _ 2)].
Defined.

Lemma point_modal_mirror_symmetric_witness :
  exists p q,
    point_modal 343 343 [1; 2; 0.5] [] room_grid [4; 3; 2] (Some (NScalar 2)) 1 None
    = Some p /\
    point_modal 343 343 [1; 2; 0.5] []
      [mirrored (along_x [1; 2]); along_y [1; 3]; mirrored (along_z [1; 2])]
      [4; 3; 2] (Some (NScalar 2)) 1 None
    = Some q /\
    shape p = [2; 2; 2]%nat /\
    shape q = shape p /\
    forall idx, in_bounds (shape p) idx -> item q idx = item p idx.
Proof.
  apply (point_modal_mirror_symmetric 343 343 1 2 0.5 []
           (along_x [1; 2]) (along_y [1; 3]) (along_z [1; 2])
           4 3 2 (Some (NScalar 2)) 1 None [2; 2; 2]%nat
           [0; 1]%Z [0; 1]%Z [0; 1]%Z true false true);
    [reflexivity | lra | lra | lra | reflexivity
     | apply (absorbing_room_no_singular_term _ 2)].
Defined.

Lemma point_modal_reciprocity_witness :
  exists p,
    point_modal 343 343 [1; 2; 0.5] [] room_grid [4; 3; 2] (Some (NScalar 2)) 1 None
    = Some p /\
    shape p = [2; 2; 2]%nat /\
    forall idx, in_bounds (shape p) idx ->
      exists q,
        point_modal 343 343
          [bget (along_x [1; 2]) idx; bget (along_y [1; 3]) idx;
           bget (along_z [1; 2]) idx] []
          [scalar 1; scalar 2; scalar 0.5] [4; 3; 2] (Some (NScalar 2)) 1 None = Some q /\
        shape q = [] /\
        item q [] = item p idx.
Proof.
  apply (point_modal_reciprocity 343 343 1 2 0.5 []
           (along_x [1; 2]) (along_y [1; 3]) (along_z [1; 2])
           4 3 2 (Some (NScalar 2)) 1 None [2; 2; 2]%nat
           [0; 1]%Z [0; 1]%Z [0; 1]%Z);
    [reflexivity | lra | lra | lra | reflexivity
     | apply (absorbing_room_no_singular_term _ 2)].
Defined.

(** The corners of the floor of the 4 x 3 room lie on its walls x = 0 or
    x = 4 and y = 0 or y = 3. *)
Lemma in_bounds_3 (a b c : nat) (idx : list nat) :
  in_bounds [a; b; c] idx ->
  exists i j k, idx = [i; j; k] /\ (i < a)%nat /\ (j < b)%nat /\ (k < c)%nat.
Proof.
  intros H. inversion H as [|i a' idx1 s1 Hi H1]; subst.
  inversion H1 as [|j b' idx2 s2 Hj H2]; subst.
  inversion H2 as [|k c' idx3 s3 Hk H3]; subst.
  inversion H3; subst. now exists i, j, k.
Qed.

Lemma normal_velocity_vanishes_on_walls_witness :
  exists vx vy vz,
    point_modal_velocity 343 343 [1; 2; 1] [] wall_grid [4; 3; 2]
      (Some (NScalar 2)) 1 None = Some [vx; vy; vz] /\
    (shape vx = [1; 2; 1]%nat /\ shape vy = [2; 1; 1]%nat /\
     shape vz = [1; 1; 1]%nat) /\
    (forall idx, in_bounds [1; 2; 1]%nat idx -> item vx idx = C0) /\
    (forall idx, in_bounds [2; 1; 1]%nat idx -> item vy idx = C0).
Proof.
  destruct (normal_velocity_vanishes_on_walls 343 343 1 2 1 []
              (along_x [0; 4]) (along_y [0; 3]) (along_z [1])
              4 3 2 (Some (NScalar 2)) 1 None [0; 1]%Z [0; 1]%Z [0; 1]%Z)
    as (vx & vy & vz & Hv & (Hsx & Hsy & Hsz) & Hx & Hy & _);
    [reflexivity | lra | lra | lra | apply (absorbing_room_no_singular_term _ 2) |].
  exists vx, vy, vz. split; [exact Hv|]. split; [done|]. split.
  - intros idx Hidx. apply Hx; [now rewrite Hsx|].
    apply in_bounds_3 in Hidx as (i & j & k & -> & Hi & Hj & Hk).
    destruct i as [|?]; [|lia]. destruct k as [|?]; [|lia].
    destruct j as [|[|?]]; [left | right | lia]; reflexivity.
  - intros idx Hidx. apply Hy; [now rewrite Hsy|].
    apply in_bounds_3 in Hidx as (i & j & k & -> & Hi & Hj & Hk).
    destruct j as [|?]; [|lia]. destruct k as [|?]; [|lia].
    destruct i as [|[|?]]; [left | right | lia]; reflexivity.
Defined.

Lemma point_closed_form_witness :
  exists p,
    point 343 343 [1; 2; 1] [] sparse_grid None = Some p /\
    shape p = [2; 2; 2]%nat /\
    forall idx, in_bounds [2; 2; 2]%nat idx ->
      let r := dist3 1 2 1 (bget (full [1; 2; 1]%nat 0) idx)
                 (bget (full [2; 1; 1]%nat 0) idx) (bget (full [1; 1; 2]%nat 0) idx) in
      0 < r ->
      item p idx = point_pressure (343 / sound_speed 343 None) r /\
      Cmod (item p idx) = 1 / (4 * PI * r).
Proof.
  apply (point_closed_form 343 343 1 2 1 []
           (full [1; 2; 1]%nat 0) (full [2; 1; 1]%nat 0) (full [1; 1; 2]%nat 0)
           None [2; 2; 2]%nat).
  reflexivity.
Defined.

Lemma incompatible_grid_raises_witness :
  point 343 343 [0; 0; 0] [1; 0; 0] incompatible_grid None = None /\
  point_velocity 343 1.225 343 [0; 0; 0] [1; 0; 0] incompatible_grid None = None /\
  plane 343 343 [0; 0; 0] [1; 0; 0] incompatible_grid None = None /\
  line (fun _ r => RtoC r) 343 343 [0; 0; 0] [1; 0; 0] incompatible_grid None = None.
Proof.
  apply (incompatible_grid_raises (fun _ r => RtoC r) 343 1.225 343 0 0 0 1 0 0
           (full [2]%nat 0) (full [3]%nat 0) (full [1]%nat 0) None).
  reflexivity.
Defined.

Lemma incompatible_grid_modal_witness :
  point_modal 343 343 [1; 2; 1] [] incompatible_grid [4; 3; 2] (Some (NScalar 2)) 1 None
  = None /\
  exists vx vy vz,
    point_modal_velocity 343 343 [1; 2; 1] [] incompatible_grid [4; 3; 2]
      (Some (NScalar 2)) 1 None = Some [vx; vy; vz] /\
    shape vx = [2]%nat /\ shape vy = [3]%nat /\ shape vz = [1]%nat.
Proof.
  destruct (incompatible_grid_modal 343 343 1 2 1 []
              (full [2]%nat 0) (full [3]%nat 0) (full [1]%nat 0)
              4 3 2 (Some (NScalar 2)) 1 None [0; 1]%Z [0; 1]%Z [0; 1]%Z)
    as (Hp & Hv);
    [reflexivity | lra | lra | lra | reflexivity
     | discriminate | discriminate | discriminate |].
  split; [exact Hp|]. apply Hv, (absorbing_room_no_singular_term _ 2).
Defined.


Lemma plane_velocity_amplitude_witness :
  exists p vx vy vz,
    plane 343 343 [0; 0; 0] [1; 0; 0] sparse_grid None = Some p /\
    plane_velocity 343 1.225 343 [0; 0; 0] [1; 0; 0] sparse_grid None
    = Some [vx; vy; vz] /\
    forall idx, in_bounds [2; 2; 2]%nat idx ->
      Cmod (item vx idx) = Rabs 1 / Rabs (1.225 * 343) /\
      Cmod (item vy idx) = Rabs 0 / Rabs (1.225 * 343).
Proof.
  destruct (plane_velocity_amplitude 343 1.225 343 0 0 0 1 0 0
              (full [1; 2; 1]%nat 0) (full [2; 1; 1]%nat 0) (full [1; 1; 2]%nat 0)
              None [2; 2; 2]%nat eq_refl) as (p & vx & vy & vz & Hp & Hv & H).
  { lra. }
  exists p, vx, vy, vz. split; [exact Hp|]. split; [exact Hv|].
  intros idx Hidx. destruct (H idx Hidx) as ((_ & Hx) & (_ & Hy) & _).
  split; [exact Hx | exact Hy].
Defined.

Lemma plane_wavelength_witness :
  exists p q,
    plane 343 343 [0; 0; 0] [1; 0; 0] sparse_grid None = Some p /\
    plane 343 343 [0; 0; 0] [1; 0; 0]
      [shifted (2 * PI / (343 / sound_speed 343 None) * 1) (full [1; 2; 1]%nat 0);
       shifted (2 * PI / (343 / sound_speed 343 None) * 0) (full [2; 1; 1]%nat 0);
       shifted (2 * PI / (343 / sound_speed 343 None) * 0) (full [1; 1; 2]%nat 0)]
      None = Some q /\
    shape q = shape p /\
    forall idx, in_bounds [2; 2; 2]%nat idx -> item q idx = item p idx.
Proof.
  apply (plane_wavelength 343 343 0 0 0 1 0 0
           (full [1; 2; 1]%nat 0) (full [2; 1; 1]%nat 0) (full [1; 1; 2]%nat 0)
           None [2; 2; 2]%nat eq_refl).
  - unfold sound_speed. simpl. lra.
  - lra.
Defined.

Lemma point_translation_invariant_witness :
  exists p q,
    point 343 343 [0; 0; 0] [] sparse_grid None = Some p /\
    point 343 343 [0 + 1; 0 + 2; 0 + 3] []
      [shifted 1 (full [1; 2; 1]%nat 0); shifted 2 (full [2; 1; 1]%nat 0);
       shifted 3 (full [1; 1; 2]%nat 0)] None = Some q /\
    shape q = shape p /\
    forall idx, in_bounds [2; 2; 2]%nat idx -> item q idx = item p idx.
Proof.
  apply (point_translation_invariant 343 343 0 0 0 1 2 3 []
           (full [1; 2; 1]%nat 0) (full [2; 1; 1]%nat 0) (full [1; 1; 2]%nat 0)
           None [2; 2; 2]%nat).
  reflexivity.
Defined.

Lemma point_velocity_is_radial_witness :
  exists p vx vy vz,
    point 343 343 [1; 2; 1] [] sparse_grid None = Some p /\
    point_velocity 343 1.225 343 [1; 2; 1] [] sparse_grid None = Some [vx; vy; vz] /\
    forall idx, in_bounds [2; 2; 2]%nat idx ->
      Cmul (item vx idx) (RtoC (bget (full [2; 1; 1]%nat 0) idx - 2))
      = Cmul (item vy idx) (RtoC (bget (full [1; 2; 1]%nat 0) idx - 1)).
Proof.
  destruct (point_velocity_is_radial 343 1.225 343 1 2 1 []
              (full [1; 2; 1]%nat 0) (full [2; 1; 1]%nat 0) (full [1; 1; 2]%nat 0)
              None [2; 2; 2]%nat eq_refl) as (p & vx & vy & vz & Hp & Hv & H).
  exists p, vx, vy, vz. split; [exact Hp|]. split; [exact Hv|].
  intros idx Hidx. destruct (H idx Hidx) as (_ & Hxy & _). exact Hxy.
Defined.

Lemma line_sources_ignore_z_witness :
  line (fun _ r => RtoC r) 343 343 [0; 0; 5] [1; 0; 7]
    [full [1; 2; 1]%nat 0; full [2; 1; 1]%nat 0; full [1; 1; 2]%nat 9] None
  = line (fun _ r => RtoC r) 343 343 [0; 0; 0] [1; 0; 0] sparse_grid None.
Proof.
  apply (line_sources_ignore_z (fun _ r => RtoC r) 343 1.225 343 0 0 0 5 1 0 0 7
           (full [1; 2; 1]%nat 0) (full [2; 1; 1]%nat 0) (full [1; 1; 2]%nat 0)
           (full [1; 1; 2]%nat 9) None).
  reflexivity.
Defined.

Lemma line_dipole_pattern_witness :
  exists p,
    line_dipole (fun _ r => RtoC r) 343 343 [0; 0; 0] [1; -1; 0] room_grid None
    = Some p /\
    shape p = [2; 2; 2]%nat /\
    item p [0; 0; 1]%nat = C0.
Proof.
  destruct (line_dipole_pattern (fun _ r => RtoC r) 343 343 0 0 0 1 (-1) 0
              (along_x [1; 2]) (along_y [1; 3]) (along_z [1; 2])
              None [2; 2; 1]%nat [2; 2; 2]%nat eq_refl eq_refl) as (p & Hp & Hs & H).
  { right. exists 2%nat, 2%nat, 2%nat. split; reflexivity. }
  exists p. split; [exact Hp|]. split; [exact Hs|].
  destruct (H [0; 0; 1]%nat) as (_ & Hnull).
  - repeat constructor.
  - change (dist2 0 0 (bget (along_x [1; 2]) (z_source [2; 2; 2]%nat [2; 2; 1]%nat
                                                 [0; 0; 1]%nat))
              (bget (along_y [1; 3]) (z_source [2; 2; 2]%nat [2; 2; 1]%nat
                                        [0; 0; 1]%nat)))
      with (dist2 0 0 1 1).
    unfold dist2. apply sqrt_lt_R0. lra.
  - apply Hnull.
    change (bget (along_x [1; 2]) (z_source [2; 2; 2]%nat [2; 2; 1]%nat [0; 0; 1]%nat))
      with 1.
    change (bget (along_y [1; 3]) (z_source [2; 2; 2]%nat [2; 2; 1]%nat [0; 0; 1]%nat))
      with 1.
    ring.
Defined.

Lemma line_velocity_components_witness :
  exists vx vy vz,
    line_velocity (fun _ r => RtoC r) 343 1.225 343 [0; 0; 0] [] sparse_grid None
    = Some [vx; vy; vz] /\
    forall idx, item vz idx = C0.
Proof.
  destruct (line_velocity_components (fun _ r => RtoC r) 343 1.225 343 0 0 0 []
              (full [1; 2; 1]%nat 0) (full [2; 1; 1]%nat 0) None [2; 2; 1]%nat eq_refl)
    as (H3 & _).
  destruct (H3 (full [1; 1; 2]%nat 0) [2; 2; 2]%nat eq_refl)
    as (vx & vy & vz & Hv & H).
  exists vx, vy, vz. split; [exact Hv|]. intros idx. apply (H idx).
Defined.

Lemma point_modal_argument_errors_witness :
  point_modal 343 343 [0; 0; 0] [] [full [2]%nat 0; full [2]%nat 0] [4; 3; 2]
    (Some (NScalar 1)) 0 None = None /\
  point_modal 343 343 [0; 0] [] sparse_grid [4; 3; 2] (Some (NScalar 1)) 0 None = None /\
  point_modal 343 343 [] [] sparse_grid [] (Some (NScalar 0)) 0 None = Some (scalar C0).
Proof.
  split; [|split].
  - apply (point_modal_argument_errors 343 343 [0; 0; 0] [] [4; 3; 2] 0 None).
    simpl. lia.
  - apply (point_modal_argument_errors 343 343 [0; 0] [] [4; 3; 2] 0 None);
      [lia | left; simpl; lia].
  - apply (point_modal_argument_errors 343 343 [] [] [] 0 None). lia.
Defined.

Lemma z_duplication_cases_witness :
  exists q,
    _duplicate_zdirection (full [2; 2; 2]%nat C0) dense_grid = Some q /\
    length (shape q) = 3%nat /\ size_of (shape q) = 16%nat.
Proof.
  destruct (z_duplication_cases (full [2; 2; 2]%nat C0) dense_grid) as (_ & H).
  destruct (H [2; 2; 2]%nat eq_refl) as (_ & H3).
  apply H3. simpl. lia.
Defined.

Lemma direction_argument_witness :
  plane 343 343 [0; 0; 0] [1; 0] sparse_grid None = None /\
  plane_velocity 343 1.225 343 [0; 0; 0] [1; 0] sparse_grid None = None.
Proof.
  apply (direction_argument (fun _ r => RtoC r) 343 1.225 343 0 0 0 [1; 0] []
           (full [1; 2; 1]%nat 0) (full [2; 1; 1]%nat 0) (full [1; 1; 2]%nat 0)
           [4; 3; 2] None 0 None).
  simpl. lia.
Defined.
